(** * RuleBot rule engine: matching and scoring (rules.py, db.py)

    A shallow embedding of the rule engine of the RuleBot backend and the
    properties of its matching/scoring core.

    Modelling conventions.
    - A Python [str] is a list of characters; a character is a code point in
      the range U+0000..U+00FF, carried by [ascii].  The character tables
      below ([isspace], [lower_char], [isword]) are Python's tables for that
      range.
    - A Python [float] is a binary64 primitive float; [round] and the
      comparison with the similarity threshold are the IEEE operations.
    - The standard-library services the engine calls and that are not part of
      the repository ([re.compile], [Pattern.search], [SequenceMatcher]) are
      an interface, class [PyLib]; every theorem of the engine holds for
      every implementation of it.  A reference implementation is given for
      evaluating the engine on concrete inputs.
    - A call that may raise returns a value of [Res]: [Ok v] when it returns
      [v], [Raise e] when exception [e] leaves it.  [re.compile] raises
      [re.error] on a malformed pattern and other exceptions on some patterns
      ([OverflowError] on a repetition count that is too large, for
      instance); the engine catches the first kind only.
    - A Python dict with a varying key set (the result of [match_rule]) is a
      [gmap] from key to value, so that "key absent" and "key bound to None"
      stay different. *)

From Stdlib Require Import ZArith NArith Floats List Ascii String Bool Lia.
From Stdlib Require Import Sorting.Sorted Sorting.Permutation.
From stdpp Require Import gmap strings list.

Local Open Scope Z_scope.

(** ** Python strings *)

Module PyStr.

Abbreviation str := (list ascii).

(** A string literal as a Python string. *)
Definition py (s : string) : str := list_ascii_of_string s.

Definition code (c : ascii) : N := N_of_ascii c.

Definition in_range (lo hi : N) (c : ascii) : bool :=
  ((lo <=? code c) && (code c <=? hi))%N.

(** [str.isspace] on one character; it is also the class [\s] of a [str]
    pattern and the separator set of [str.split()] and [str.strip()]. *)
Definition isspace (c : ascii) : bool :=
  in_range 9 13 c || in_range 28 32 c
  || (code c =? 133)%N || (code c =? 160)%N.

Definition isdigit09 (c : ascii) : bool := in_range 48 57 c.
Definition islower_az (c : ascii) : bool := in_range 97 122 c.

(** The class [\w] of a [str] pattern: [isalnum] or underscore. *)
Definition isword (c : ascii) : bool :=
  isdigit09 c || in_range 65 90 c || (code c =? 95)%N || islower_az c
  || (code c =? 170)%N || (code c =? 178)%N || (code c =? 179)%N
  || (code c =? 181)%N || (code c =? 185)%N || (code c =? 186)%N
  || in_range 188 190 c || in_range 192 214 c || in_range 216 246 c
  || in_range 248 255 c.

(** [str.lower] on one character. *)
Definition lower_char (c : ascii) : ascii :=
  if in_range 65 90 c || in_range 192 214 c || in_range 216 222 c
  then ascii_of_N (code c + 32)
  else c.

Definition lower (s : str) : str := map lower_char s.

Fixpoint lstrip (s : str) : str :=
  match s with
  | [] => []
  | c :: r => if isspace c then lstrip r else s
  end.

Definition rstrip (s : str) : str := rev (lstrip (rev s)).

(** [s.strip()] *)
Definition strip (s : str) : str := rstrip (lstrip s).

Definition eqb_char (a b : ascii) : bool := Ascii.eqb a b.

Fixpoint eqb_str (a b : str) : bool :=
  match a, b with
  | [], [] => true
  | x :: a', y :: b' => eqb_char x y && eqb_str a' b'
  | _, _ => false
  end.

(** [s.startswith(p)] *)
Fixpoint startswith (s p : str) {struct p} : bool :=
  match p, s with
  | [], _ => true
  | x :: p', y :: s' => eqb_char x y && startswith s' p'
  | _ :: _, [] => false
  end.

(** [p in s] for strings: [p] is a contiguous substring of [s]. *)
Fixpoint contains (s p : str) : bool :=
  startswith s p ||
  match s with
  | [] => false
  | _ :: s' => contains s' p
  end.

(** [s.count(c)] for a one-character [c]. *)
Definition count_char (c : ascii) (s : str) : nat :=
  List.length (List.filter (eqb_char c) s).

(** [s.rfind(c)] for a one-character [c]; [None] stands for -1. *)
Fixpoint rfind_char (c : ascii) (s : str) : option nat :=
  match s with
  | [] => None
  | x :: r =>
      match rfind_char c r with
      | Some i => Some (S i)
      | None => if eqb_char c x then Some O else None
      end
  end.

(** [s.split(c)] for a one-character separator: never the empty list. *)
Fixpoint split_char (c : ascii) (s : str) : list str :=
  match s with
  | [] => [[]]
  | x :: r =>
      if eqb_char c x then [] :: split_char c r
      else match split_char c r with
           | h :: t => (x :: h) :: t
           | [] => [[x]]
           end
  end.

(** [s.split()]: the maximal runs of non-whitespace characters.  [cur] is the
    token being read, in reverse. *)
Fixpoint split_ws_go (cur : str) (s : str) : list str :=
  match s with
  | [] => match cur with [] => [] | _ => [rev cur] end
  | c :: r =>
      if isspace c
      then match cur with
           | [] => split_ws_go [] r
           | _ => rev cur :: split_ws_go [] r
           end
      else split_ws_go (c :: cur) r
  end.

Definition split_ws (s : str) : list str := split_ws_go [] s.

(** [pattern.sub(" ", s)] for a pattern [[cls]+]: every maximal run of
    characters of the class is replaced by one space.  [in_run] tells that
    the run being read has been replaced already. *)
Fixpoint sub_runs_go (cls : ascii -> bool) (in_run : bool) (s : str) : str :=
  match s with
  | [] => []
  | c :: r =>
      if cls c
      then if in_run then sub_runs_go cls true r
           else " "%char :: sub_runs_go cls true r
      else c :: sub_runs_go cls false r
  end.

Definition sub_runs (cls : ascii -> bool) (s : str) : str :=
  sub_runs_go cls false s.

End PyStr.

Import PyStr.

(** ** Text normalizer (rules.py, normalize_text) *)

(** [_strip_chars = re.compile(r"[^a-z0-9\s]+")] *)
Definition _strip_chars (c : ascii) : bool :=
  negb (islower_az c || isdigit09 c || isspace c).

(** [_norm_ws = re.compile(r"\s+")] *)
Definition _norm_ws (c : ascii) : bool := isspace c.

Definition normalize_text (text : str) : str :=
  let t := lower (strip text) in
  let t := sub_runs _strip_chars t in
  let t := sub_runs _norm_ws t in
  t.

(** [tokenize] *)
Definition tokenize (text : str) : list str :=
  List.filter (fun tok => negb (eqb_str tok [])) (split_char " "%char text).


(** ** Exceptions and calls that may raise *)

(** The exceptions that leave a call of the engine: [TypeError] from the
    engine itself, and what [re.compile] raises: [re.error] on a malformed
    pattern, [OverflowError] on a repetition count that is too large,
    [RecursionError] on a pattern nested too deep, [ValueError] on
    incompatible flags. *)
Inductive exn :=
| TypeError
| re_error
| OverflowError
| RecursionError
| ValueError.

(** The result of a call: the value returned or the exception raised. *)
Inductive Res (A : Type) :=
| Ok (a : A)
| Raise (e : exn).

Arguments Ok {A} a.
Arguments Raise {A} e.

Definition bind {A B} (r : Res A) (f : A -> Res B) : Res B :=
  match r with
  | Ok a => f a
  | Raise e => Raise e
  end.

(** A [for] loop whose body may raise: the first exception ends the loop. *)
Fixpoint for_each {A B} (body : A -> B -> Res A) (l : list B) (a : A) : Res A :=
  match l with
  | [] => Ok a
  | x :: l' => bind (body a x) (for_each body l')
  end.

(** ** Standard-library services used by the engine

    [re.compile], [Pattern.search] and [difflib.SequenceMatcher] are library
    code.  The engine is written against this interface.
    - [re_compile_exn pat ic]: what [re.compile(pat, flags)] raises ([ic]
      tells that [re.IGNORECASE] is set); [None] when it returns a pattern
      object.
    - [re_search pat ic text]: the compiled pattern finds a match somewhere
      in [text] ([search] returns a match object).
    - [sm_matches a b]: the total size of the matching blocks of
      [SequenceMatcher(None, a, b)]. *)
Class PyLib := {
  re_compile_exn : str -> bool -> option exn;
  re_search : str -> bool -> str -> bool;
  sm_matches : str -> str -> nat
}.

(** A compiled pattern object: its source ([pat.pattern]) and its flag. *)
Record Pattern := { pattern : str; ignorecase : bool }.

(** ** Tunable weights (rules.py) *)

Definition KW_WORD_POINTS : Z := 12.
Definition KW_REGEX_POINTS : Z := 14.
Definition EXACT_MATCH_BONUS : Z := 40.
Definition PRIORITY_WEIGHT : Z := 2.
Definition SIMILARITY_WEIGHT : Z := 30.
(** The float literal 0.55, written as the binary64 value it denotes. *)
Definition SIMILARITY_MIN_FOR_MATCH : float := 0x1.199999999999ap-1%float.

(** ** Python numbers *)

(** [float(n)] for a length or a small integer constant (exact below 2^53). *)
Definition float_of_Z (z : Z) : float := PrimFloat.of_uint63 (Uint63.of_Z z).

(** [round(x)] of a float with no digits argument: the nearest integer, ties
    to the even one.  (Python raises on an infinity or a NaN; the engine only
    rounds values between 0 and 30.) *)
Definition py_round (x : float) : Z :=
  match Prim2SF x with
  | S754_finite s m e =>
      let v :=
        match e with
        | Z0 => Zpos m
        | Zpos p => Zpos m * 2 ^ Zpos p
        | Zneg p =>
            let d := 2 ^ Zpos p in
            let q := Zpos m / d in
            let r := Zpos m mod d in
            match (2 * r) ?= d with
            | Lt => q
            | Gt => q + 1
            | Eq => if Z.even q then q else q + 1
            end
        end in
      if s then - v else v
  | _ => 0
  end.

(** [difflib._calculate_ratio(matches, length)] *)
Definition _calculate_ratio (matches length : nat) : float :=
  match length with
  | O => 1%float
  | _ => (2 * float_of_Z (Z.of_nat matches) / float_of_Z (Z.of_nat length))%float
  end.

Section Engine.

Context {lib : PyLib}.

(** [re.compile(pat, flags)] *)
Definition re_compile (pat : str) (ic : bool) : Res Pattern :=
  match re_compile_exn pat ic with
  | None => Ok {| pattern := pat; ignorecase := ic |}
  | Some e => Raise e
  end.

(** [pat.search(text)] is truthy. *)
Definition search (pat : Pattern) (text : str) : bool :=
  re_search (pattern pat) (ignorecase pat) text.

(** [SequenceMatcher(None, a, b).ratio()] *)
Definition SequenceMatcher_ratio (a b : str) : float :=
  _calculate_ratio (sm_matches a b) (List.length a + List.length b).

(** ** Keyword spec parser (rules.py, parse_keywords) *)

(** [kw[1:last]] *)
Definition slice_1 (last : nat) (kw : str) : str :=
  firstn (last - 1) (skipn 1 kw).

(** [try: patterns.append(re.compile(pat, flags)) except re.error: pass]:
    [re.error] is caught, every other exception goes on. *)
Definition try_append (acc : list str * list Pattern) (pat : str) (flags : bool)
  : Res (list str * list Pattern) :=
  let '(plain, patterns) := acc in
  match re_compile pat flags with
  | Ok p => Ok (plain, patterns ++ [p])
  | Raise re_error => Ok acc
  | Raise e => Raise e
  end.

(** One iteration of the loop over [keywords.split(",")]: [acc] is the pair
    of the lists [plain] and [patterns]. *)
Definition parse_token (acc : list str * list Pattern) (raw : str)
  : Res (list str * list Pattern) :=
  let '(plain, patterns) := acc in
  let kw := strip raw in
  match kw with
  | [] => Ok acc
  | _ =>
      if startswith kw (py "re:") then
        let pat := strip (skipn 3 kw) in
        try_append acc pat true
      else if (2 <=? List.length kw)%nat && startswith kw (py "/")
              && (2 <=? count_char "/"%char kw)%nat then
        match rfind_char "/"%char kw with
        | Some last =>
            let pat := slice_1 last kw in
            let flags_str := lower (skipn (last + 1) kw) in
            let flags := contains flags_str (py "i") in
            try_append acc pat flags
        | None => Ok acc (* not reached: the token contains a slash *)
        end
      else Ok (plain ++ [lower kw], patterns)
  end.

Definition parse_keywords (keywords : option str)
  : Res (list str * list Pattern) :=
  match keywords with
  | None => Ok ([], [])
  | Some [] => Ok ([], [])
  | Some s => for_each parse_token (split_char ","%char s) ([], [])
  end.

End Engine.

(** ** Phrase matching (rules.py, phrase_in_text) *)

Definition isword_opt (c : option ascii) : bool :=
  match c with Some x => isword x | None => false end.

(** The assertion [\b] between the character before a position and the one
    after it (either may be missing at the ends of the text). *)
Definition at_boundary (before after : option ascii) : bool :=
  xorb (isword_opt before) (isword_opt after).

(** The pattern [\b<literal>\b] matches at the start of [text], where
    [prev] is the character before it. *)
Definition match_here (prev : option ascii) (text lit : str) : bool :=
  at_boundary prev (head text)
  && startswith text lit
  && at_boundary (match lit with [] => prev | _ => last lit end)
                 (head (skipn (List.length lit) text)).

(** [re.search(rf"\b{re.escape(lit)}\b", text) is not None]: the positions
    of [text] are tried from left to right. *)
Fixpoint search_word (prev : option ascii) (text lit : str) : bool :=
  match_here prev text lit ||
  match text with
  | [] => false
  | c :: r => search_word (Some c) r lit
  end.

Definition phrase_in_text (text phrase : str) : bool :=
  match phrase with
  | [] => false
  | _ =>
      let toks := split_ws phrase in
      if (List.length toks =? 1)%nat then search_word None text phrase
      else contains text phrase
  end.

(** ** Rows of the storage layer (db.py, init_db) *)

(** A row of table [qna] as [fetch_qna] selects it: [keywords] and
    [priority] are nullable columns. *)
Record QnaRow := {
  row_id : Z;
  row_question : str;
  row_answer : str;
  row_keywords : option str;
  row_priority : option Z
}.

(** The columns of a row of table [bots] that the engine reads;
    [fallback_message] is a nullable column. *)
Record BotRow := {
  bot_id : Z;
  bot_slug : str;
  bot_fallback_message : option str
}.

(** ** Scorer (rules.py, score_qna) *)

(** The [details] dict of [score_qna]; its five keys are always bound. *)
Record ScoreDetail := {
  matched_keywords : list str;
  matched_regex : list str;
  exact : bool;
  ratio : float;
  priority : Z
}.

Definition set_exact (b : bool) (d : ScoreDetail) : ScoreDetail :=
  {| matched_keywords := matched_keywords d; matched_regex := matched_regex d;
     exact := b; ratio := ratio d; priority := priority d |}.

Definition append_keyword (kw : str) (d : ScoreDetail) : ScoreDetail :=
  {| matched_keywords := matched_keywords d ++ [kw];
     matched_regex := matched_regex d;
     exact := exact d; ratio := ratio d; priority := priority d |}.

Definition append_regex (p : str) (d : ScoreDetail) : ScoreDetail :=
  {| matched_keywords := matched_keywords d;
     matched_regex := matched_regex d ++ [p];
     exact := exact d; ratio := ratio d; priority := priority d |}.

Definition set_ratio (r : float) (d : ScoreDetail) : ScoreDetail :=
  {| matched_keywords := matched_keywords d; matched_regex := matched_regex d;
     exact := exact d; ratio := r; priority := priority d |}.

Section Scorer.

Context {lib : PyLib}.

(** The body of [for kw in plain]. *)
Definition score_keyword (user_norm : str) (st : Z * ScoreDetail) (kw : str)
  : Z * ScoreDetail :=
  let '(score, details) := st in
  if phrase_in_text user_norm kw
  then (score + KW_WORD_POINTS, append_keyword kw details)
  else st.

(** The body of [for pat in patterns]. *)
Definition score_pattern (user_norm : str) (st : Z * ScoreDetail) (pat : Pattern)
  : Z * ScoreDetail :=
  let '(score, details) := st in
  if search pat user_norm
  then (score + KW_REGEX_POINTS, append_regex (pattern pat) details)
  else st.

Definition score_qna (user_norm : str) (qna_row : QnaRow)
  : Res (Z * ScoreDetail) :=
  let score := 0 in
  let details :=
    {| matched_keywords := []; matched_regex := []; exact := false;
       ratio := 0%float;
       priority := match row_priority qna_row with
                   | Some p => p
                   | None => 0
                   end |} in
  let q_norm := normalize_text (row_question qna_row) in
  let '(score, details) :=
    if eqb_str user_norm q_norm
    then (score + EXACT_MATCH_BONUS, set_exact true details)
    else (score, details) in
  bind (parse_keywords (row_keywords qna_row)) (fun '(plain, patterns) =>
  let '(score, details) :=
    fold_left (score_keyword user_norm) plain (score, details) in
  let '(score, details) :=
    fold_left (score_pattern user_norm) patterns (score, details) in
  let ratio := SequenceMatcher_ratio user_norm q_norm in
  let details := set_ratio ratio details in
  let score := score + py_round (float_of_Z SIMILARITY_WEIGHT * ratio)%float in
  let score := score + priority details * PRIORITY_WEIGHT in
  Ok (score, details)).

End Scorer.

(** ** Storage collaborator (db.py) *)

(** The two tables the engine reads; a row of [qna] is stored with the id of
    its bot.  [qna_seq] is the entry of table [qna] in [sqlite_sequence]: the
    largest id that [AUTOINCREMENT] has given to a row of the table. *)
Record Db := {
  bots : list BotRow;
  qna : list (Z * QnaRow);
  qna_seq : Z
}.

(** [ORDER BY priority DESC, id ASC]: [a] is not after [b].  SQLite orders
    NULL before every value, so a NULL priority comes last in descending
    order. *)
Definition qna_order (a b : QnaRow) : bool :=
  match row_priority a, row_priority b with
  | Some p, Some q =>
      if q <? p then true
      else if p <? q then false
      else row_id a <=? row_id b
  | Some _, None => true
  | None, Some _ => false
  | None, None => row_id a <=? row_id b
  end.

Fixpoint insert_row (r : QnaRow) (l : list QnaRow) : list QnaRow :=
  match l with
  | [] => [r]
  | x :: l' => if qna_order r x then r :: l else x :: insert_row r l'
  end.

Definition order_rows (l : list QnaRow) : list QnaRow :=
  fold_right insert_row [] l.

(** [fetch_qna(bot_id)] *)
Definition fetch_qna (db : Db) (bid : Z) : list QnaRow :=
  order_rows (map snd (List.filter (fun r => fst r =? bid) (qna db))).

(** [fetch_bot_by_slug(slug)]; column [slug] is unique. *)
Definition fetch_bot_by_slug (db : Db) (slug : str) : option BotRow :=
  List.find (fun b => eqb_str (bot_slug b) slug) (bots db).

(** The id that [AUTOINCREMENT] gives to the next row of [qna]: one more
    than the largest id the table holds or has ever been given, so that the
    id of a deleted row is not used again. *)
Definition max_qna_id (db : Db) : Z :=
  fold_right (fun r m => Z.max (row_id (snd r)) m) 0 (qna db).

Definition next_qna_id (db : Db) : Z :=
  Z.max (qna_seq db) (max_qna_id db) + 1.

(** [add_qna(bot_id, question, answer, keywords, priority)] *)
Definition add_qna (db : Db) (bid : Z) (question answer : str)
    (keywords : option str) (priority : option Z) : Db :=
  {| bots := bots db;
     qna := qna db ++ [(bid, {| row_id := next_qna_id db;
                                row_question := question;
                                row_answer := answer;
                                row_keywords := keywords;
                                row_priority := priority |})];
     qna_seq := next_qna_id db |}.

(** [add_qna(bot_id, question, answer)]: the defaults of the signature,
    [keywords=None, priority=1]. *)
Definition add_qna_default (db : Db) (bid : Z) (question answer : str) : Db :=
  add_qna db bid question answer None (Some 1).

(** ** Match selector (rules.py, match_rule) *)

(** The values bound in the result dict. *)
Inductive Value :=
| VNone
| VBool (b : bool)
| VInt (z : Z)
| VStr (s : str)
| VDetail (d : ScoreDetail).

(** A call returns a dict or raises. *)
Inductive Outcome :=
| Returned (r : gmap string Value)
| Raised (e : exn).

(** One line printed by the loop in debug mode: the row id, its score, its
    details and the first 70 characters of its question. *)
Record DebugLine := {
  dbg_id : Z;
  dbg_score : Z;
  dbg_details : ScoreDetail;
  dbg_question : str
}.

(** The three variables of the selection loop.  [best_row] refers to a row
    object of the list [qnas]; the reference is the position of the row in
    the list, kept with the row. *)
Record Selection := {
  best_row : option (nat * QnaRow);
  best_score : Z;
  best_details : option ScoreDetail
}.

Definition selection_init : Selection :=
  {| best_row := None; best_score := - 10 ^ 9; best_details := None |}.

(** [enumerate(qnas)], counting from [i]. *)
Fixpoint enumerate_from {A} (i : nat) (l : list A) : list (nat * A) :=
  match l with
  | [] => []
  | x :: l' => (i, x) :: enumerate_from (S i) l'
  end.

(** A value read from a nullable text column. *)
Definition text_value (t : option str) : Value :=
  match t with
  | Some s => VStr s
  | None => VNone
  end.

(** The dict [{"matched": False, "answer": ..., "question": None,
    "qna_id": None, "confidence": ...}]. *)
Definition no_match_dict (answer : Value) (confidence : Z)
  : list (string * Value) :=
  [("matched"%string, VBool false);
   ("answer"%string, answer);
   ("question"%string, VNone);
   ("qna_id"%string, VNone);
   ("confidence"%string, VInt confidence)].

Section Selector.

Context {lib : PyLib}.

Variable DEBUG : bool.

(** The loop [for row in qnas] over the rows that are left; [sel] holds the
    three variables and [out] is what has been printed.  An exception raised
    by [score_qna] ends the loop: the line of that row is not printed. *)
Fixpoint select_loop (user_norm : str) (rows : list (nat * QnaRow))
    (sel : Selection) (out : list DebugLine)
  : list DebugLine * Res Selection :=
  match rows with
  | [] => (out, Ok sel)
  | (i, row) :: rest =>
      match score_qna user_norm row with
      | Raise e => (out, Raise e)
      | Ok (s, details) =>
          let out :=
            if DEBUG
            then out ++ [{| dbg_id := row_id row; dbg_score := s;
                            dbg_details := details;
                            dbg_question := firstn 70 (row_question row) |}]
            else out in
          select_loop user_norm rest
            (if s >? best_score sel
             then {| best_row := Some (i, row); best_score := s;
                     best_details := Some details |}
             else sel)
            out
      end
  end.

Definition select_best (user_norm : str) (qnas : list QnaRow)
  : list DebugLine * Res Selection :=
  select_loop user_norm (enumerate_from 0 qnas) selection_init [].

(** The decision [matched] of [match_rule] on the details of the best row. *)
Definition decide_matched (d : ScoreDetail) : bool :=
  let kw_hits :=
    (List.length (matched_keywords d) + List.length (matched_regex d))%nat in
  exact d
  || (0 <? kw_hits)%nat
  || (SIMILARITY_MIN_FOR_MATCH <=? ratio d)%float.

(** [match_rule(bot_slug, user_message)]: what is printed, and the dict
    returned or the exception raised. *)
Definition match_rule (db : Db) (slug user_message : str)
  : list DebugLine * Outcome :=
  match fetch_bot_by_slug db slug with
  | None =>
      ([], Returned (list_to_map (no_match_dict (VStr (py "Bot not found.")) 0)))
  | Some bot =>
      let user_norm := normalize_text user_message in
      let qnas := fetch_qna db (bot_id bot) in
      match qnas with
      | [] =>
          ([], Returned
                 (list_to_map
                    (no_match_dict (text_value (bot_fallback_message bot)) 0)))
      | _ =>
          match select_best user_norm qnas with
          | (out, Raise e) => (out, Raised e)
          | (out, Ok sel) =>
              match best_details sel with
              | None => (out, Raised TypeError)
              | Some d =>
                  if negb (decide_matched d) then
                    (out, Returned
                            (list_to_map
                               (no_match_dict
                                  (text_value (bot_fallback_message bot))
                                  (Z.max 0 (best_score sel))
                                ++ [("debug"%string,
                                     if DEBUG then VDetail d else VNone)])))
                  else
                    match best_row sel with
                    | None => (out, Raised TypeError)
                    | Some (_, row) =>
                        let result : gmap string Value :=
                          list_to_map
                            [("matched"%string, VBool true);
                             ("answer"%string, VStr (row_answer row));
                             ("question"%string, VStr (row_question row));
                             ("qna_id"%string, VInt (row_id row));
                             ("confidence"%string,
                              VInt (Z.max 0 (best_score sel)))] in
                        (out, Returned
                                (if DEBUG
                                 then <["debug"%string := VDetail d]> result
                                 else result))
                    end
              end
          end
      end
  end.

End Selector.

(** ** A reference implementation of the library interface

    Used to run the engine on concrete inputs.
    - Patterns: a fragment of the pattern language of [re], namely literals,
      [.], [^], [$], alternation, groups, the quantifiers [*], [+], [?] and
      [{m,n}] with their lazy forms, the escapes [\d], [\w], [\s], [\b] and
      an escaped punctuation character.  A pattern of the fragment compiles
      and is searched as in Python; unbalanced parentheses, a quantifier with
      nothing to repeat, a repeated quantifier, a repetition whose minimum
      exceeds its maximum and a backslash at the end raise [re.error], and a
      repetition count of [MAXREPEAT] or more raises [OverflowError], as in
      Python.  A pattern that uses other syntax (character sets, group
      extensions, possessive quantifiers, the other escapes) is outside the
      fragment and is answered with [re.error].
    - Matching blocks: the longest block first (the earliest in [a], then in
      [b], among the longest), then the blocks on its left and on its right,
      as [SequenceMatcher.get_matching_blocks] finds them when no character
      is junk (strings shorter than 200 characters). *)
Module RefLib.

Inductive rx :=
| REmpty
| RChar (c : ascii)
| RAny
| RClass (cls : ascii -> bool)
| RBol
| REol
| RWordB
| RSeq (a b : rx)
| RAlt (a b : rx)
| RStar (a : rx).

Definition is_quantifier (c : ascii) : bool :=
  eqb_char c "*"%char || eqb_char c "+"%char || eqb_char c "?"%char.

Definition is_anchor (r : rx) : bool :=
  match r with
  | RBol | REol | RWordB => true
  | _ => false
  end.

Definition isalnum_ascii (c : ascii) : bool :=
  isdigit09 c || in_range 65 90 c || islower_az c.

(** [sre_constants.MAXREPEAT] *)
Definition MAXREPEAT : N := 4294967295.

(** The decimal digits at the start of [s], and what follows them. *)
Fixpoint take_digits (s : str) : str * str :=
  match s with
  | c :: r =>
      if isdigit09 c
      then let '(d, rest) := take_digits r in (c :: d, rest)
      else ([], s)
  | [] => ([], [])
  end.

Definition digits_value (d : str) : N :=
  fold_left (fun n c => (10 * n + (code c - 48))%N) d 0%N.

Definition bound (d : str) : option N :=
  match d with
  | [] => None
  | _ => Some (digits_value d)
  end.

(** What follows an opening brace: the bounds of a repetition [{m}], [{m,}],
    [{,n}] or [{m,n}] and the rest of the pattern, or [None] when the brace
    is a literal character. *)
Definition parse_brace (s : str) : option (option N * option N * str) :=
  if startswith s (py "}") then None
  else
    let '(lo, s1) := take_digits s in
    let '(hi, s2) :=
      match s1 with
      | c :: r => if eqb_char c ","%char then take_digits r else (lo, s1)
      | [] => (lo, s1)
      end in
    match s2 with
    | c :: rest =>
        if eqb_char c "}"%char then Some (bound lo, bound hi, rest) else None
    | [] => None
    end.

Definition too_large (b : option N) : bool :=
  match b with
  | Some n => (MAXREPEAT <=? n)%N
  | None => false
  end.

(** The checks of the bounds of a repetition, in Python's order. *)
Definition check_bounds (lo hi : option N) : Res unit :=
  if too_large lo || too_large hi then Raise OverflowError
  else
    match hi with
    | Some n =>
        if (n <? match lo with Some m => m | None => 0 end)%N
        then Raise re_error
        else Ok tt
    | None => Ok tt
    end.

Fixpoint rx_pow (n : nat) (a tail : rx) : rx :=
  match n with
  | O => tail
  | S n' => RSeq a (rx_pow n' a tail)
  end.

Definition repeat_rx (a : rx) (lo hi : option N) : rx :=
  let m := N.to_nat (match lo with Some m => m | None => 0%N end) in
  match hi with
  | None => rx_pow m a (RStar a)
  | Some n => rx_pow m a (rx_pow (N.to_nat n - m) (RAlt a REmpty) REmpty)
  end.

(** The mark [?] of a lazy quantifier, which does not change what a search
    finds. *)
Definition skip_lazy (s : str) : str :=
  match s with
  | c :: r => if eqb_char c "?"%char then r else s
  | [] => s
  end.

(** An optional quantifier after the atom [a]. *)
Definition parse_quant (a : rx) (s : str) : Res (rx * str) :=
  match s with
  | q :: rest =>
      if is_quantifier q then
        if is_anchor a then Raise re_error
        else Ok (if eqb_char q "*"%char then RStar a
                 else if eqb_char q "+"%char then RSeq a (RStar a)
                 else RAlt a REmpty, skip_lazy rest)
      else if eqb_char q "{"%char then
        match parse_brace rest with
        | None => Ok (a, s)
        | Some (lo, hi, rest') =>
            bind (check_bounds lo hi) (fun _ =>
            if is_anchor a then Raise re_error
            else Ok (repeat_rx a lo hi, skip_lazy rest'))
        end
      else Ok (a, s)
  | [] => Ok (a, s)
  end.

Definition parse_escape (c : ascii) : option rx :=
  if eqb_char c "d"%char then Some (RClass isdigit09)
  else if eqb_char c "w"%char then Some (RClass isword)
  else if eqb_char c "s"%char then Some (RClass isspace)
  else if eqb_char c "b"%char then Some RWordB
  else if isalnum_ascii c then None
  else Some (RChar c).

Fixpoint parse_alt (fuel : nat) (s : str) : Res (rx * str) :=
  match fuel with
  | O => Raise re_error
  | S f =>
      match parse_seq f s with
      | Ok (r, c :: rest) =>
          if eqb_char c "|"%char then
            match parse_alt f rest with
            | Ok (r2, rest') => Ok (RAlt r r2, rest')
            | Raise e => Raise e
            end
          else Ok (r, c :: rest)
      | other => other
      end
  end
with parse_seq (fuel : nat) (s : str) : Res (rx * str) :=
  match fuel with
  | O => Raise re_error
  | S f =>
      match s with
      | [] => Ok (REmpty, [])
      | c :: _ =>
          if eqb_char c "|"%char || eqb_char c ")"%char then Ok (REmpty, s)
          else
            match parse_atom f s with
            | Ok (a, rest) =>
                match parse_quant a rest with
                | Ok (a', rest') =>
                    match parse_seq f rest' with
                    | Ok (r, rest'') => Ok (RSeq a' r, rest'')
                    | Raise e => Raise e
                    end
                | Raise e => Raise e
                end
            | Raise e => Raise e
            end
      end
  end
with parse_atom (fuel : nat) (s : str) : Res (rx * str) :=
  match fuel with
  | O => Raise re_error
  | S f =>
      match s with
      | [] => Raise re_error
      | c :: rest =>
          if eqb_char c "("%char then
            match parse_alt f rest with
            | Ok (r, c2 :: rest') =>
                if eqb_char c2 ")"%char then Ok (r, rest') else Raise re_error
            | Ok (_, []) => Raise re_error
            | Raise e => Raise e
            end
          else if eqb_char c "."%char then Ok (RAny, rest)
          else if eqb_char c "^"%char then Ok (RBol, rest)
          else if eqb_char c "$"%char then Ok (REol, rest)
          else if eqb_char c "\"%char then
            match rest with
            | e :: rest' =>
                match parse_escape e with
                | Some r => Ok (r, rest')
                | None => Raise re_error
                end
            | [] => Raise re_error
            end
          else if is_quantifier c || eqb_char c "["%char then Raise re_error
          else if eqb_char c "{"%char then
            (* a repetition with nothing to repeat, or a literal brace *)
            match parse_brace rest with
            | None => Ok (RChar c, rest)
            | Some (lo, hi, _) =>
                bind (check_bounds lo hi) (fun _ => Raise re_error)
            end
          else Ok (RChar c, rest)
      end
  end.

Definition compile (pat : str) : Res rx :=
  match parse_alt (3 * List.length pat + 3) pat with
  | Ok (r, []) => Ok r
  | Ok (_, _ :: _) => Raise re_error
  | Raise e => Raise e
  end.

Definition char_matches (ic : bool) (c x : ascii) : bool :=
  if ic then eqb_char (lower_char c) (lower_char x) else eqb_char c x.

Definition newline : ascii := ascii_of_N 10.

(** [r] matches a prefix of [s] and [k] accepts what follows; [prev] is the
    character before [s]. *)
Fixpoint rx_match (ic : bool) (r : rx) (prev : option ascii) (s : str)
    (k : option ascii -> str -> bool) {struct r} : bool :=
  match r with
  | REmpty => k prev s
  | RChar c =>
      match s with
      | x :: s' => char_matches ic c x && k (Some x) s'
      | [] => false
      end
  | RAny =>
      match s with
      | x :: s' => negb (eqb_char x newline) && k (Some x) s'
      | [] => false
      end
  | RClass cls =>
      match s with
      | x :: s' => cls x && k (Some x) s'
      | [] => false
      end
  | RBol => match prev with None => k prev s | Some _ => false end
  | REol =>
      match s with
      | [] => k prev s
      | [x] => eqb_char x newline && k prev s
      | _ => false
      end
  | RWordB => at_boundary prev (head s) && k prev s
  | RSeq a b =>
      rx_match ic a prev s (fun p' s' => rx_match ic b p' s' k)
  | RAlt a b => rx_match ic a prev s k || rx_match ic b prev s k
  | RStar a =>
      (fix star (n : nat) (prev : option ascii) (s : str) : bool :=
         match n with
         | O => k prev s
         | S n' =>
             rx_match ic a prev s
               (fun p' s' =>
                  (List.length s' <? List.length s)%nat && star n' p' s')
             || k prev s
         end) (List.length s) prev s
  end.

Fixpoint search_from (ic : bool) (r : rx) (prev : option ascii) (s : str) : bool :=
  rx_match ic r prev s (fun _ _ => true) ||
  match s with
  | [] => false
  | c :: s' => search_from ic r (Some c) s'
  end.

Definition ref_compile_exn (pat : str) (ic : bool) : option exn :=
  match compile pat with
  | Ok _ => None
  | Raise e => Some e
  end.

Definition ref_search (pat : str) (ic : bool) (text : str) : bool :=
  match compile pat with
  | Ok r => search_from ic r None text
  | Raise _ => false
  end.

Fixpoint common_prefix (a b : str) : nat :=
  match a, b with
  | x :: a', y :: b' => if eqb_char x y then S (common_prefix a' b') else O
  | _, _ => O
  end.

(** The block kept so far is [(i, j, k)]: [k] characters from position [i]
    of [a] and position [j] of [b]. *)
Fixpoint scan_b (asuf : str) (i j : nat) (bsuf : str) (best : nat * nat * nat)
  : nat * nat * nat :=
  match bsuf with
  | [] => best
  | _ :: r =>
      let k := common_prefix asuf bsuf in
      scan_b asuf i (S j) r
             (if (snd best <? k)%nat then (i, j, k) else best)
  end.

Fixpoint scan_a (asuf : str) (i : nat) (b : str) (best : nat * nat * nat)
  : nat * nat * nat :=
  match asuf with
  | [] => best
  | _ :: r => scan_a r (S i) b (scan_b asuf i O b best)
  end.

Definition find_longest_match (a b : str) : nat * nat * nat :=
  scan_a a O b (O, O, O).

Fixpoint count_matches (fuel : nat) (a b : str) : nat :=
  match fuel with
  | O => O
  | S f =>
      let '(i, j, k) := find_longest_match a b in
      match k with
      | O => O
      | _ =>
          (count_matches f (firstn i a) (firstn j b) + k
           + count_matches f (skipn (i + k) a) (skipn (j + k) b))%nat
      end
  end.

Definition ref_matches (a b : str) : nat :=
  count_matches (S (List.length a)) a b.

#[export] Instance ref_lib : PyLib :=
  {| re_compile_exn := ref_compile_exn;
     re_search := ref_search;
     sm_matches := ref_matches |}.

End RefLib.

(** ** Specification-side predicates *)

(** A character of the output alphabet of the normalizer: a lowercase ASCII
    letter, a digit or the space. *)
Definition is_norm_char (c : ascii) : bool :=
  islower_az c || isdigit09 c || eqb_char c " "%char.

(** No two consecutive spaces. *)
Fixpoint no_double_space (s : str) : bool :=
  match s with
  | a :: (b :: _) as r =>
      negb (eqb_char a " "%char && eqb_char b " "%char) && no_double_space r
  | _ => true
  end.

(** Neither the first nor the last character is whitespace. *)
Definition is_trimmed (s : str) : bool :=
  match head s, last s with
  | Some a, Some b => negb (isspace a) && negb (isspace b)
  | _, _ => true
  end.

(** [p] occurs in [t] as a contiguous substring. *)
Definition is_substring (t p : str) : Prop :=
  exists pre post : str, t = pre ++ p ++ post.

(** [p] occurs in [t] as a whole word: some occurrence of [p] in [t] has a
    word boundary on its left and on its right. *)
Definition whole_word_occurrence (t p : str) : Prop :=
  exists pre post : str,
    t = pre ++ p ++ post
    /\ at_boundary (last pre) (head (p ++ post)) = true
    /\ at_boundary (last (pre ++ p)) (head post) = true.

(** [",".join(l)] *)
Fixpoint join_comma (l : list str) : str :=
  match l with
  | [] => []
  | [x] => x
  | x :: r => x ++ ","%char :: join_comma r
  end.

(** A token of a keyword spec holds no comma. *)
Definition no_comma (tok : str) : Prop := ~ In ","%char tok.

(** The token starts with [re:]. *)
Definition re_prefixed (kw : str) : bool := startswith kw (py "re:").

(** The token is wrapped in slashes: it starts with a slash and holds a
    second one. *)
Definition slash_wrapped (kw : str) : bool :=
  (2 <=? List.length kw)%nat && startswith kw (py "/")
  && (2 <=? count_char "/"%char kw)%nat.

(** The pattern and the flag that a regex token stands for. *)
Definition token_pattern (kw : str) : option (str * bool) :=
  if re_prefixed kw then Some (strip (skipn 3 kw), true)
  else if slash_wrapped kw then
    match rfind_char "/"%char kw with
    | Some last =>
        Some (slice_1 last kw, contains (lower (skipn (last + 1) kw)) (py "i"))
    | None => None
    end
  else None.

(** The exception that [re.compile] raises on the pattern of a regex token,
    [None] for a token that is no regex token or whose pattern compiles. *)
Definition token_exn {lib : PyLib} (tok : str) : option exn :=
  match token_pattern (strip tok) with
  | Some (pat, ic) => re_compile_exn pat ic
  | None => None
  end.

(** A malformed regex token: a [re:]-prefixed or slash-wrapped token whose
    pattern fails to compile. *)
Definition malformed_regex_token {lib : PyLib} (tok : str) : bool :=
  match token_exn tok with
  | Some _ => true
  | None => false
  end.

(** The row [c] with another keyword spec. *)
Definition with_keywords (c : QnaRow) (k : option str) : QnaRow :=
  {| row_id := row_id c; row_question := row_question c;
     row_answer := row_answer c; row_keywords := k;
     row_priority := row_priority c |}.

(** [score_qna] returns on the row: no exception leaves the call. *)
Definition scored {lib : PyLib} (u : str) (r : QnaRow) : Prop :=
  exists s d, score_qna u r = Ok (s, d).

(** The score of a row for a normalized message, for a row on which
    [score_qna] returns. *)
Definition score_of {lib : PyLib} (u : str) (r : QnaRow) : Z :=
  match score_qna u r with
  | Ok (s, _) => s
  | Raise _ => 0
  end.

(** The exception of the first row, in the order of the list, on whose
    keyword spec the parser raises. *)
Fixpoint first_raise {lib : PyLib} (rows : list QnaRow) : option exn :=
  match rows with
  | [] => None
  | r :: rest =>
      match parse_keywords (row_keywords r) with
      | Ok _ => first_raise rest
      | Raise e => Some e
      end
  end.

(** The state of the selection loop after the rows [done]: every row has
    been scored and the running best bounds every score seen; either no row
    has beaten the initial value, or the best row is the first of [done] that
    attains the running best. *)
Definition selection_inv {lib : PyLib} (u : str) (done : list QnaRow)
    (sel : Selection) : Prop :=
  (forall j r, done !! j = Some r ->
               scored u r /\ score_of u r <= best_score sel)
  /\ - 10 ^ 9 <= best_score sel
  /\ match best_row sel with
     | None => best_score sel = - 10 ^ 9 /\ best_details sel = None
     | Some (k, row) =>
         done !! k = Some row
         /\ best_score sel = score_of u row
         /\ (exists d, score_qna u row = Ok (best_score sel, d)
                       /\ best_details sel = Some d)
         /\ - 10 ^ 9 < best_score sel
         /\ (forall j r, (j < k)%nat -> done !! j = Some r ->
                         score_of u r < best_score sel)
     end.

(** The value is a score detail. *)
Definition is_detail (v : Value) : bool :=
  match v with VDetail _ => true | _ => false end.

(** The dict that [match_rule] returns for a match with the row [row]. *)
Definition matched_dict (DEBUG : bool) (row : QnaRow) (conf : Z)
    (d : ScoreDetail) : gmap string Value :=
  let result : gmap string Value :=
    list_to_map
      [("matched"%string, VBool true);
       ("answer"%string, VStr (row_answer row));
       ("question"%string, VStr (row_question row));
       ("qna_id"%string, VInt (row_id row));
       ("confidence"%string, VInt conf)] in
  if DEBUG then <["debug"%string := VDetail d]> result else result.

(** The dict that [match_rule] returns when the selected row is no match. *)
Definition unmatched_dict (DEBUG : bool) (bot : BotRow) (conf : Z)
    (d : ScoreDetail) : gmap string Value :=
  list_to_map
    (no_match_dict (text_value (bot_fallback_message bot)) conf
     ++ [("debug"%string, if DEBUG then VDetail d else VNone)]).

(** A bot with one candidate, as the sample data has them. *)
Definition cafe_bot : BotRow :=
  {| bot_id := 1; bot_slug := py "cozy-cafe";
     bot_fallback_message := Some (py "Sorry, I didn't understand that.") |}.

Definition hours_row (p : option Z) : QnaRow :=
  {| row_id := 1; row_question := py "What are your hours?";
     row_answer := py "We are open 7am to 7pm.";
     row_keywords := Some (py "hours,open,closed,time,schedule");
     row_priority := p |}.

Definition wifi_row (i : Z) (p : option Z) : QnaRow :=
  {| row_id := i; row_question := py "Do you have WiFi?";
     row_answer := py "Yes, free WiFi.";
     row_keywords := Some (py "wifi,internet,password,work,laptop");
     row_priority := p |}.

Definition cafe_db (rows : list QnaRow) : Db :=
  {| bots := [cafe_bot]; qna := map (fun r => (1, r)) rows;
     qna_seq := fold_right (fun r m => Z.max (row_id r) m) 0 rows |}.

(** The character before the end of [l], where [prev] is the character
    before [l]. *)
Definition before (prev : option ascii) (l : str) : option ascii :=
  match l with [] => prev | _ => last l end.

(** The dict of an outcome, empty when the call raised. *)
Definition result_of (o : Outcome) : gmap string Value :=
  match o with
  | Returned r => r
  | Raised _ => ∅
  end.

(** [a] comes before [b], or at its place, in the order of [fetch_qna]. *)
Definition ordered (a b : QnaRow) : Prop := qna_order a b = true.

(** [sep.join(l)] for a one-character separator. *)
Fixpoint join_char (c : ascii) (l : list str) : str :=
  match l with
  | [] => []
  | [x] => x
  | x :: r => x ++ c :: join_char c r
  end.

(** The row [c] with another priority. *)
Definition with_priority (c : QnaRow) (p : option Z) : QnaRow :=
  {| row_id := row_id c; row_question := row_question c;
     row_answer := row_answer c; row_keywords := row_keywords c;
     row_priority := p |}.

(** A well-formed plain phrase: not empty, trimmed, lowercase and without a
    comma. *)
Definition phrase_wf (p : str) : Prop :=
  p <> [] /\ is_trimmed p = true /\ lower p = p /\ no_comma p.

(** The line that the selection loop prints in debug mode for a row with
    score [s] and details [d]. *)
Definition debug_line (row : QnaRow) (s : Z) (d : ScoreDetail) : DebugLine :=
  {| dbg_id := row_id row;
     dbg_score := s;
     dbg_details := d;
     dbg_question := firstn 70 (row_question row) |}.

(** The lines of the rows that come before the first row on which
    [score_qna] raises: one line for each row when none raises. *)
Fixpoint debug_lines {lib : PyLib} (u : str) (rows : list QnaRow)
  : list DebugLine :=
  match rows with
  | [] => []
  | r :: rest =>
      match score_qna u r with
      | Ok (s, d) => debug_line r s d :: debug_lines u rest
      | Raise _ => []
      end
  end.

(** What a call of [chat_once] gives: the value bound to [answer], the
    exception of [match_rule], or a [KeyError] for a missing key. *)
Inductive ChatOutcome :=
| Said (v : Value)
| Failed (e : exn)
| MissingKey.

(** [chat_once(bot_slug, user_message)] *)
Definition chat_once {lib : PyLib} (DEBUG : bool) (db : Db)
    (slug user_message : str) : ChatOutcome :=
  match snd (match_rule DEBUG db slug user_message) with
  | Returned r =>
      match r !! "answer"%string with
      | Some v => Said v
      | None => MissingKey
      end
  | Raised e => Failed e
  end.

(** ** More of the storage collaborator (db.py) *)

(** The default of parameter [fallback_message] of [add_bot]. *)
Definition DEFAULT_FALLBACK : str :=
  py "Sorry, I didn't understand that. Can you rephrase your question?".

(** The id that [AUTOINCREMENT] gives to the next row of table [bots]. *)
Definition next_bot_id (db : Db) : Z :=
  fold_right (fun b m => Z.max (bot_id b) m) 0 (bots db) + 1.

(** [add_bot(slug, name, ..., fallback_message)], on the columns that the
    engine reads: the new database and the id returned, [None] when the slug
    is taken (column [slug] is [UNIQUE], the insertion fails and nothing is
    stored). *)
Definition add_bot (db : Db) (slug : str) (fallback_message : option str)
  : Db * option Z :=
  if existsb (fun b => eqb_str (bot_slug b) slug) (bots db) then (db, None)
  else
    let fallback_message :=
      match fallback_message with
      | Some m => m
      | None => DEFAULT_FALLBACK
      end in
    ({| bots := bots db ++ [{| bot_id := next_bot_id db; bot_slug := slug;
                               bot_fallback_message := Some fallback_message |}];
        qna := qna db; qna_seq := qna_seq db |},
     Some (next_bot_id db)).

(** [fetch_bot_by_id(bot_id)] *)
Definition fetch_bot_by_id (db : Db) (i : Z) : option BotRow :=
  List.find (fun b => bot_id b =? i) (bots db).

(** [delete_qna(qna_id)]: the new database, and whether a row was deleted
    ([cur.rowcount > 0]).  The entry of the table in [sqlite_sequence] stays
    as it is. *)
Definition delete_qna (db : Db) (qid : Z) : Db * bool :=
  ({| bots := bots db;
      qna := List.filter (fun r => negb (row_id (snd r) =? qid)) (qna db);
      qna_seq := qna_seq db |},
   existsb (fun r => row_id (snd r) =? qid) (qna db)).

(** The entry of table [qna] in [sqlite_sequence] is up to date: no stored
    row has a greater id.  SQLite keeps it so on every insertion. *)
Definition seq_ok (db : Db) : Prop := max_qna_id db <= qna_seq db.

(** The slugs of the stored bots are pairwise different, as the [UNIQUE]
    constraint of column [slug] has it. *)
Definition slugs_unique (db : Db) : Prop := NoDup (map bot_slug (bots db)).

(** The priority of a row as [ORDER BY priority DESC] ranks it: a NULL ranks
    below every value. *)
Definition priority_rank (r : QnaRow) : option Z := row_priority r.

Definition rank_ge (a b : option Z) : Prop :=
  match a, b with
  | Some p, Some q => q <= p
  | Some _, None => True
  | None, Some _ => False
  | None, None => True
  end.

(** A row of table [users] as [fetch_user_by_email] selects it. *)
Record UserRow := {
  user_id : Z;
  user_email : str;
  user_created_at : str
}.

(** [fetch_user_by_email(email)]; column [email] is unique. *)
Definition fetch_user_by_email (users : list UserRow) (email : str)
  : option UserRow :=
  List.find (fun u => eqb_str (user_email u) email) users.

Definition next_user_id (users : list UserRow) : Z :=
  fold_right (fun u m => Z.max (user_id u) m) 0 users + 1.

(** [create_user(email)] at time [now]: the new table and the id returned,
    [None] when the email is taken (column [email] is [UNIQUE]). *)
Definition create_user (users : list UserRow) (email now : str)
  : list UserRow * option Z :=
  if existsb (fun u => eqb_str (user_email u) email) users then (users, None)
  else (users ++ [{| user_id := next_user_id users; user_email := email;
                     user_created_at := now |}],
        Some (next_user_id users)).

(** A row of table [bot_stats]; the pair ([bot_id], [date]) is unique. *)
Record StatRow := {
  stat_bot_id : Z;
  stat_date : str;
  daily_sessions : Z;
  message_count : Z
}.

Definition stat_key (bid : Z) (date : str) (r : StatRow) : bool :=
  (stat_bot_id r =? bid) && eqb_str (stat_date r) date.

(** [INSERT ... ON CONFLICT(bot_id, date) DO UPDATE SET ...]: the row of the
    pair is updated in place, or a new row is added. *)
Fixpoint upsert_stats (rows : list StatRow) (bid : Z) (today : str)
    (sessions messages : Z) : list StatRow :=
  match rows with
  | [] => [{| stat_bot_id := bid; stat_date := today;
              daily_sessions := sessions; message_count := messages |}]
  | r :: rest =>
      if stat_key bid today r
      then {| stat_bot_id := stat_bot_id r; stat_date := stat_date r;
              daily_sessions := daily_sessions r + sessions;
              message_count := message_count r + messages |} :: rest
      else r :: upsert_stats rest bid today sessions messages
  end.

(** [increment_bot_stats(bot_id, sessions, messages)] on the day [today]:
    the new table and the value returned. *)
Definition increment_bot_stats (rows : list StatRow) (bid : Z) (today : str)
    (sessions messages : Z) : list StatRow * bool :=
  (upsert_stats rows bid today sessions messages, true).

(** The counters stored for a bot and a day, (0, 0) when there is no row. *)
Definition stats_of (rows : list StatRow) (bid : Z) (date : str) : Z * Z :=
  match List.find (stat_key bid date) rows with
  | Some r => (daily_sessions r, message_count r)
  | None => (0, 0)
  end.

(** The number of rows stored for a bot and a day. *)
Definition stat_rows (rows : list StatRow) (bid : Z) (date : str) : nat :=
  List.length (List.filter (stat_key bid date) rows).

(** [add_qna(bot_id, question, answer)] for each pair of a list, in
    order. *)
Definition add_qna_all (db : Db) (bid : Z) (pairs : list (str * str)) : Db :=
  fold_left (fun db '(q, a) => add_qna_default db bid q a) pairs db.

(** The rows stored for pairs, with the ids from [n] on. *)
Fixpoint rows_from (bid n : Z) (vp : list (str * str)) : list (Z * QnaRow) :=
  match vp with
  | [] => []
  | (q, a) :: r =>
      (bid, {| row_id := n; row_question := q; row_answer := a;
               row_keywords := None; row_priority := Some 1 |})
      :: rows_from bid (n + 1) r
  end.

(** Sample inputs for the further properties. *)
Definition cafe_two : Db := cafe_db [wifi_row 2 (Some 9); hours_row (Some 10)].

(** * Properties *)

(** ** Text normalizer *)

Lemma eqb_char_eq a b : eqb_char a b = true <-> a = b.
Proof. unfold eqb_char. apply Ascii.eqb_eq. Qed.

Lemma eqb_char_refl a : eqb_char a a = true.
Proof. apply eqb_char_eq. reflexivity. Qed.

Lemma eqb_str_eq a b : eqb_str a b = true <-> a = b.
Proof.
  revert b. induction a as [|x a IH]; intros [|y b]; simpl; try (split; congruence).
  rewrite andb_true_iff, eqb_char_eq, IH. split.
  - intros [-> ->]. reflexivity.
  - intros [= -> ->]. split; reflexivity.
Qed.

(** What [sub] leaves in its output: characters of the input that are not in
    the class, and the replacement character. *)
Lemma sub_runs_go_chars cls b s :
  Forall (fun c => (cls c = false /\ In c s) \/ c = " "%char)
         (sub_runs_go cls b s).
Proof.
  revert b. induction s as [|c r IH]; intros b; simpl; [constructor|].
  destruct (cls c) eqn:Hc.
  - destruct b.
    + eapply Forall_impl; [apply IH|]. simpl. intros x [[? ?]|?]; auto.
    + constructor; [right; reflexivity|].
      eapply Forall_impl; [apply IH|]. simpl. intros x [[? ?]|?]; auto.
  - constructor; [left; auto|].
    eapply Forall_impl; [apply IH|]. simpl. intros x [[? ?]|?]; auto.
Qed.

(** After a substitution of the runs of a class that holds the space, the
    output has no two consecutive spaces, and does not start with a space
    when the substitution starts inside a run. *)
Lemma sub_runs_go_spaces cls b s :
  cls " "%char = true ->
  no_double_space (sub_runs_go cls b s) = true
  /\ (b = true -> head (sub_runs_go cls b s) <> Some " "%char).
Proof.
  intros Hsp. revert b. induction s as [|c r IH]; intros b; simpl.
  - split; [reflexivity|]. intros _. discriminate.
  - destruct (cls c) eqn:Hc.
    + destruct b.
      * apply IH.
      * destruct (IH true) as [Hnd Hhd]. split; [|discriminate].
        specialize (Hhd eq_refl).
        destruct (sub_runs_go cls true r) as [|y t] eqn:E; [reflexivity|].
        simpl in *. rewrite Hnd, andb_true_r.
        destruct (eqb_char y " ") eqn:Hy; [|reflexivity].
        apply eqb_char_eq in Hy. congruence.
    + assert (Hne : eqb_char c " " = false).
      { destruct (eqb_char c " ") eqn:Hy; [|reflexivity].
        apply eqb_char_eq in Hy. congruence. }
      destruct (IH false) as [Hnd _]. split.
      * destruct (sub_runs_go cls false r) as [|y t] eqn:E; [reflexivity|].
        simpl in *. rewrite Hne. simpl. exact Hnd.
      * intros _. simpl. intros [= ->]. rewrite eqb_char_refl in Hne. discriminate.
Qed.

Lemma no_double_space_lookup s i :
  no_double_space s = true ->
  s !! i = Some " "%char -> s !! S i <> Some " "%char.
Proof.
  revert i. induction s as [|a s IH]; intros i Hnd Hi; [discriminate|].
  destruct s as [|b t]; [destruct i; discriminate|].
  simpl in Hnd. apply andb_true_iff in Hnd as [Hab Hnd].
  destruct i as [|i].
  - simpl in *. injection Hi as ->. intros [= ->].
    rewrite !eqb_char_refl in Hab. discriminate.
  - apply (IH i Hnd Hi).
Qed.

Lemma normalize_text_chars x :
  Forall (fun c => is_norm_char c = true) (normalize_text x).
Proof.
  unfold normalize_text, sub_runs.
  eapply Forall_impl; [apply sub_runs_go_chars|].
  simpl. intros c [[Hws Hin]| ->]; [|reflexivity].
  pose proof (sub_runs_go_chars _strip_chars false (lower (strip x))) as H.
  rewrite List.Forall_forall in H. apply H in Hin as [[Hk _]| ->].
  - unfold _strip_chars in Hk. apply negb_false_iff in Hk.
    unfold _norm_ws in Hws. rewrite Hws, orb_false_r in Hk.
    unfold is_norm_char. rewrite Hk. reflexivity.
  - discriminate Hws.
Qed.

Lemma normalize_text_no_double_space x :
  no_double_space (normalize_text x) = true.
Proof.
  unfold normalize_text, sub_runs.
  apply (sub_runs_go_spaces _norm_ws false). reflexivity.
Qed.

(** C10. For every input string, the output of [normalize_text] holds only
    lowercase ASCII letters, digits and spaces, and never two consecutive
    spaces. *)
Theorem normalize_text_alphabet (x : str) :
  Forall (fun c => islower_az c = true \/ isdigit09 c = true \/ c = " "%char)
         (normalize_text x)
  /\ no_double_space (normalize_text x) = true
  /\ (forall i : nat, normalize_text x !! i = Some " "%char ->
                      normalize_text x !! S i <> Some " "%char).
Proof.
  split; [|split].
  - eapply Forall_impl; [apply normalize_text_chars|].
    simpl. intros c Hc. unfold is_norm_char in Hc.
    apply orb_true_iff in Hc as [Hc|Hc]; [apply orb_true_iff in Hc as [Hc|Hc]|]; auto.
    apply eqb_char_eq in Hc. auto.
  - apply normalize_text_no_double_space.
  - intros i. apply no_double_space_lookup, normalize_text_no_double_space.
Qed.

(** C3, at the question of the sample data.  [normalize_text] trims before
    it replaces punctuation by spaces: the space that replaces the final
    question mark stays, the output is not trimmed, and a second
    normalization removes it, so the function is not idempotent. *)
Theorem normalize_text_trailing_space :
  normalize_text (py "What are your hours?") = py "what are your hours "
  /\ is_trimmed (normalize_text (py "What are your hours?")) = false
  /\ normalize_text (normalize_text (py "What are your hours?"))
     = py "what are your hours"
  /\ normalize_text (normalize_text (py "What are your hours?"))
     <> normalize_text (py "What are your hours?").
Proof. vm_compute. repeat split. discriminate. Qed.

(** *** Normalizing a normalized text *)

Lemma lstrip_suffix s : exists pre, s = pre ++ lstrip s.
Proof.
  induction s as [|c s [pre IH]]; [exists []; reflexivity|].
  simpl. destruct (isspace c).
  - exists (c :: pre). simpl. rewrite <- IH. reflexivity.
  - exists []. reflexivity.
Qed.

Lemma rstrip_prefix s : exists post, s = rstrip s ++ post.
Proof.
  unfold rstrip. destruct (lstrip_suffix (rev s)) as [pre H].
  exists (rev pre). rewrite <- rev_app_distr, <- H, rev_involutive. reflexivity.
Qed.

Lemma strip_infix s : exists pre post, s = pre ++ strip s ++ post.
Proof.
  unfold strip. destruct (lstrip_suffix s) as [pre H].
  destruct (rstrip_prefix (lstrip s)) as [post H'].
  exists pre, post. rewrite <- H', <- H. reflexivity.
Qed.

Lemma no_double_space_app_r a b :
  no_double_space (a ++ b) = true -> no_double_space b = true.
Proof.
  induction a as [|x a IH]; [auto|]. intros H. apply IH.
  simpl app in H. destruct (a ++ b); [reflexivity|].
  simpl in H. apply andb_true_iff in H as [_ H]. exact H.
Qed.

Lemma no_double_space_app_l a b :
  no_double_space (a ++ b) = true -> no_double_space a = true.
Proof.
  induction a as [|x a IH]; [reflexivity|]. intros H.
  destruct a as [|y a]; [reflexivity|].
  simpl in H |- *. apply andb_true_iff in H as [H1 H2].
  rewrite H1. apply IH. exact H2.
Qed.

Lemma is_norm_char_cases c :
  is_norm_char c = true ->
  lower_char c = c /\ _strip_chars c = false
  /\ (isspace c = true -> c = " "%char).
Proof.
  destruct c as [[] [] [] [] [] [] [] []]; vm_compute;
    try discriminate; intros _; repeat split; try reflexivity;
    discriminate.
Qed.

Lemma sub_runs_go_outside cls b s :
  Forall (fun c => cls c = false) s -> sub_runs_go cls b s = s.
Proof.
  revert b. induction s as [|c s IH]; intros b H; [reflexivity|].
  inversion H; subst. simpl. rewrite H2, IH by assumption. reflexivity.
Qed.

Lemma sub_runs_go_single_spaces b s :
  Forall (fun c => is_norm_char c = true) s ->
  no_double_space s = true ->
  (b = true -> head s <> Some " "%char) ->
  sub_runs_go _norm_ws b s = s.
Proof.
  revert b. induction s as [|c s IH]; intros b Hc Hnd Hb; [reflexivity|].
  inversion Hc as [|? ? Hc1 Hc2]; subst.
  destruct (is_norm_char_cases c Hc1) as (_ & _ & Hsp).
  simpl. unfold _norm_ws at 1. destruct (isspace c) eqn:E.
  - specialize (Hsp eq_refl). subst c.
    destruct b; [exfalso; apply Hb; reflexivity|].
    f_equal. apply IH; [exact Hc2| |].
    + destruct s; [reflexivity|]. simpl in Hnd.
      apply andb_true_iff in Hnd as [_ H]. exact H.
    + intros _. destruct s as [|y s]; [discriminate|].
      simpl in Hnd |- *. apply andb_true_iff in Hnd as [H _].
      intros [= ->]. discriminate.
  - f_equal. apply IH; [exact Hc2| |discriminate].
    destruct s; [reflexivity|]. simpl in Hnd.
    apply andb_true_iff in Hnd as [_ H]. exact H.
Qed.

Lemma lower_norm s :
  Forall (fun c => is_norm_char c = true) s -> lower s = s.
Proof.
  unfold lower. induction 1 as [|c l Hc1 _ IH]; [reflexivity|].
  simpl. rewrite (proj1 (is_norm_char_cases c Hc1)), IH. reflexivity.
Qed.

(** A second normalization only trims: it removes the space that the first
    one may have left at either end. *)
Lemma normalize_text_twice x :
  normalize_text (normalize_text x) = strip (normalize_text x).
Proof.
  pose proof (normalize_text_chars x) as Hc.
  pose proof (normalize_text_no_double_space x) as Hnd.
  set (y := normalize_text x) in *.
  destruct (strip_infix y) as (pre & post & Hy).
  assert (Hc' : Forall (fun c => is_norm_char c = true) (strip y)).
  { rewrite Hy in Hc. apply Forall_app in Hc as [_ Hc].
    apply Forall_app in Hc as [Hc _]. exact Hc. }
  assert (Hnd' : no_double_space (strip y) = true).
  { rewrite Hy in Hnd. apply no_double_space_app_r in Hnd.
    apply no_double_space_app_l in Hnd. exact Hnd. }
  unfold normalize_text at 1.
  assert (El : lower (strip y) = strip y) by (apply lower_norm; exact Hc').
  rewrite El. unfold sub_runs.
  rewrite (sub_runs_go_outside _strip_chars).
  - apply sub_runs_go_single_spaces; [exact Hc' | exact Hnd' | discriminate].
  - eapply Forall_impl; [exact Hc'|]. simpl. intros c H.
    apply (is_norm_char_cases c H).
Qed.

Lemma strip_trimmed s : is_trimmed s = true -> strip s = s.
Proof.
  unfold is_trimmed, strip, rstrip. intros H.
  destruct s as [|a s]; [reflexivity|].
  cbn [head] in H. destruct (last (a :: s)) as [b|] eqn:El.
  2:{ rewrite last_cons in El. destruct (last s); discriminate. }
  apply andb_true_iff in H as [Ha Hb]. apply negb_true_iff in Ha, Hb.
  simpl lstrip. rewrite Ha.
  apply last_Some in El as [l' El]. rewrite El, rev_app_distr. simpl.
  rewrite Hb. simpl. rewrite rev_involutive. reflexivity.
Qed.

(** [normalize_text] is idempotent at the inputs whose normal form is
    trimmed. *)
Lemma normalize_text_idempotent_when_trimmed x :
  is_trimmed (normalize_text x) = true ->
  normalize_text (normalize_text x) = normalize_text x.
Proof. intros H. rewrite normalize_text_twice. apply strip_trimmed. exact H. Qed.

(** ** Phrase matching *)

Lemma startswith_spec s p :
  startswith s p = true <-> exists post, s = p ++ post.
Proof.
  revert s. induction p as [|x p IH]; intros s; simpl.
  - split; [intros _; exists s; reflexivity | reflexivity].
  - destruct s as [|y s].
    + split; [discriminate | intros [post [=]]].
    + rewrite andb_true_iff, eqb_char_eq, IH. split.
      * intros [-> [post ->]]. exists post. reflexivity.
      * intros [post [= -> ->]]. split; [reflexivity | exists post; reflexivity].
Qed.

Lemma contains_spec s p : contains s p = true <-> is_substring s p.
Proof.
  unfold is_substring. induction s as [|c s IH]; simpl.
  - rewrite orb_false_r, startswith_spec. split.
    + intros [post H]. exists [], post. exact H.
    + intros [pre [post H]]. destruct pre; [exists post; exact H|discriminate].
  - rewrite orb_true_iff, startswith_spec, IH. split.
    + intros [[post H]|[pre [post H]]].
      * exists [], post. exact H.
      * exists (c :: pre), post. simpl. rewrite H. reflexivity.
    + intros [[|x pre] [post H]].
      * left. exists post. exact H.
      * right. simpl in H. injection H as -> ->. exists pre, post. reflexivity.
Qed.

Lemma before_cons prev c l : before prev (c :: l) = before (Some c) l.
Proof. destruct l; reflexivity. Qed.

Lemma before_None l : before None l = last l.
Proof. destruct l; reflexivity. Qed.

Lemma before_app prev l p : before (before prev l) p = before prev (l ++ p).
Proof.
  destruct p as [|x p]; [rewrite app_nil_r; reflexivity|].
  destruct l as [|y l]; [reflexivity|].
  change (before (before prev (y :: l)) (x :: p)) with (last (x :: p)).
  change (before prev ((y :: l) ++ x :: p)) with (last ((y :: l) ++ x :: p)).
  symmetry. apply last_app_cons.
Qed.

Lemma skipn_app_length (p post : str) : skipn (List.length p) (p ++ post) = post.
Proof. induction p; simpl; auto. Qed.

Lemma match_here_spec prev t p :
  match_here prev t p = true <->
  exists post, t = p ++ post
    /\ at_boundary prev (head (p ++ post)) = true
    /\ at_boundary (before prev p) (head post) = true.
Proof.
  unfold match_here. rewrite !andb_true_iff, startswith_spec. split.
  - intros [[Hb [post ->]] He]. exists post. rewrite skipn_app_length in He.
    repeat split; assumption.
  - intros [post [-> [Hb He]]]. rewrite skipn_app_length.
    repeat split; [assumption | exists post; reflexivity | assumption].
Qed.

Lemma search_word_spec prev t p :
  search_word prev t p = true <->
  exists pre post, t = pre ++ p ++ post
    /\ at_boundary (before prev pre) (head (p ++ post)) = true
    /\ at_boundary (before (before prev pre) p) (head post) = true.
Proof.
  revert prev. induction t as [|c t IH]; intros prev.
  - simpl search_word. rewrite orb_false_r, match_here_spec. split.
    + intros [post H]. exists [], post. exact H.
    + intros [[|x pre] [post [H1 H2]]]; [exists post; split; assumption|discriminate].
  - simpl search_word. rewrite orb_true_iff, match_here_spec, IH. split.
    + intros [[post H]|[pre [post [-> [H1 H2]]]]].
      * exists [], post. exact H.
      * exists (c :: pre), post. rewrite !before_cons. repeat split; assumption.
    + intros [[|x pre] [post [H [H1 H2]]]].
      * left. exists post. repeat split; assumption.
      * right. simpl in H. injection H as -> ->. rewrite !before_cons in *.
        exists pre, post. repeat split; assumption.
Qed.

Lemma search_word_whole_word t p :
  search_word None t p = true <-> whole_word_occurrence t p.
Proof.
  rewrite search_word_spec. unfold whole_word_occurrence.
  split; intros [pre [post [H [H1 H2]]]]; exists pre, post.
  - rewrite before_app, !before_None in *. repeat split; assumption.
  - rewrite before_app, !before_None. repeat split; assumption.
Qed.

(** C6. For a phrase of one token, [phrase_in_text] is the whole-word test:
    it holds exactly when some occurrence of the phrase in the text has a
    word boundary on both sides, so "cat" does not match in "category" and
    matches in "i have a cat".  For a phrase of several tokens it is the
    substring test. *)
Theorem phrase_in_text_spec (t p : str) :
  (List.length (split_ws p) = 1%nat ->
     (phrase_in_text t p = true <-> whole_word_occurrence t p))
  /\ ((1 < List.length (split_ws p))%nat ->
     (phrase_in_text t p = true <-> is_substring t p))
  /\ phrase_in_text (py "category") (py "cat") = false
  /\ phrase_in_text (normalize_text (py "I have a cat")) (py "cat") = true.
Proof.
  split; [|split; [|split; reflexivity]].
  - intros H1. destruct p as [|x p]; [discriminate|].
    unfold phrase_in_text. rewrite H1. simpl Nat.eqb. cbv iota.
    apply search_word_whole_word.
  - intros H1. destruct p as [|x p]; [simpl in H1; lia|].
    unfold phrase_in_text.
    destruct (List.length (split_ws (x :: p)) =? 1)%nat eqn:E.
    + apply Nat.eqb_eq in E. lia.
    + apply contains_spec.
Qed.

Lemma phrase_in_text_spec_witness :
  (whole_word_occurrence (py "i have a cat") (py "cat"))
  /\ (is_substring (py "is there free wifi here") (py "free wifi")).
Proof.
  split.
  - apply (proj1 (phrase_in_text_spec (py "i have a cat") (py "cat")));
      reflexivity.
  - apply (proj1 (proj2 (phrase_in_text_spec (py "is there free wifi here")
                                            (py "free wifi")))).
    + vm_compute. lia.
    + reflexivity.
Defined.

(** ** Scorer *)

Section ScorerProps.

Context {lib : PyLib}.

(** The loop over the plain phrases adds 12 for each phrase that matches and
    records the phrase, in order. *)
Lemma fold_score_keyword u l s d :
  fold_left (score_keyword u) l (s, d)
  = (s + 12 * Z.of_nat (List.length (List.filter (phrase_in_text u) l)),
     {| matched_keywords := matched_keywords d ++ List.filter (phrase_in_text u) l;
        matched_regex := matched_regex d;
        exact := exact d; ratio := ratio d; priority := priority d |}).
Proof.
  revert s d. induction l as [|kw l IH]; intros s d.
  - simpl. rewrite app_nil_r, Z.add_0_r. destruct d; reflexivity.
  - cbn [fold_left List.filter]. unfold score_keyword at 2.
    destruct (phrase_in_text u kw).
    + rewrite IH. cbn [append_keyword matched_keywords matched_regex exact ratio
                       priority List.length].
      rewrite <- app_assoc. cbn [app]. f_equal. unfold KW_WORD_POINTS. lia.
    + apply IH.
Qed.

(** The loop over the compiled patterns adds 14 for each pattern that finds
    a match and records its source, in order. *)
Lemma fold_score_pattern u l s d :
  fold_left (score_pattern u) l (s, d)
  = (s + 14 * Z.of_nat (List.length (List.filter (fun p => search p u) l)),
     {| matched_keywords := matched_keywords d;
        matched_regex :=
          matched_regex d ++ map pattern (List.filter (fun p => search p u) l);
        exact := exact d; ratio := ratio d; priority := priority d |}).
Proof.
  revert s d. induction l as [|p l IH]; intros s d.
  - simpl. rewrite app_nil_r, Z.add_0_r. destruct d; reflexivity.
  - cbn [fold_left List.filter]. unfold score_pattern at 2.
    destruct (search p u).
    + rewrite IH. cbn [append_regex matched_keywords matched_regex exact ratio
                       priority List.length map].
      rewrite <- app_assoc. cbn [app]. f_equal. unfold KW_REGEX_POINTS. lia.
    + apply IH.
Qed.

(** The value of [score_qna] in closed form: the exception of the parser
    when it raises, else the sum of the five contributions and the details. *)
Lemma score_qna_closed u c :
  score_qna u c =
  bind (parse_keywords (row_keywords c)) (fun pk =>
  let q := normalize_text (row_question c) in
  let hits := List.filter (phrase_in_text u) (fst pk) in
  let rhits := List.filter (fun p => search p u) (snd pk) in
  let p := match row_priority c with Some p => p | None => 0 end in
  Ok ((if eqb_str u q then 40 else 0)
      + 12 * Z.of_nat (List.length hits)
      + 14 * Z.of_nat (List.length rhits)
      + py_round (30 * SequenceMatcher_ratio u q)%float
      + 2 * p,
      {| matched_keywords := hits;
         matched_regex := map pattern rhits;
         exact := eqb_str u q;
         ratio := SequenceMatcher_ratio u q;
         priority := p |})).
Proof.
  unfold score_qna.
  destruct (parse_keywords (row_keywords c)) as [[plain patterns]|e];
    [|destruct (eqb_str u (normalize_text (row_question c))); reflexivity].
  cbn [bind fst snd].
  destruct (eqb_str u (normalize_text (row_question c)));
    rewrite fold_score_keyword, fold_score_pattern;
    cbn [set_exact set_ratio matched_keywords matched_regex exact ratio priority app];
    unfold EXACT_MATCH_BONUS, PRIORITY_WEIGHT;
    change (float_of_Z SIMILARITY_WEIGHT) with 30%float;
    do 2 f_equal; lia.
Qed.

(** [score_qna] returns exactly when the parser returns on the keyword spec
    of the row. *)
Lemma score_qna_scored u c :
  scored u c <-> exists pk, parse_keywords (row_keywords c) = Ok pk.
Proof.
  unfold scored. rewrite score_qna_closed.
  destruct (parse_keywords (row_keywords c)) as [pk|e]; cbn [bind].
  - split; intros _; eauto.
  - split; intros (? & H); [destruct H as (? & H)|]; discriminate H.
Qed.

Lemma score_qna_raises u c e :
  score_qna u c = Raise e <-> parse_keywords (row_keywords c) = Raise e.
Proof.
  rewrite score_qna_closed.
  destruct (parse_keywords (row_keywords c)) as [pk|e']; cbn [bind].
  - split; intros H; discriminate H.
  - split; intros H; injection H as <-; reflexivity.
Qed.

(** C1. The score that [score_qna] returns for a row is the sum of the five
    contributions and of nothing else: 40 when the message equals the
    normalized question, 12 for each plain phrase of the parsed keyword spec
    that matches the message, 14 for each compiled pattern of the parsed
    keyword spec that finds a match in it, the rounded 30-fold similarity
    ratio, and twice the priority of the row (a NULL priority counts as 0);
    the priority recorded in the details is the priority of the row, too.
    The call returns whenever the parser returns on the keyword spec of the
    row, and raises what the parser raises. *)
Theorem score_qna_sum (u : str) (c : QnaRow) :
  let q := normalize_text (row_question c) in
  let p := match row_priority c with Some p => p | None => 0 end in
  match parse_keywords (row_keywords c) with
  | Ok (plain, patterns) =>
      exists d,
        score_qna u c
        = Ok ((if eqb_str u q then 40 else 0)
              + 12 * Z.of_nat (List.length (List.filter (phrase_in_text u) plain))
              + 14 * Z.of_nat (List.length
                                 (List.filter (fun p => search p u) patterns))
              + py_round (30 * SequenceMatcher_ratio u q)%float
              + 2 * p,
              d)
        /\ priority d = p
  | Raise e => score_qna u c = Raise e
  end.
Proof.
  cbn zeta. rewrite score_qna_closed.
  destruct (parse_keywords (row_keywords c)) as [[plain patterns]|e];
    cbn [bind fst snd]; [|reflexivity].
  eexists. split; reflexivity.
Qed.

(** C4, as the code has it.  A row whose priority is NULL is scored with
    priority 0: the details record 0 and the score is the sum of the other
    four contributions. *)
Theorem score_qna_null_priority (u : str) (c : QnaRow) (s : Z) (d : ScoreDetail) :
  row_priority c = None ->
  score_qna u c = Ok (s, d) ->
  priority d = 0
  /\ s = (if eqb_str u (normalize_text (row_question c)) then 40 else 0)
         + 12 * Z.of_nat (List.length (matched_keywords d))
         + 14 * Z.of_nat (List.length (matched_regex d))
         + py_round (30 * ratio d)%float.
Proof.
  intros H. rewrite score_qna_closed.
  destruct (parse_keywords (row_keywords c)) as [pk|e]; cbn [bind];
    [|discriminate].
  cbn zeta. rewrite H. intros E. injection E as <- <-.
  cbn [priority matched_keywords matched_regex ratio].
  rewrite length_map. split; [reflexivity | lia].
Qed.

(** A priority that is present is recorded and weighs twice its value. *)
Lemma score_qna_some_priority u c p s d :
  row_priority c = Some p -> score_qna u c = Ok (s, d) -> priority d = p.
Proof.
  intros H. rewrite score_qna_closed.
  destruct (parse_keywords (row_keywords c)) as [pk|e]; cbn [bind];
    [|discriminate].
  cbn zeta. rewrite H. intros E. injection E as <- <-. reflexivity.
Qed.

End ScorerProps.

(** The default priority 1 is a default of the storage layer: a row added
    without a priority is stored with priority 1. *)
Lemma add_qna_default_priority db bid q a :
  exists r, last (qna (add_qna_default db bid q a)) = Some (bid, r)
            /\ row_priority r = Some 1.
Proof.
  unfold add_qna_default, add_qna. cbn [qna]. eexists. split.
  - apply last_snoc.
  - reflexivity.
Qed.

Lemma score_qna_null_priority_witness :
  @score_qna RefLib.ref_lib (py "do you have wifi") (wifi_row 3 None)
  = Ok (41, {| matched_keywords := [py "wifi"]; matched_regex := [];
               exact := false; ratio := 0x1.f07c1f07c1f08p-1%float;
               priority := 0 |})
  /\ 41 = 0 + 12 * 1 + 14 * 0 + 29.
Proof.
  assert (E : @score_qna RefLib.ref_lib (py "do you have wifi") (wifi_row 3 None)
              = Ok (41, {| matched_keywords := [py "wifi"]; matched_regex := [];
                           exact := false; ratio := 0x1.f07c1f07c1f08p-1%float;
                           priority := 0 |})).
  { vm_compute. reflexivity. }
  split; [exact E|].
  rewrite (proj2 (@score_qna_null_priority RefLib.ref_lib
                    (py "do you have wifi") (wifi_row 3 None) _ _ eq_refl E))
    at 1.
  vm_compute. reflexivity.
Defined.

(** C4, as stated, fails.  The row of the sample data about WiFi, stored
    with a NULL priority, is scored 41 with priority 0 recorded: 12 for the
    phrase "wifi", 29 for the similarity and nothing for the priority.  With
    priority 1 it is scored 43. *)
Lemma null_priority_is_not_one :
  row_priority (wifi_row 3 None) = None
  /\ @score_qna RefLib.ref_lib (py "do you have wifi") (wifi_row 3 None)
     = Ok (41, {| matched_keywords := [py "wifi"]; matched_regex := [];
                  exact := false; ratio := 0x1.f07c1f07c1f08p-1%float;
                  priority := 0 |})
  /\ @score_of RefLib.ref_lib (py "do you have wifi") (wifi_row 3 (Some 1)) = 43
  /\ ~ (forall (lib : PyLib) (u : str) (c : QnaRow) (s : Z) (d : ScoreDetail),
          row_priority c = None ->
          score_qna u c = Ok (s, d) ->
          priority d = 1
          /\ s = (if eqb_str u (normalize_text (row_question c)) then 40 else 0)
                 + 12 * Z.of_nat (List.length (matched_keywords d))
                 + 14 * Z.of_nat (List.length (matched_regex d))
                 + py_round (30 * ratio d)%float
                 + 2).
Proof.
  split; [reflexivity|]. split; [vm_compute; reflexivity|].
  split; [vm_compute; reflexivity|].
  intros H.
  destruct (H RefLib.ref_lib (py "do you have wifi") (wifi_row 3 None) _ _
              eq_refl eq_refl) as [H1 _].
  vm_compute in H1. discriminate H1.
Qed.

(** ** Keyword spec parser *)

Lemma split_char_no_sep c x : ~ In c x -> split_char c x = [x].
Proof.
  induction x as [|y x IH]; intros Hn; [reflexivity|].
  simpl. destruct (eqb_char c y) eqn:E.
  - apply eqb_char_eq in E. subst. exfalso. apply Hn. left. reflexivity.
  - rewrite IH; [reflexivity|]. intros H. apply Hn. right. exact H.
Qed.

Lemma split_char_app_sep c x s :
  ~ In c x -> split_char c (x ++ c :: s) = x :: split_char c s.
Proof.
  induction x as [|y x IH]; intros Hn.
  - simpl. rewrite eqb_char_refl. reflexivity.
  - simpl. destruct (eqb_char c y) eqn:E.
    + apply eqb_char_eq in E. subst. exfalso. apply Hn. left. reflexivity.
    + rewrite IH; [reflexivity|]. intros H. apply Hn. right. exact H.
Qed.

(** Splitting a joined list of tokens gives the tokens back. *)
Lemma split_join_comma l :
  l <> [] -> Forall no_comma l -> split_char ","%char (join_comma l) = l.
Proof.
  induction l as [|x r IH]; intros Hne Hl; [congruence|].
  inversion Hl as [|? ? Hx Hr]; subst.
  destruct r as [|y r].
  - simpl. apply split_char_no_sep. exact Hx.
  - change (join_comma (x :: y :: r)) with (x ++ ","%char :: join_comma (y :: r)).
    rewrite split_char_app_sep by exact Hx.
    rewrite IH; [reflexivity | discriminate | exact Hr].
Qed.

(** A loop over two lists in a row is the loop over the first, then the
    loop over the second unless the first raised. *)
Lemma for_each_app {A B} (f : A -> B -> Res A) l1 l2 a :
  for_each f (l1 ++ l2) a = bind (for_each f l1 a) (for_each f l2).
Proof.
  revert a. induction l1 as [|x l1 IH]; intros a; [reflexivity|].
  cbn [app for_each]. destruct (f a x) as [a'|e]; cbn [bind]; [apply IH|reflexivity].
Qed.

Section ParserProps.

Context {lib : PyLib}.

Lemma parse_token_empty acc : parse_token acc [] = Ok acc.
Proof. destruct acc. reflexivity. Qed.

(** [parse_keywords] on a joined list of tokens is the loop over the
    tokens. *)
Lemma parse_keywords_join l :
  Forall no_comma l ->
  parse_keywords (Some (join_comma l)) = for_each parse_token l ([], []).
Proof.
  intros Hl. destruct l as [|x r]; [reflexivity|].
  assert (Hs := split_join_comma (x :: r) ltac:(discriminate) Hl).
  unfold parse_keywords.
  destruct (join_comma (x :: r)) as [|c s] eqn:E.
  - destruct r as [|y r].
    + simpl in E. subst x. reflexivity.
    + exfalso. change (join_comma (x :: y :: r))
        with (x ++ ","%char :: join_comma (y :: r)) in E.
      destruct x; discriminate.
  - rewrite Hs. reflexivity.
Qed.

(** What the [try] statement does with the outcome of [re.compile]. *)
Lemma try_append_spec plain patterns pat ic :
  try_append (plain, patterns) pat ic
  = match re_compile_exn pat ic with
    | None => Ok (plain, patterns ++ [{| pattern := pat; ignorecase := ic |}])
    | Some re_error => Ok (plain, patterns)
    | Some e => Raise e
    end.
Proof.
  unfold try_append, re_compile. destruct (re_compile_exn pat ic) as [[]|];
    reflexivity.
Qed.

(** One iteration of the parser, by the kind of the token. *)
Lemma parse_token_spec plain patterns tok :
  parse_token (plain, patterns) tok
  = match strip tok with
    | [] => Ok (plain, patterns)
    | kw =>
        match token_pattern kw with
        | Some (pat, ic) => try_append (plain, patterns) pat ic
        | None =>
            if re_prefixed kw || slash_wrapped kw then Ok (plain, patterns)
            else Ok (plain ++ [lower kw], patterns)
        end
    end.
Proof.
  unfold parse_token, token_pattern, re_prefixed, slash_wrapped.
  destruct (strip tok) as [|k kw]; [reflexivity|].
  destruct (startswith (k :: kw) (py "re:")); [reflexivity|].
  cbn [orb].
  destruct ((2 <=? List.length (k :: kw))%nat && startswith (k :: kw) (py "/")
            && (2 <=? count_char "/" (k :: kw))%nat); [|reflexivity].
  destruct (rfind_char "/" (k :: kw)); reflexivity.
Qed.

(** A regex token whose pattern makes [re.compile] raise [re.error] leaves
    the two lists as they are. *)
Lemma parse_token_caught acc tok :
  token_exn tok = Some re_error -> parse_token acc tok = Ok acc.
Proof.
  destruct acc as [plain patterns]. rewrite parse_token_spec.
  unfold token_exn.
  destruct (strip tok) as [|k kw]; [discriminate|].
  destruct (token_pattern (k :: kw)) as [[pat ic]|]; [|discriminate].
  intros H. rewrite try_append_spec, H. reflexivity.
Qed.

(** A regex token whose pattern makes [re.compile] raise another exception
    ends the parser with that exception. *)
Lemma parse_token_uncaught acc tok e :
  token_exn tok = Some e -> e <> re_error -> parse_token acc tok = Raise e.
Proof.
  destruct acc as [plain patterns]. rewrite parse_token_spec.
  unfold token_exn.
  destruct (strip tok) as [|k kw]; [discriminate|].
  destruct (token_pattern (k :: kw)) as [[pat ic]|]; [|discriminate].
  intros H Hne. rewrite try_append_spec, H. destruct e; congruence.
Qed.

(** The parser raises on a token only what [re.compile] raises on its
    pattern, and never [re.error]. *)
Lemma parse_token_raises acc tok e :
  parse_token acc tok = Raise e -> token_exn tok = Some e /\ e <> re_error.
Proof.
  destruct acc as [plain patterns]. rewrite parse_token_spec.
  unfold token_exn.
  destruct (strip tok) as [|k kw]; [discriminate|].
  destruct (token_pattern (k :: kw)) as [[pat ic]|].
  - rewrite try_append_spec.
    destruct (re_compile_exn pat ic) as [[]|]; intros H;
      try discriminate H; injection H as <-; split; congruence.
  - destruct (re_prefixed (k :: kw) || slash_wrapped (k :: kw)); discriminate.
Qed.

(** A token on which [re.compile] raises nothing, or [re.error], lets the
    parser go on. *)
Lemma parse_token_returns acc tok :
  token_exn tok = None \/ token_exn tok = Some re_error ->
  exists acc', parse_token acc tok = Ok acc'.
Proof.
  intros H. destruct (parse_token acc tok) as [acc'|e] eqn:E; [eauto|].
  apply parse_token_raises in E as [E Hne]. rewrite E in H.
  destruct H as [H|H]; [discriminate H | congruence].
Qed.

Lemma for_each_parse_token_raises l acc e :
  for_each parse_token l acc = Raise e ->
  e <> re_error /\ Exists (fun t => token_exn t = Some e) l.
Proof.
  revert acc. induction l as [|t l IH]; intros acc; cbn [for_each];
    [discriminate|].
  destruct (parse_token acc t) as [acc'|e'] eqn:E; cbn [bind].
  - intros H. apply IH in H as [H1 H2]. split; [exact H1|].
    apply Exists_cons_tl. exact H2.
  - intros H. injection H as ->. apply parse_token_raises in E as [E Hne].
    split; [exact Hne|]. apply Exists_cons_hd. exact E.
Qed.

Lemma for_each_parse_token_returns l acc :
  Forall (fun t => token_exn t = None \/ token_exn t = Some re_error) l ->
  exists acc', for_each parse_token l acc = Ok acc'.
Proof.
  revert acc. induction l as [|t l IH]; intros acc Hl; cbn [for_each];
    [eauto|].
  inversion Hl as [|? ? Ht Hr]; subst.
  destruct (parse_token_returns acc t Ht) as [acc' E]. rewrite E. cbn [bind].
  apply IH. exact Hr.
Qed.

Lemma for_each_parse_token_drop l1 tok l2 acc :
  token_exn tok = Some re_error ->
  for_each parse_token (l1 ++ tok :: l2) acc
  = for_each parse_token (l1 ++ l2) acc.
Proof.
  intros H. rewrite !for_each_app.
  destruct (for_each parse_token l1 acc) as [acc'|e]; cbn [bind for_each];
    [|reflexivity].
  rewrite parse_token_caught by exact H. reflexivity.
Qed.

(** The score of a row depends on its keyword spec through the outcome of
    the parser only. *)
Lemma score_qna_parse u c k1 k2 :
  parse_keywords k1 = parse_keywords k2 ->
  score_qna u (with_keywords c k1) = score_qna u (with_keywords c k2).
Proof.
  intros H. rewrite !score_qna_closed. cbn [with_keywords row_question
    row_keywords row_priority]. rewrite H. reflexivity.
Qed.

(** A regex token whose pattern makes [re.compile] raise [re.error] is
    dropped: the parser returns or raises as on the spec without the token,
    and every row is scored as with the spec without it. *)
Lemma parse_keywords_drops_caught (l1 l2 : list str) (tok : str) :
  Forall no_comma (l1 ++ tok :: l2) ->
  token_exn tok = Some re_error ->
  parse_keywords (Some (join_comma (l1 ++ tok :: l2)))
  = parse_keywords (Some (join_comma (l1 ++ l2)))
  /\ forall (u : str) (c : QnaRow),
       score_qna u (with_keywords c (Some (join_comma (l1 ++ tok :: l2))))
       = score_qna u (with_keywords c (Some (join_comma (l1 ++ l2)))).
Proof.
  intros Hl Hbad.
  assert (Hl' : Forall no_comma (l1 ++ l2)).
  { apply Forall_app in Hl as [H1 H2]. inversion H2; subst.
    apply Forall_app. split; assumption. }
  assert (E : parse_keywords (Some (join_comma (l1 ++ tok :: l2)))
              = parse_keywords (Some (join_comma (l1 ++ l2)))).
  { rewrite !parse_keywords_join by assumption.
    apply for_each_parse_token_drop. exact Hbad. }
  split; [exact E|]. intros u c. apply score_qna_parse. exact E.
Qed.

(** C8.  A keyword spec with a malformed regex token: when [re.compile]
    raises [re.error] on the pattern of the token, the token is dropped, as
    the claim says: the parser returns or raises as on the spec without the
    token, and every row is scored alike.  When [re.compile] raises another
    exception on it
    ([OverflowError] for the pattern [a{99999999999}]), the exception is not
    caught: the parser raises, it raises that exception when no token before
    it raises, and [score_qna] raises on every row with that keyword spec. *)
Theorem parse_keywords_malformed_token (l1 l2 : list str) (tok : str) (e : exn) :
  Forall no_comma (l1 ++ tok :: l2) ->
  token_exn tok = Some e ->
  malformed_regex_token tok = true
  /\ (e = re_error ->
      parse_keywords (Some (join_comma (l1 ++ tok :: l2)))
      = parse_keywords (Some (join_comma (l1 ++ l2)))
      /\ forall (u : str) (c : QnaRow),
           score_qna u (with_keywords c (Some (join_comma (l1 ++ tok :: l2))))
           = score_qna u (with_keywords c (Some (join_comma (l1 ++ l2)))))
  /\ (e <> re_error ->
      (exists e', e' <> re_error
                  /\ parse_keywords (Some (join_comma (l1 ++ tok :: l2)))
                     = Raise e'
                  /\ forall (u : str) (c : QnaRow),
                       score_qna u (with_keywords c
                                      (Some (join_comma (l1 ++ tok :: l2))))
                       = Raise e')
      /\ (Forall (fun t => token_exn t = None \/ token_exn t = Some re_error) l1 ->
          parse_keywords (Some (join_comma (l1 ++ tok :: l2))) = Raise e)).
Proof.
  intros Hl He.
  split; [unfold malformed_regex_token; rewrite He; reflexivity|].
  split.
  - intros ->. apply parse_keywords_drops_caught; assumption.
  - intros Hne.
    rewrite parse_keywords_join by exact Hl. rewrite for_each_app.
    split.
    + assert (Hr : exists e', e' <> re_error
                /\ bind (for_each parse_token l1 ([], []))
                        (for_each parse_token (tok :: l2)) = Raise e').
      { destruct (for_each parse_token l1 ([], [])) as [acc|e1] eqn:E1;
          cbn [bind for_each].
        - exists e. split; [exact Hne|].
          rewrite (parse_token_uncaught acc tok e He Hne). reflexivity.
        - exists e1. split; [|reflexivity].
          apply (for_each_parse_token_raises l1 _ _ E1). }
      destruct Hr as (e' & Hne' & Hr). exists e'.
      split; [exact Hne'|]. split; [exact Hr|].
      intros u c. apply score_qna_raises.
      cbn [with_keywords row_keywords].
      rewrite parse_keywords_join by exact Hl. rewrite for_each_app. exact Hr.
    + intros H1. destruct (for_each_parse_token_returns l1 ([], []) H1)
        as [acc E1].
      rewrite E1. cbn [bind for_each].
      rewrite (parse_token_uncaught acc tok e He Hne). reflexivity.
Qed.

End ParserProps.

Lemma parse_keywords_malformed_token_witness :
  @parse_keywords RefLib.ref_lib (Some (py "hours,re:a{99999999999},/closed/i"))
  = Raise OverflowError.
Proof.
  refine (proj2 (proj2 (proj2 (@parse_keywords_malformed_token RefLib.ref_lib
           [py "hours"] [py "/closed/i"] (py "re:a{99999999999}")
           OverflowError _ _)) _) _).
  - repeat constructor; unfold no_comma; simpl; intuition discriminate.
  - vm_compute. reflexivity.
  - discriminate.
  - repeat constructor.
Defined.

(** A token whose pattern raises [re.error] is dropped, at a sample spec. *)
Example parse_keywords_drops_unbalanced :
  @parse_keywords RefLib.ref_lib (Some (py "hours, re:(open,/closed/i"))
  = Ok ([py "hours"], [{| pattern := py "closed"; ignorecase := true |}])
  /\ @parse_keywords RefLib.ref_lib (Some (py "hours, re:(open,/closed/i"))
     = @parse_keywords RefLib.ref_lib (Some (py "hours,/closed/i")).
Proof.
  split; [vm_compute; reflexivity|].
  apply (@parse_keywords_drops_caught RefLib.ref_lib
           [py "hours"] [py "/closed/i"] (py " re:(open")).
  - repeat constructor; unfold no_comma; simpl; intuition discriminate.
  - vm_compute. reflexivity.
Qed.

(** ** Match selector *)

Lemma map_snd_enumerate_from {A} i (l : list A) :
  map snd (enumerate_from i l) = l.
Proof.
  revert i. induction l as [|x l IH]; intros i; [reflexivity|].
  cbn. rewrite IH. reflexivity.
Qed.

Section SelectorProps.

Context {lib : PyLib}.

Variable DEBUG : bool.

Lemma score_of_Ok u r s d : score_qna u r = Ok (s, d) -> score_of u r = s.
Proof. unfold score_of. intros ->. reflexivity. Qed.

Lemma selection_inv_init u : selection_inv u [] selection_init.
Proof.
  unfold selection_inv, selection_init. cbn [best_score best_row best_details].
  split; [intros j r H; discriminate|]. split; [lia|]. split; reflexivity.
Qed.

(** One iteration that scores the row keeps the invariant. *)
Lemma selection_inv_step u done sel x s d :
  score_qna u x = Ok (s, d) ->
  selection_inv u done sel ->
  selection_inv u (done ++ [x])
    (if s >? best_score sel
     then {| best_row := Some (List.length done, x); best_score := s;
             best_details := Some d |}
     else sel).
Proof.
  intros E (Hle & Hlo & Hbest).
  assert (Hs : score_of u x = s) by (apply (score_of_Ok u x s d E)).
  assert (Hx : scored u x) by (exists s, d; exact E).
  destruct (s >? best_score sel) eqn:Hgt.
  - apply Z.gtb_lt in Hgt.
    unfold selection_inv. cbn [best_score best_row best_details].
    split; [|split; [lia|]].
    + intros j r Hj. apply lookup_snoc_Some in Hj as [[_ Hj]|[_ <-]].
      * specialize (Hle j r Hj). split; [apply Hle | lia].
      * split; [exact Hx | lia].
    + split; [apply lookup_snoc_Some; right; auto|].
      split; [congruence|]. split; [exists d; split; [exact E | reflexivity]|].
      split; [lia|].
      intros j r Hlt Hj. apply lookup_snoc_Some in Hj as [[_ Hj]|[-> _]]; [|lia].
      specialize (Hle j r Hj). lia.
  - assert (Hgt' : s <= best_score sel).
    { destruct (Z.gtb_spec s (best_score sel)); [discriminate | lia]. }
    unfold selection_inv. split; [|split; [exact Hlo|]].
    + intros j r Hj. apply lookup_snoc_Some in Hj as [[_ Hj]|[_ <-]].
      * apply (Hle j r Hj).
      * split; [exact Hx | lia].
    + destruct (best_row sel) as [[k row]|]; [|exact Hbest].
      destruct Hbest as (Hk & Hsc & Hd & Hlt & Hearly).
      split; [apply lookup_app_l_Some; exact Hk|]. repeat split; try assumption.
      intros j r Hjk Hj. apply lookup_snoc_Some in Hj as [[_ Hj]|[-> _]].
      * apply (Hearly j r Hjk Hj).
      * apply lookup_lt_Some in Hk. lia.
Qed.

(** A loop that ends without an exception keeps the invariant. *)
Lemma select_loop_inv u l done sel out sel' :
  snd (select_loop DEBUG u (enumerate_from (List.length done) l) sel out)
  = Ok sel' ->
  selection_inv u done sel ->
  selection_inv u (done ++ l) sel'.
Proof.
  revert done sel out. induction l as [|x l IH]; intros done sel out H Hinv.
  - cbn in H. injection H as <-. rewrite app_nil_r. exact Hinv.
  - cbn [enumerate_from select_loop] in H.
    destruct (score_qna u x) as [[s d]|e] eqn:E; [|discriminate H].
    pose proof (selection_inv_step u done sel x s d E Hinv) as Hstep.
    replace (S (List.length done)) with (List.length (done ++ [x])) in H
      by (rewrite length_app; cbn; lia).
    apply IH in H; [|exact Hstep].
    rewrite <- app_assoc in H. exact H.
Qed.

(** The loop raises the exception of the first row on whose keyword spec the
    parser raises, and ends without an exception when there is no such
    row. *)
Lemma select_loop_raise u rows sel out :
  match first_raise (map snd rows) with
  | Some e => snd (select_loop DEBUG u rows sel out) = Raise e
  | None => exists sel', snd (select_loop DEBUG u rows sel out) = Ok sel'
  end.
Proof.
  revert sel out. induction rows as [|[i x] rows IH]; intros sel out.
  - cbn. eauto.
  - cbn [map snd first_raise select_loop].
    rewrite (score_qna_closed u x).
    destruct (parse_keywords (row_keywords x)) as [pk|e]; cbn [bind];
      [|reflexivity].
    apply IH.
Qed.

(** What the loop prints: in debug mode the lines of the rows before the
    first row on which the scorer raises, and nothing without the flag. *)
Lemma select_loop_out u rows sel out :
  fst (select_loop DEBUG u rows sel out)
  = out ++ (if DEBUG then debug_lines u (map snd rows) else []).
Proof.
  revert sel out. induction rows as [|[i x] rows IH]; intros sel out.
  - cbn. destruct DEBUG; rewrite app_nil_r; reflexivity.
  - cbn [map snd debug_lines select_loop].
    destruct (score_qna u x) as [[s d]|e].
    + rewrite IH. unfold debug_line. destruct DEBUG.
      * rewrite <- app_assoc. reflexivity.
      * reflexivity.
    + cbn [fst]. destruct DEBUG; rewrite app_nil_r; reflexivity.
Qed.

Lemma select_best_inv u qnas sel :
  snd (select_best DEBUG u qnas) = Ok sel -> selection_inv u qnas sel.
Proof.
  unfold select_best. intros H.
  apply (select_loop_inv u qnas [] selection_init [] sel H).
  apply selection_inv_init.
Qed.

Lemma select_best_raise u qnas :
  match first_raise qnas with
  | Some e => snd (select_best DEBUG u qnas) = Raise e
  | None =>
      exists sel, snd (select_best DEBUG u qnas) = Ok sel
                  /\ selection_inv u qnas sel
  end.
Proof.
  pose proof (select_loop_raise u (enumerate_from 0 qnas) selection_init [])
    as H.
  rewrite map_snd_enumerate_from in H. fold (select_best DEBUG u qnas) in H.
  destruct (first_raise qnas); [exact H|].
  destruct H as [sel H]. exists sel. split; [exact H|].
  apply select_best_inv. exact H.
Qed.

Lemma select_best_out u qnas :
  fst (select_best DEBUG u qnas) = if DEBUG then debug_lines u qnas else [].
Proof.
  unfold select_best. rewrite select_loop_out, map_snd_enumerate_from.
  reflexivity.
Qed.

(** The three variables of the loop are assigned together. *)
Lemma selection_inv_details u qnas sel :
  selection_inv u qnas sel ->
  match best_row sel with
  | Some (k, row) =>
      exists d, score_qna u row = Ok (best_score sel, d)
                /\ best_details sel = Some d
  | None => best_details sel = None
  end.
Proof.
  intros (_ & _ & Hbest).
  destruct (best_row sel) as [[k row]|]; apply Hbest.
Qed.

(** Every row of a list on which the loop ends without an exception is
    scored. *)
Lemma selection_inv_scored u qnas sel r :
  selection_inv u qnas sel -> In r qnas -> scored u r.
Proof.
  intros (Hle & _) Hin. apply list_elem_of_In, list_elem_of_lookup in Hin as [j Hj].
  apply (Hle j r Hj).
Qed.

(** The row the loop selects: where it is, what it scores, and that it is
    the first row with the greatest score. *)
Lemma selection_inv_first_max u qnas sel k row :
  selection_inv u qnas sel ->
  best_row sel = Some (k, row) ->
  qnas !! k = Some row
  /\ best_score sel = score_of u row
  /\ (forall j r, qnas !! j = Some r -> score_of u r <= score_of u row)
  /\ (forall j r, (j < k)%nat -> qnas !! j = Some r ->
                  score_of u r < score_of u row).
Proof.
  intros (Hle & _ & Hbest) Hk. rewrite Hk in Hbest.
  destruct Hbest as (Hlk & Hsc & _ & _ & Hearly). rewrite Hsc in *.
  split; [exact Hlk|]. split; [reflexivity|]. split; [|exact Hearly].
  intros j r Hj. apply (Hle j r Hj).
Qed.

(** C7. The loop replaces the running best on a strictly greater score
    only.  When the loop ends (no scoring raises), every row has been
    scored, the row it selects attains the greatest score of the list and
    every row before it scores strictly less; so of two rows with the same
    score the later one is never selected. *)
Theorem select_best_first_max (u : str) (qnas : list QnaRow) (sel : Selection) :
  snd (select_best DEBUG u qnas) = Ok sel ->
  (forall r, In r qnas -> scored u r)
  /\ (forall k row,
        best_row sel = Some (k, row) ->
        qnas !! k = Some row
        /\ best_score sel = score_of u row
        /\ (forall j r, qnas !! j = Some r -> score_of u r <= score_of u row)
        /\ (forall j r, (j < k)%nat -> qnas !! j = Some r ->
                        score_of u r < score_of u row))
  /\ (forall i j ri rj,
        (i < j)%nat -> qnas !! i = Some ri -> qnas !! j = Some rj ->
        score_of u ri = score_of u rj ->
        best_row sel <> Some (j, rj)).
Proof.
  intros Hsel. pose proof (select_best_inv u qnas sel Hsel) as Hinv.
  split; [|split].
  - intros r Hin. apply (selection_inv_scored u qnas sel r Hinv Hin).
  - intros k row Hk. apply (selection_inv_first_max u qnas sel k row Hinv Hk).
  - intros i j ri rj Hij Hi Hj Heq Hk.
    destruct (selection_inv_first_max u qnas sel j rj Hinv Hk)
      as (_ & _ & _ & Hearly).
    specialize (Hearly i ri Hij Hi). lia.
Qed.

End SelectorProps.

Section MatchRuleProps.

Context {lib : PyLib}.

(** The claim's condition for a match, on the details of the best row. *)
Lemma decide_matched_spec d :
  decide_matched d = true <->
  (exact d = true
   \/ (0 < List.length (matched_keywords d) + List.length (matched_regex d))%nat
   \/ (SIMILARITY_MIN_FOR_MATCH <=? ratio d)%float = true).
Proof.
  unfold decide_matched. rewrite !orb_true_iff, Nat.ltb_lt. tauto.
Qed.

(** The debug flag changes what is printed, not what is selected. *)
Lemma select_loop_debug u rows sel o1 o0 :
  snd (select_loop true u rows sel o1) = snd (select_loop false u rows sel o0).
Proof.
  revert sel o1 o0. induction rows as [|[i x] rows IH]; intros sel o1 o0;
    [reflexivity|].
  cbn [select_loop]. destruct (score_qna u x) as [[s d]|e]; [|reflexivity].
  apply IH.
Qed.

Lemma select_best_debug u qnas b1 b0 :
  snd (select_best b1 u qnas) = snd (select_best b0 u qnas).
Proof.
  unfold select_best.
  destruct b1, b0; try reflexivity;
    [|symmetry]; apply select_loop_debug.
Qed.

(** [match_rule] case by case: an unknown bot, a bot without candidates, a
    scoring that raises, and the end of the loop with or without a selected
    row. *)
Lemma match_rule_cases DEBUG db slug msg :
  match fetch_bot_by_slug db slug with
  | None =>
      match_rule DEBUG db slug msg
      = ([], Returned (list_to_map
                         (no_match_dict (VStr (py "Bot not found.")) 0)))
  | Some bot =>
      match fetch_qna db (bot_id bot) with
      | [] =>
          match_rule DEBUG db slug msg
          = ([], Returned
                   (list_to_map
                      (no_match_dict (text_value (bot_fallback_message bot)) 0)))
      | qnas =>
          fst (match_rule DEBUG db slug msg)
          = (if DEBUG then debug_lines (normalize_text msg) qnas else [])
          /\ match first_raise qnas with
             | Some e => snd (match_rule DEBUG db slug msg) = Raised e
             | None =>
                 exists sel,
                   snd (select_best DEBUG (normalize_text msg) qnas) = Ok sel
                   /\ selection_inv (normalize_text msg) qnas sel
                   /\ snd (match_rule DEBUG db slug msg)
                      = match best_row sel, best_details sel with
                        | Some (_, row), Some d =>
                            Returned
                              (if decide_matched d
                               then matched_dict DEBUG row
                                      (Z.max 0 (best_score sel)) d
                               else unmatched_dict DEBUG bot
                                      (Z.max 0 (best_score sel)) d)
                        | _, _ => Raised TypeError
                        end
             end
      end
  end.
Proof.
  unfold match_rule.
  destruct (fetch_bot_by_slug db slug) as [bot|]; [|reflexivity].
  destruct (fetch_qna db (bot_id bot)) as [|q qs]; [reflexivity|].
  pose proof (select_best_out DEBUG (normalize_text msg) (q :: qs)) as Hout.
  pose proof (select_best_raise DEBUG (normalize_text msg) (q :: qs)) as Hr.
  destruct (select_best DEBUG (normalize_text msg) (q :: qs)) as [out [sel|e]].
  - cbn [fst snd] in Hout, Hr. subst out.
    destruct (first_raise (q :: qs)) as [e|]; [discriminate Hr|].
    destruct Hr as (sel' & Hs & Hinv). injection Hs as <-.
    split.
    + destruct (best_details sel) as [d|]; [|reflexivity].
      destruct (negb (decide_matched d)); [reflexivity|].
      destruct (best_row sel) as [[k row]|]; reflexivity.
    + exists sel. split; [reflexivity|]. split; [exact Hinv|].
      pose proof (selection_inv_details _ _ _ Hinv) as Hd.
      destruct (best_row sel) as [[k row]|].
      * destruct Hd as (d & _ & ->). cbn [snd].
        destruct (decide_matched d); reflexivity.
      * rewrite Hd. reflexivity.
  - cbn [fst snd] in Hout, Hr. subst out.
    destruct (first_raise (q :: qs)) as [e'|].
    + injection Hr as ->. split; reflexivity.
    + destruct Hr as (sel' & Hs & _). discriminate Hs.
Qed.

(** C2. When the loop ends with a selected row, the result reports a match
    exactly when the details of that row have [exact] set, or at least one
    matched phrase or matched pattern, or a similarity ratio of 0.55 or
    more; otherwise the result has [matched] false and the fallback message
    of the bot as its answer. *)
Theorem match_rule_matched_iff (DEBUG : bool) (db : Db) (slug msg : str)
    (bot : BotRow) (sel : Selection) (k : nat) (row : QnaRow)
    (s : Z) (d : ScoreDetail) :
  fetch_bot_by_slug db slug = Some bot ->
  snd (select_best DEBUG (normalize_text msg) (fetch_qna db (bot_id bot)))
  = Ok sel ->
  best_row sel = Some (k, row) ->
  score_qna (normalize_text msg) row = Ok (s, d) ->
  let hit :=
    exact d = true
    \/ (0 < List.length (matched_keywords d)
            + List.length (matched_regex d))%nat
    \/ (SIMILARITY_MIN_FOR_MATCH <=? ratio d)%float = true in
  exists r : gmap string Value,
    snd (match_rule DEBUG db slug msg) = Returned r
    /\ (r !! "matched"%string = Some (VBool true) <-> hit)
    /\ (~ hit ->
        r !! "matched"%string = Some (VBool false)
        /\ r !! "answer"%string
           = Some (text_value (bot_fallback_message bot))).
Proof.
  intros Hbot Hsel Hrow Hsc hit.
  pose proof (match_rule_cases DEBUG db slug msg) as Hc. rewrite Hbot in Hc.
  destruct (fetch_qna db (bot_id bot)) as [|q qs] eqn:Eq.
  { cbn in Hsel. injection Hsel as <-. discriminate Hrow. }
  destruct Hc as [_ Hc].
  pose proof (select_best_raise DEBUG (normalize_text msg) (q :: qs)) as Hr.
  destruct (first_raise (q :: qs)) as [e|]; [congruence|]. clear Hr.
  destruct Hc as (sel' & Hs' & Hinv & Hret).
  assert (sel' = sel) by congruence. subst sel'.
  pose proof (selection_inv_details _ _ _ Hinv) as Hd.
  rewrite Hrow in Hd, Hret. destruct Hd as (d' & Hsc' & Hd).
  assert (d' = d) by congruence. subst d'.
  rewrite Hd in Hret. rewrite Hret.
  pose proof (decide_matched_spec d) as Hspec. fold hit in Hspec.
  eexists. split; [reflexivity|].
  destruct (decide_matched d) eqn:E.
  - assert (Hh : hit) by (apply Hspec; reflexivity).
    split; [|tauto]. split; [intros _; exact Hh|]. intros _.
    destruct DEBUG; reflexivity.
  - assert (Hh : ~ hit) by (intros H; apply Hspec in H; discriminate).
    split.
    + split; [|tauto]. intros H. exfalso. revert H.
      destruct DEBUG; discriminate.
    + intros _. split; destruct DEBUG; reflexivity.
Qed.

End MatchRuleProps.

Section DebugAndConfidence.

Context {lib : PyLib}.

Lemma list_to_map_no_detail (l : list (string * Value)) key v :
  Forall (fun kv => is_detail (snd kv) = false) l ->
  (list_to_map l : gmap string Value) !! key = Some v ->
  is_detail v = false.
Proof.
  intros Hl H. apply elem_of_list_to_map_2 in H.
  rewrite Forall_forall in Hl. apply (Hl (key, v) H).
Qed.

Lemma text_value_no_detail t : is_detail (text_value t) = false.
Proof. destruct t; reflexivity. Qed.

(** The shapes of a returned dict: an unknown bot, a bot without candidates,
    and a selected row that is a match or not. *)
Lemma match_rule_returned_cases DEBUG db slug msg r :
  snd (match_rule DEBUG db slug msg) = Returned r ->
  (fetch_bot_by_slug db slug = None
   /\ r = list_to_map (no_match_dict (VStr (py "Bot not found.")) 0))
  \/ (exists bot,
        fetch_bot_by_slug db slug = Some bot
        /\ fetch_qna db (bot_id bot) = []
        /\ r = list_to_map
                 (no_match_dict (text_value (bot_fallback_message bot)) 0))
  \/ (exists bot sel k row d,
        fetch_bot_by_slug db slug = Some bot
        /\ first_raise (fetch_qna db (bot_id bot)) = None
        /\ snd (select_best DEBUG (normalize_text msg)
                  (fetch_qna db (bot_id bot))) = Ok sel
        /\ selection_inv (normalize_text msg) (fetch_qna db (bot_id bot)) sel
        /\ fetch_qna db (bot_id bot) !! k = Some row
        /\ best_row sel = Some (k, row)
        /\ score_qna (normalize_text msg) row
           = Ok (score_of (normalize_text msg) row, d)
        /\ let conf := Z.max 0 (score_of (normalize_text msg) row) in
           r = if decide_matched d
               then matched_dict DEBUG row conf d
               else unmatched_dict DEBUG bot conf d).
Proof.
  intros Hret.
  pose proof (match_rule_cases DEBUG db slug msg) as Hc.
  destruct (fetch_bot_by_slug db slug) as [bot|] eqn:Hbot.
  2:{ left. split; [reflexivity|]. rewrite Hc in Hret. cbn [snd] in Hret.
      congruence. }
  right. destruct (fetch_qna db (bot_id bot)) as [|q qs] eqn:Eq.
  { left. exists bot. split; [reflexivity|]. split; [exact Eq|].
    rewrite Hc in Hret. cbn [snd] in Hret. congruence. }
  right. destruct Hc as [_ Hc].
  destruct (first_raise (q :: qs)) as [e|] eqn:Ef; [congruence|].
  destruct Hc as (sel & Hs & Hinv & Hm). rewrite Hm in Hret.
  pose proof (selection_inv_details _ _ _ Hinv) as Hd.
  destruct (best_row sel) as [[k row]|] eqn:Hrow.
  2:{ discriminate Hret. }
  destruct Hd as (d & Hsc & Hd). rewrite Hd in Hret.
  destruct (selection_inv_first_max _ _ _ k row Hinv Hrow) as (Hk & Hbs & _).
  exists bot, sel, k, row, d. rewrite Eq.
  split; [reflexivity|]. split; [exact Ef|]. split; [exact Hs|].
  split; [exact Hinv|]. split; [exact Hk|]. split; [exact Hrow|].
  split; [rewrite <- Hbs; exact Hsc|].
  cbn zeta. rewrite <- Hbs. congruence.
Qed.

(** The confidence of a returned result: 0 for an unknown bot and for a bot
    without candidates, otherwise the greatest score of the candidates,
    clamped at 0. *)
Lemma match_rule_confidence_returned DEBUG db slug msg r :
  snd (match_rule DEBUG db slug msg) = Returned r ->
  exists conf : Z,
    r !! "confidence"%string = Some (VInt conf)
    /\ 0 <= conf
    /\ match fetch_bot_by_slug db slug with
       | None => conf = 0
       | Some bot =>
           match fetch_qna db (bot_id bot) with
           | [] => conf = 0
           | qnas =>
               exists k row,
                 qnas !! k = Some row
                 /\ (forall r', r' ∈ qnas ->
                       scored (normalize_text msg) r'
                       /\ score_of (normalize_text msg) r'
                          <= score_of (normalize_text msg) row)
                 /\ conf = Z.max 0 (score_of (normalize_text msg) row)
           end
       end.
Proof.
  intros Hret.
  destruct (match_rule_returned_cases DEBUG db slug msg r Hret)
    as [[Hb ->]|[(bot & Hb & Hq & ->)
                |(bot & sel & k & row & d & Hb & _ & _ & Hinv & Hk & Hrow & _ & Hr)]];
    rewrite Hb.
  - exists 0. split; [reflexivity|]. split; [lia | reflexivity].
  - rewrite Hq. exists 0. split; [reflexivity|]. split; [lia | reflexivity].
  - destruct (fetch_qna db (bot_id bot)) as [|q qs] eqn:Eq; [discriminate Hk|].
    cbn zeta in Hr.
    exists (Z.max 0 (score_of (normalize_text msg) row)).
    split; [|split; [lia|]].
    + subst r. destruct (decide_matched d); destruct DEBUG; reflexivity.
    + exists k, row. split; [exact Hk|]. split; [|reflexivity].
      intros r' Hr'. split.
      * apply (selection_inv_scored _ _ _ r' Hinv). apply list_elem_of_In. exact Hr'.
      * apply list_elem_of_lookup in Hr' as [j Hj].
        destruct (selection_inv_first_max _ _ _ k row Hinv Hrow)
          as (_ & _ & Hmax & _).
        apply (Hmax j r' Hj).
Qed.

(** The key [debug] read as the claim reads a field: the score detail bound
    to the key, nothing when the key is missing or bound to [None]. *)
Lemma match_rule_debug_key_off db slug msg r :
  snd (match_rule false db slug msg) = Returned r ->
  (forall key v, r !! key = Some v -> is_detail v = false)
  /\ (r !! "matched"%string = Some (VBool true) -> r !! "debug"%string = None)
  /\ (r !! "debug"%string = None \/ r !! "debug"%string = Some VNone)
  /\ (r !! "debug"%string = Some VNone <->
      r !! "matched"%string = Some (VBool false)
      /\ exists bot, fetch_bot_by_slug db slug = Some bot
                     /\ fetch_qna db (bot_id bot) <> []).
Proof.
  intros Hret.
  destruct (match_rule_returned_cases false db slug msg r Hret)
    as [[Hb ->]|[(bot & Hb & Hq & ->)
                |(bot & sel & k & row & d & Hb & _ & _ & _ & Hk & _ & _ & Hr)]].
  - split.
    { intros key v. apply list_to_map_no_detail. repeat constructor. }
    split; [discriminate|]. split; [left; reflexivity|].
    split; [discriminate|]. intros [_ [b [Hb' _]]]. congruence.
  - split.
    { intros key v. apply list_to_map_no_detail.
      repeat constructor. apply text_value_no_detail. }
    split; [discriminate|]. split; [left; reflexivity|].
    split; [discriminate|]. intros [_ [b [Hb' Hq']]].
    assert (b = bot) by congruence. subst b. congruence.
  - assert (Hne : fetch_qna db (bot_id bot) <> []).
    { intros E. rewrite E in Hk. discriminate Hk. }
    cbn zeta in Hr. destruct (decide_matched d).
    + subst r. split.
      { intros key v. apply list_to_map_no_detail. repeat constructor. }
      split; [reflexivity|]. split; [left; reflexivity|].
      split; [discriminate|]. intros [H _]. discriminate H.
    + subst r. split.
      { intros key v. apply list_to_map_no_detail.
        repeat constructor. apply text_value_no_detail. }
      split; [discriminate|]. split; [right; reflexivity|].
      split; [|reflexivity]. intros _. split; [reflexivity|].
      exists bot. split; [exact Hb | exact Hne].
Qed.

(** C5. Without the debug flag the score detail is never emitted: nothing
    is printed, and in the dict returned, for a match and for no match, the
    field [debug] holds no score detail (the key is missing, or it is bound
    to [None], which is how the result of a selected row that is no match
    has it) and no other key is bound to a score detail. *)
Theorem match_rule_debug_off (db : Db) (slug msg : str) (r : gmap string Value) :
  snd (match_rule false db slug msg) = Returned r ->
  fst (match_rule false db slug msg) = []
  /\ (r !! "debug"%string = None \/ r !! "debug"%string = Some VNone)
  /\ (forall key v, r !! key = Some v -> is_detail v = false)
  /\ (r !! "matched"%string = Some (VBool true) -> r !! "debug"%string = None)
  /\ (r !! "debug"%string = Some VNone <->
      r !! "matched"%string = Some (VBool false)
      /\ exists bot, fetch_bot_by_slug db slug = Some bot
                     /\ fetch_qna db (bot_id bot) <> []).
Proof.
  intros Hret.
  destruct (match_rule_debug_key_off db slug msg r Hret) as (H1 & H2 & H3 & H4).
  split; [|tauto].
  pose proof (match_rule_cases false db slug msg) as Hc.
  destruct (fetch_bot_by_slug db slug) as [bot|]; [|rewrite Hc; reflexivity].
  destruct (fetch_qna db (bot_id bot)) as [|q qs]; [rewrite Hc; reflexivity|].
  apply Hc.
Qed.

End DebugAndConfidence.

(** ** Storage collaborator: the order of the candidates *)

Lemma qna_order_total a b : qna_order a b = false -> qna_order b a = true.
Proof.
  unfold qna_order.
  destruct (row_priority a) as [p|], (row_priority b) as [q|]; try congruence.
  - destruct (q <? p) eqn:E1; [discriminate|].
    destruct (p <? q) eqn:E2; [reflexivity|].
    intros H. apply Z.leb_gt in H. apply Z.leb_le. lia.
  - intros H. apply Z.leb_gt in H. apply Z.leb_le. lia.
Qed.

Lemma qna_order_trans a b c :
  qna_order a b = true -> qna_order b c = true -> qna_order a c = true.
Proof.
  unfold qna_order.
  destruct (row_priority a) as [p|], (row_priority b) as [q|],
    (row_priority c) as [r|]; try congruence.
  - destruct (q <? p) eqn:E1, (r <? q) eqn:E2, (r <? p) eqn:E3,
      (p <? q) eqn:E4, (q <? r) eqn:E5, (p <? r) eqn:E6;
      try congruence; lia.
  - lia.
Qed.

Lemma insert_row_perm r l : Permutation (insert_row r l) (r :: l).
Proof.
  induction l as [|x l IH]; simpl; [reflexivity|].
  destruct (qna_order r x); [reflexivity|].
  rewrite IH. apply perm_swap.
Qed.

Lemma order_rows_perm l : Permutation (order_rows l) l.
Proof.
  induction l as [|r l IH]; simpl; [reflexivity|].
  rewrite insert_row_perm, IH. reflexivity.
Qed.

Lemma insert_row_sorted r l :
  Sorted ordered l -> Sorted ordered (insert_row r l).
Proof.
  induction l as [|x l IH]; intros Hs; simpl.
  - repeat constructor.
  - destruct (qna_order r x) eqn:E.
    + constructor; [exact Hs|]. constructor. exact E.
    + inversion Hs as [|? ? Hl Hhd]; subst.
      constructor; [apply IH; exact Hl|].
      destruct l as [|y l]; simpl.
      * constructor. apply qna_order_total. exact E.
      * destruct (qna_order r y).
        -- constructor. apply qna_order_total. exact E.
        -- inversion Hhd; subst. constructor. assumption.
Qed.

Lemma order_rows_sorted l : Sorted ordered (order_rows l).
Proof.
  induction l as [|r l IH]; simpl; [constructor|].
  apply insert_row_sorted. exact IH.
Qed.

(** [fetch_qna] supplies the rows of the bot, each once, by descending
    priority and then ascending id: every row is in order with every later
    one. *)
Lemma fetch_qna_sorted db bid :
  StronglySorted ordered (fetch_qna db bid)
  /\ Permutation (fetch_qna db bid)
       (map snd (List.filter (fun r => fst r =? bid) (qna db))).
Proof.
  unfold fetch_qna. split.
  - apply Sorted_StronglySorted.
    + intros a b c. apply qna_order_trans.
    + apply order_rows_sorted.
  - apply order_rows_perm.
Qed.

(** ** The engine on the sample data, with the reference library *)

Lemma match_rule_matched_iff_witness :
  exists r : gmap string Value,
    snd (@match_rule RefLib.ref_lib false (cafe_db [hours_row (Some 10)])
           (py "cozy-cafe") (py "What time do you open?")) = Returned r
    /\ r !! "matched"%string = Some (VBool true).
Proof.
  pose (d := {| matched_keywords := [py "open"; py "time"]; matched_regex := [];
                exact := false; ratio := 0x1.3cf3cf3cf3cf4p-1%float;
                priority := 10 |}).
  destruct (@match_rule_matched_iff RefLib.ref_lib false
              (cafe_db [hours_row (Some 10)]) (py "cozy-cafe")
              (py "What time do you open?") cafe_bot
              {| best_row := Some (0%nat, hours_row (Some 10));
                 best_score := 63; best_details := Some d |}
              0%nat (hours_row (Some 10)) 63 d)
    as (r & Hr & Hiff & _).
  - reflexivity.
  - vm_compute. reflexivity.
  - reflexivity.
  - vm_compute. reflexivity.
  - exists r. split; [exact Hr|]. apply Hiff. right. left. vm_compute. lia.
Defined.

Lemma select_best_first_max_witness :
  let u := normalize_text (py "wifi password please") in
  let qnas := [hours_row (Some 10); wifi_row 2 (Some 5); wifi_row 3 (Some 5)] in
  @score_of RefLib.ref_lib u (wifi_row 2 (Some 5))
  = @score_of RefLib.ref_lib u (wifi_row 3 (Some 5))
  /\ exists sel,
       snd (@select_best RefLib.ref_lib false u qnas) = Ok sel
       /\ best_row sel = Some (1%nat, wifi_row 2 (Some 5))
       /\ best_row sel <> Some (2%nat, wifi_row 3 (Some 5)).
Proof.
  intros u qnas. split; [vm_compute; reflexivity|].
  eexists. split; [vm_compute; reflexivity|]. split; [reflexivity|].
  refine (proj2 (proj2 (@select_best_first_max RefLib.ref_lib false u qnas _ _))
            1%nat 2%nat (wifi_row 2 (Some 5)) (wifi_row 3 (Some 5)) _ _ _ _).
  - vm_compute. reflexivity.
  - lia.
  - reflexivity.
  - reflexivity.
  - vm_compute. reflexivity.
Defined.

Lemma match_rule_debug_off_witness :
  let o := snd (@match_rule RefLib.ref_lib false (cafe_db [hours_row (Some 10)])
                  (py "cozy-cafe") (py "xyz")) in
  o = Returned (result_of o)
  /\ (result_of o !! "debug"%string = None
      \/ result_of o !! "debug"%string = Some VNone)
  /\ (forall key v, result_of o !! key = Some v -> is_detail v = false).
Proof.
  intros o.
  assert (H : o = Returned (result_of o)) by (vm_compute; reflexivity).
  split; [exact H|].
  destruct (@match_rule_debug_off RefLib.ref_lib (cafe_db [hours_row (Some 10)])
              (py "cozy-cafe") (py "xyz") (result_of o) H)
    as (_ & H1 & H2 & _).
  split; [exact H1 | exact H2].
Defined.

(** The two dicts that [match_rule] returns after scoring differ in their
    keys when the debug flag is off: the dict of a match has no key [debug],
    the dict of a selected row that is no match has the key, bound to
    [None].  The call for the message "xyz" returns such a dict. *)
Lemma unmatched_result_has_debug_key :
  let o := snd (@match_rule RefLib.ref_lib false (cafe_db [hours_row (Some 10)])
                  (py "cozy-cafe") (py "xyz")) in
  o = Returned (result_of o)
  /\ result_of o !! "matched"%string = Some (VBool false)
  /\ result_of o !! "debug"%string = Some VNone
  /\ ~ (forall (lib : PyLib) (db : Db) (slug msg : str)
               (r : gmap string Value),
          snd (match_rule false db slug msg) = Returned r ->
          r !! "debug"%string = None).
Proof.
  intros o.
  assert (Ho : o = Returned (result_of o)) by (vm_compute; reflexivity).
  assert (Hd : result_of o !! "debug"%string = Some VNone)
    by (vm_compute; reflexivity).
  split; [exact Ho|]. split; [vm_compute; reflexivity|]. split; [exact Hd|].
  intros H.
  specialize (H RefLib.ref_lib (cafe_db [hours_row (Some 10)])
                (py "cozy-cafe") (py "xyz") (result_of o) Ho).
  rewrite H in Hd. discriminate Hd.
Qed.

(** C9, at a candidate whose priority is minus 10^9.  Its score does not
    exceed the initial value of the running best, so no row is selected and
    the call raises where the claim has a result with confidence 0. *)
Theorem match_rule_raises_below_initial_best :
  let db := cafe_db [hours_row (Some (- 10 ^ 9))] in
  fetch_qna db 1 = [hours_row (Some (- 10 ^ 9))]
  /\ (exists d, @score_qna RefLib.ref_lib (normalize_text (py "hello"))
                  (hours_row (Some (- 10 ^ 9))) = Ok (7 - 2 * 10 ^ 9, d))
  /\ snd (@match_rule RefLib.ref_lib false db (py "cozy-cafe") (py "hello"))
     = Raised TypeError.
Proof.
  cbn zeta. split; [vm_compute; reflexivity|].
  split; [eexists; vm_compute; reflexivity | vm_compute; reflexivity].
Qed.

(** The message without the question mark does not get the exact-match bonus
    of the question with it: the two normal forms differ by the space that
    replaces the question mark. *)
Example exact_bonus_missed :
  (exists s d, @score_qna RefLib.ref_lib
                 (normalize_text (py "What are your hours"))
                 (hours_row (Some 10)) = Ok (s, d)
               /\ exact d = false)
  /\ (exists s d, @score_qna RefLib.ref_lib
                    (normalize_text (py "What are your hours?"))
                    (hours_row (Some 10)) = Ok (s, d)
                  /\ exact d = true).
Proof.
  split; eexists; eexists; (split; [vm_compute; reflexivity | reflexivity]).
Qed.

(** A [re:] token is compiled with [IGNORECASE]; [^hours$] finds a match in
    the text "hours" only. *)
Example parse_re_hours :
  @parse_keywords RefLib.ref_lib (Some (py "re:^hours$, Free WiFi ,/OPEN/"))
  = Ok ([py "free wifi"],
        [{| pattern := py "^hours$"; ignorecase := true |};
         {| pattern := py "OPEN"; ignorecase := false |}])
  /\ @search RefLib.ref_lib {| pattern := py "^hours$"; ignorecase := true |}
       (py "hours") = true
  /\ @search RefLib.ref_lib {| pattern := py "^hours$"; ignorecase := true |}
       (py "opening hours") = false.
Proof. vm_compute. repeat split. Qed.

(** The end-to-end examples of the sample data. *)
Example score_hours_example :
  @score_qna RefLib.ref_lib (normalize_text (py "What time do you open?"))
    (hours_row (Some 10))
  = Ok (63, {| matched_keywords := [py "open"; py "time"]; matched_regex := [];
               exact := false; ratio := 0x1.3cf3cf3cf3cf4p-1%float;
               priority := 10 |}).
Proof. vm_compute. reflexivity. Qed.

Example ref_ratio_abcd :
  @SequenceMatcher_ratio RefLib.ref_lib (py "abcd") (py "bcde") = 0.75%float.
Proof. vm_compute. reflexivity. Qed.

Example ref_search_hours :
  RefLib.ref_search (py "^hours$") true (py "hours") = true
  /\ RefLib.ref_search (py "^hours$") true (py "opening hours") = false
  /\ RefLib.ref_search (py "wi-?fi|internet") true (py "is WIFI free") = true
  /\ RefLib.ref_search (py "a{2,3}b") true (py "xaab") = true
  /\ RefLib.ref_compile_exn (py "(open") true = Some re_error
  /\ RefLib.ref_compile_exn (py "*open") true = Some re_error
  /\ RefLib.ref_compile_exn (py "a{99999999999}") true = Some OverflowError.
Proof. vm_compute. repeat split. Qed.

(** A keyword spec whose pattern has a repetition count that is too large:
    the exception of [re.compile] leaves the parser, the scorer and
    [match_rule]. *)
Example match_rule_raises_overflow :
  let row := with_keywords (hours_row (Some 10))
               (Some (py "hours,re:a{99999999999}")) in
  @parse_keywords RefLib.ref_lib (row_keywords row) = Raise OverflowError
  /\ @score_qna RefLib.ref_lib (py "hours") row = Raise OverflowError
  /\ @match_rule RefLib.ref_lib true (cafe_db [row]) (py "cozy-cafe")
       (py "hours")
     = ([], Raised OverflowError).
Proof. vm_compute. repeat split. Qed.

(** * Further properties of the engine *)

(** ** Normalizer and tokenizer *)

Lemma lstrip_head s c : head (lstrip s) = Some c -> isspace c = false.
Proof.
  induction s as [|x s IH]; simpl; [discriminate|].
  destruct (isspace x) eqn:E; [exact IH|]. simpl. intros [= <-]. exact E.
Qed.

Lemma last_rev_head (l : str) : last (rev l) = head l.
Proof. destruct l as [|a l]; [reflexivity|]. simpl. apply last_snoc. Qed.

Lemma strip_is_trimmed s : is_trimmed (strip s) = true.
Proof.
  unfold is_trimmed, strip.
  destruct (head (rstrip (lstrip s))) as [a|] eqn:Eh; [|reflexivity].
  destruct (last (rstrip (lstrip s))) as [b|] eqn:El; [|reflexivity].
  apply andb_true_iff. split; apply negb_true_iff.
  - destruct (rstrip_prefix (lstrip s)) as [post Hp].
    apply (lstrip_head s). rewrite Hp.
    destruct (rstrip (lstrip s)); [discriminate|exact Eh].
  - unfold rstrip in El. rewrite last_rev_head in El.
    apply (lstrip_head _ _ El).
Qed.

(** X1. Normalizing settles after two rounds: the second round only trims
    the output of the first, its output is trimmed, and a third round
    changes nothing. *)
Theorem normalize_text_settles (x : str) :
  normalize_text (normalize_text x) = strip (normalize_text x)
  /\ is_trimmed (normalize_text (normalize_text x)) = true
  /\ normalize_text (normalize_text (normalize_text x))
     = normalize_text (normalize_text x).
Proof.
  assert (H2 : normalize_text (normalize_text x) = strip (normalize_text x))
    by apply normalize_text_twice.
  assert (Ht : is_trimmed (normalize_text (normalize_text x)) = true)
    by (rewrite H2; apply strip_is_trimmed).
  split; [exact H2|]. split; [exact Ht|].
  rewrite (normalize_text_twice (normalize_text x)).
  apply strip_trimmed. exact Ht.
Qed.

Lemma split_char_tokens c t : Forall (fun tok => ~ In c tok) (split_char c t).
Proof.
  induction t as [|x t IH]; simpl.
  - constructor; [intros []|constructor].
  - destruct (eqb_char c x) eqn:E.
    + constructor; [intros []|exact IH].
    + destruct (split_char c t) as [|h tl].
      * constructor; [|constructor]. intros [->|[]].
        rewrite eqb_char_refl in E. discriminate.
      * inversion IH as [|? ? Hh Htl]; subst. constructor; [|exact Htl].
        intros [->|H]; [rewrite eqb_char_refl in E; discriminate|].
        apply Hh. exact H.
Qed.

Lemma split_char_nonempty c t : split_char c t <> [].
Proof.
  destruct t as [|x t]; simpl; [discriminate|].
  destruct (eqb_char c x); [discriminate|].
  destruct (split_char c t); discriminate.
Qed.

(** Joining what [split] returns gives the string back. *)
Lemma join_split_char c t : join_char c (split_char c t) = t.
Proof.
  induction t as [|x t IH]; [reflexivity|]. simpl.
  destruct (eqb_char c x) eqn:E.
  - apply eqb_char_eq in E. subst x.
    pose proof (split_char_nonempty c t) as Hne.
    destruct (split_char c t) as [|h tl]; [congruence|].
    change (join_char c ([] :: h :: tl)) with ([] ++ c :: join_char c (h :: tl)).
    rewrite IH. reflexivity.
  - pose proof (split_char_nonempty c t) as Hne.
    destruct (split_char c t) as [|h tl]; [congruence|].
    destruct tl as [|h2 tl].
    + simpl in *. rewrite IH. reflexivity.
    + change (join_char c ((x :: h) :: h2 :: tl))
        with ((x :: h) ++ c :: join_char c (h2 :: tl)).
      change (join_char c (h :: h2 :: tl))
        with (h ++ c :: join_char c (h2 :: tl)) in IH.
      rewrite <- app_comm_cons. f_equal. exact IH.
Qed.

Lemma concat_split_char c t :
  concat (split_char c t) = List.filter (fun x => negb (eqb_char c x)) t.
Proof.
  induction t as [|x t IH]; [reflexivity|]. simpl.
  destruct (eqb_char c x) eqn:E; simpl.
  - exact IH.
  - pose proof (split_char_nonempty c t) as Hne.
    destruct (split_char c t) as [|h tl]; [congruence|].
    simpl in *. rewrite IH. reflexivity.
Qed.

Lemma concat_drop_empty (l : list str) :
  concat (List.filter (fun tok => negb (eqb_str tok [])) l) = concat l.
Proof.
  induction l as [|x l IH]; [reflexivity|]. simpl.
  destruct x as [|a x]; simpl; [exact IH|]. rewrite IH. reflexivity.
Qed.

(** X2. The tokens of a text are non-empty and hold no space, and together,
    in order, they are the text without its spaces: tokenizing loses spaces
    and nothing else. *)
Theorem tokenize_tokens (text : str) :
  Forall (fun tok => tok <> [] /\ ~ In " "%char tok) (tokenize text)
  /\ concat (tokenize text)
     = List.filter (fun c => negb (eqb_char " "%char c)) text.
Proof.
  unfold tokenize. split.
  - pose proof (split_char_tokens " "%char text) as H.
    induction H as [|tok l Ht _ IH]; simpl; [constructor|].
    destruct tok as [|a tok]; simpl; [exact IH|].
    constructor; [split; [discriminate|exact Ht]|exact IH].
  - rewrite concat_drop_empty. apply concat_split_char.
Qed.

(** ** Phrase matching and tokens *)

(** A phrase that is found occurs in the text. *)
Lemma phrase_in_text_substring text phrase :
  phrase_in_text text phrase = true -> is_substring text phrase.
Proof.
  intros H. unfold phrase_in_text in H.
  destruct phrase as [|x p]; [discriminate|].
  destruct (List.length (split_ws (x :: p)) =? 1)%nat.
  - apply search_word_spec in H as (pre & post & Ht & _).
    exists pre, post. exact Ht.
  - apply contains_spec. exact H.
Qed.

(** X3. A phrase is found only where it is: whenever [phrase_in_text] holds,
    the phrase is not empty, occurs in the text as a contiguous substring and
    is not longer than the text. *)
Theorem phrase_in_text_sound (text phrase : str) :
  phrase_in_text text phrase = true ->
  phrase <> []
  /\ is_substring text phrase
  /\ (List.length phrase <= List.length text)%nat.
Proof.
  intros H.
  assert (Hne : phrase <> []) by (destruct phrase; [discriminate H|discriminate]).
  pose proof (phrase_in_text_substring text phrase H) as Hsub.
  split; [exact Hne|]. split; [exact Hsub|].
  destruct Hsub as (pre & post & ->). rewrite !length_app. lia.
Qed.

Lemma phrase_in_text_sound_witness :
  is_substring (py "i have a cat") (py "cat").
Proof.
  apply (phrase_in_text_sound (py "i have a cat") (py "cat")). reflexivity.
Defined.

Lemma isword_not_space c : isword c = true -> isspace c = false.
Proof.
  destruct c as [[] [] [] [] [] [] [] []]; vm_compute; congruence.
Qed.

Lemma norm_char_word_or_space c :
  is_norm_char c = true -> isword c = false <-> c = " "%char.
Proof.
  destruct c as [[] [] [] [] [] [] [] []]; vm_compute; intros H;
    split; congruence.
Qed.

Lemma split_ws_go_word cur s :
  Forall (fun c => isword c = true) s ->
  cur <> [] \/ s <> [] ->
  split_ws_go cur s = [rev cur ++ s].
Proof.
  revert cur. induction s as [|c s IH]; intros cur Hw Hne.
  - simpl. rewrite app_nil_r. destruct cur; [destruct Hne; congruence|reflexivity].
  - inversion Hw as [|? ? Hc Hs]; subst. simpl.
    rewrite (isword_not_space c Hc).
    rewrite IH; [|exact Hs|left; discriminate].
    simpl. rewrite <- app_assoc. reflexivity.
Qed.

(** A non-empty phrase of word characters is one token. *)
Lemma split_ws_word p :
  p <> [] -> Forall (fun c => isword c = true) p -> split_ws p = [p].
Proof.
  intros Hne Hw. unfold split_ws.
  rewrite split_ws_go_word; [reflexivity|exact Hw|right; exact Hne].
Qed.

Lemma split_char_app c a s :
  split_char c (a ++ c :: s) = split_char c a ++ split_char c s.
Proof.
  induction a as [|x a IH]; simpl.
  - rewrite eqb_char_refl. reflexivity.
  - destruct (eqb_char c x); rewrite IH; [reflexivity|].
    pose proof (split_char_nonempty c a) as Hne.
    destruct (split_char c a); [congruence|reflexivity].
Qed.

Lemma join_char_cons c x l :
  l <> [] -> join_char c (x :: l) = x ++ c :: join_char c l.
Proof. destruct l; [congruence|reflexivity]. Qed.

Lemma join_char_middle c l1 p l2 :
  exists pre post,
    join_char c (l1 ++ p :: l2) = pre ++ p ++ post
    /\ (last pre = None \/ last pre = Some c)
    /\ (head post = None \/ head post = Some c).
Proof.
  induction l1 as [|x l1 (pre & post & E & Hpre & Hpost)].
  - destruct l2 as [|y l2].
    + exists [], []. simpl. rewrite app_nil_r. auto.
    + exists [], (c :: join_char c (y :: l2)). simpl. auto.
  - exists (x ++ c :: pre), post.
    change ((x :: l1) ++ p :: l2) with (x :: (l1 ++ p :: l2)).
    rewrite join_char_cons by (destruct l1; discriminate).
    rewrite E, <- app_assoc. split; [reflexivity|]. split; [|exact Hpost].
    right. rewrite last_app_cons, last_cons.
    destruct Hpre as [-> | ->]; reflexivity.
Qed.

(** The elements of [s.split(c)]: the substrings without [c] that are
    delimited on each side by an occurrence of [c] or by an end of [s]. *)
Lemma in_split_char c t p :
  In p (split_char c t) <->
  ~ In c p
  /\ exists pre post,
       t = pre ++ p ++ post
       /\ (last pre = None \/ last pre = Some c)
       /\ (head post = None \/ head post = Some c).
Proof.
  split.
  - intros Hin. split.
    + pose proof (split_char_tokens c t) as H.
      rewrite List.Forall_forall in H. apply (H p Hin).
    + apply in_split in Hin as (l1 & l2 & E).
      destruct (join_char_middle c l1 p l2) as (pre & post & Ej & H).
      exists pre, post. rewrite <- Ej, <- E, join_split_char. auto.
  - intros (Hc & pre & post & -> & Hpre & Hpost).
    assert (Hp : In p (split_char c (p ++ post))).
    { destruct Hpost as [Hpost|Hpost].
      - destruct post; [|discriminate]. rewrite app_nil_r.
        rewrite split_char_no_sep by exact Hc. left. reflexivity.
      - destruct post as [|y post]; [discriminate|]. injection Hpost as ->.
        rewrite split_char_app, split_char_no_sep by exact Hc.
        left. reflexivity. }
    destruct Hpre as [Hpre|Hpre].
    + destruct pre as [|y pre]; [exact Hp|].
      rewrite last_cons in Hpre. destruct (last pre); discriminate.
    + apply last_Some in Hpre as [pre' ->].
      rewrite <- app_assoc. cbn [app]. rewrite split_char_app.
      apply in_or_app. right. exact Hp.
Qed.

(** X4. On a normalized text, a non-empty keyword made of word characters
    matches exactly when it is one of the tokens of the text. *)
Theorem phrase_in_text_is_token (text phrase : str) :
  Forall (fun c => is_norm_char c = true) text ->
  phrase <> [] ->
  Forall (fun c => isword c = true) phrase ->
  (phrase_in_text text phrase = true <-> In phrase (tokenize text)).
Proof.
  intros Ht Hne Hw.
  assert (Hsp : ~ In " "%char phrase).
  { intros Hin. rewrite List.Forall_forall in Hw. apply Hw in Hin.
    discriminate Hin. }
  assert (Hhead : forall post, isword_opt (head (phrase ++ post)) = true).
  { intros post. destruct phrase as [|x p]; [congruence|].
    inversion Hw; subst. assumption. }
  assert (Hlast : forall pre, isword_opt (last (pre ++ phrase)) = true).
  { intros pre. destruct phrase as [|x p]; [congruence|].
    rewrite last_app_cons.
    destruct (last (x :: p)) as [z|] eqn:E.
    - apply last_Some in E as [l' E]. rewrite E in Hw.
      apply Forall_app in Hw as [_ Hw]. inversion Hw; subst. assumption.
    - rewrite last_cons in E. destruct (last p); discriminate. }
  assert (Hopt : forall o : option ascii,
             (forall y, o = Some y -> is_norm_char y = true) ->
             isword_opt o = false <-> (o = None \/ o = Some " "%char)).
  { intros [y|] Hy; simpl.
    - rewrite (norm_char_word_or_space y (Hy y eq_refl)). split.
      + intros ->. right. reflexivity.
      + intros [H|[= ->]]; [discriminate|reflexivity].
    - split; auto. }
  assert (Hiff : phrase_in_text text phrase = true
                 <-> whole_word_occurrence text phrase).
  { unfold phrase_in_text. rewrite split_ws_word by assumption.
    destruct phrase; [congruence|]. apply search_word_whole_word. }
  destruct Hiff as [Hfw Hbw].
  unfold tokenize. rewrite filter_In, in_split_char.
  rewrite List.Forall_forall in Ht.
  split.
  - intros H. apply Hfw in H as (pre & post & E & Hb1 & Hb2).
    split; [|destruct phrase; [congruence|reflexivity]].
    split; [exact Hsp|]. exists pre, post. split; [exact E|].
    unfold at_boundary in Hb1, Hb2. rewrite Hhead in Hb1. rewrite Hlast in Hb2.
    split.
    + apply Hopt.
      * intros y Hy. apply Ht. rewrite E. apply in_or_app. left.
        apply last_Some in Hy as [l' ->]. apply in_or_app. right. left.
        reflexivity.
      * destruct (isword_opt (last pre)); [discriminate|reflexivity].
    + apply Hopt.
      * intros y Hy. apply Ht. rewrite E. apply in_or_app. right.
        apply in_or_app. right. destruct post; [discriminate|].
        injection Hy as ->. left. reflexivity.
      * destruct (isword_opt (head post)); [discriminate|reflexivity].
  - intros [(_ & pre & post & E & Hpre & Hpost) _].
    apply Hbw. exists pre, post. split; [exact E|].
    unfold at_boundary. rewrite Hhead, Hlast.
    assert (H1 : isword_opt (last pre) = false).
    { apply Hopt; [|exact Hpre].
      intros y Hy. apply Ht. rewrite E. apply in_or_app. left.
      apply last_Some in Hy as [l' ->]. apply in_or_app. right. left.
      reflexivity. }
    assert (H2 : isword_opt (head post) = false).
    { apply Hopt; [|exact Hpost].
      intros y Hy. apply Ht. rewrite E. apply in_or_app. right.
      apply in_or_app. right. destruct post; [discriminate|].
      injection Hy as ->. left. reflexivity. }
    rewrite H1, H2. split; reflexivity.
Qed.

Lemma phrase_in_text_is_token_witness :
  In (py "wifi") (tokenize (normalize_text (py "Do you have WiFi?"))).
Proof.
  apply (phrase_in_text_is_token
           (normalize_text (py "Do you have WiFi?")) (py "wifi")).
  - apply normalize_text_chars.
  - discriminate.
  - repeat constructor.
  - reflexivity.
Defined.

(** ** Keyword spec parser: composition and well-formed output *)

Section ParserMore.

Context {lib : PyLib}.

(** The lists that an iteration is given are kept, and what the iteration
    adds does not depend on them. *)
Lemma parse_token_acc a b tok :
  parse_token (a, b) tok
  = bind (parse_token ([], []) tok)
         (fun r => Ok (a ++ fst r, b ++ snd r)).
Proof.
  rewrite !parse_token_spec.
  destruct (strip tok) as [|k kw]; [cbn; rewrite !app_nil_r; reflexivity|].
  cbn zeta.
  destruct (token_pattern (k :: kw)) as [[pat ic]|].
  - rewrite !try_append_spec.
    destruct (re_compile_exn pat ic) as [[]|]; cbn; rewrite ?app_nil_r;
      reflexivity.
  - destruct (re_prefixed (k :: kw) || slash_wrapped (k :: kw)); cbn;
      rewrite ?app_nil_r; reflexivity.
Qed.

Lemma for_each_parse_token_acc l a b :
  for_each parse_token l (a, b)
  = bind (for_each parse_token l ([], []))
         (fun r => Ok (a ++ fst r, b ++ snd r)).
Proof.
  revert a b. induction l as [|tok l IH]; intros a b.
  - cbn. rewrite !app_nil_r. reflexivity.
  - cbn [for_each]. rewrite (parse_token_acc a b tok).
    destruct (parse_token ([], []) tok) as [[a1 b1]|e]; cbn [bind fst snd];
      [|reflexivity].
    rewrite (IH (a ++ a1) (b ++ b1)), (IH a1 b1).
    destruct (for_each parse_token l ([], [])) as [[a2 b2]|e]; cbn [bind fst snd];
      [|reflexivity].
    rewrite !app_assoc. reflexivity.
Qed.

(** X5. Parsing is compositional and keeps the order of the spec: the
    phrases and patterns of a comma-joined list of tokens are those of its
    first part followed by those of its second part; the parser raises on
    the list what it raises on the first part, or else what it raises on the
    second. *)
Theorem parse_keywords_app (l1 l2 : list str) :
  Forall no_comma (l1 ++ l2) ->
  parse_keywords (Some (join_comma (l1 ++ l2)))
  = bind (parse_keywords (Some (join_comma l1))) (fun r1 =>
    bind (parse_keywords (Some (join_comma l2))) (fun r2 =>
    Ok (fst r1 ++ fst r2, snd r1 ++ snd r2))).
Proof.
  intros Hl. pose proof Hl as Hl'. apply Forall_app in Hl' as [H1 H2].
  rewrite !parse_keywords_join by assumption.
  rewrite for_each_app.
  destruct (for_each parse_token l1 ([], [])) as [[a b]|e]; cbn [bind fst snd];
    [|reflexivity].
  apply for_each_parse_token_acc.
Qed.

Lemma lower_char_facts c :
  isspace (lower_char c) = isspace c
  /\ lower_char (lower_char c) = lower_char c
  /\ (lower_char c = ","%char -> c = ","%char).
Proof.
  destruct c as [[] [] [] [] [] [] [] []]; vm_compute;
    repeat split; congruence.
Qed.

Lemma is_trimmed_lower s : is_trimmed (lower s) = is_trimmed s.
Proof.
  unfold is_trimmed, lower.
  assert (Hl : last (map lower_char s) = option_map lower_char (last s)).
  { induction s as [|a s IH]; [reflexivity|].
    cbn [map]. rewrite !last_cons, IH. destruct (last s); reflexivity. }
  assert (Hh : head (map lower_char s) = option_map lower_char (head s))
    by (destruct s; reflexivity).
  rewrite Hh, Hl. destruct (head s) as [a|], (last s) as [b|]; try reflexivity.
  cbn. rewrite (proj1 (lower_char_facts a)), (proj1 (lower_char_facts b)).
  reflexivity.
Qed.

Lemma lower_lower s : lower (lower s) = lower s.
Proof.
  unfold lower. rewrite map_map. apply map_ext. intros c.
  apply (lower_char_facts c).
Qed.

Lemma lower_strip_wf raw :
  no_comma raw -> strip raw <> [] -> phrase_wf (lower (strip raw)).
Proof.
  intros Hc Hne. unfold phrase_wf. split; [|split; [|split]].
  - destruct (strip raw); [congruence|discriminate].
  - rewrite is_trimmed_lower. apply strip_is_trimmed.
  - apply lower_lower.
  - unfold no_comma, lower. intros Hin. apply in_map_iff in Hin as (c & Hl & Hin).
    apply (lower_char_facts c) in Hl. subst c. apply Hc.
    destruct (strip_infix raw) as (pre & post & E). rewrite E.
    apply in_or_app. right. apply in_or_app. left. exact Hin.
Qed.

Lemma parse_token_wf plain patterns raw plain' patterns' :
  no_comma raw ->
  parse_token (plain, patterns) raw = Ok (plain', patterns') ->
  Forall phrase_wf plain ->
  Forall (fun p => re_compile_exn (pattern p) (ignorecase p) = None) patterns ->
  Forall phrase_wf plain'
  /\ Forall (fun p => re_compile_exn (pattern p) (ignorecase p) = None)
            patterns'.
Proof.
  intros Hc E Ha Hb. rewrite parse_token_spec in E.
  destruct (strip raw) as [|k kw] eqn:Ek.
  { injection E as <- <-. split; assumption. }
  cbn zeta in E.
  destruct (token_pattern (k :: kw)) as [[pat ic]|].
  - rewrite try_append_spec in E.
    destruct (re_compile_exn pat ic) as [[]|] eqn:Ec; try discriminate E;
      injection E as <- <-.
    + split; assumption.
    + split; [exact Ha|]. apply Forall_app. split; [exact Hb|].
      constructor; [exact Ec | constructor].
  - destruct (re_prefixed (k :: kw) || slash_wrapped (k :: kw));
      injection E as <- <-; [split; assumption|].
    split; [|exact Hb]. apply Forall_app. split; [exact Ha|].
    constructor; [|constructor].
    change (phrase_wf (lower (k :: kw))). rewrite <- Ek.
    apply lower_strip_wf; [exact Hc|]. rewrite Ek. discriminate.
Qed.

Lemma for_each_parse_token_wf l acc acc' :
  Forall no_comma l ->
  for_each parse_token l acc = Ok acc' ->
  Forall phrase_wf (fst acc) ->
  Forall (fun p => re_compile_exn (pattern p) (ignorecase p) = None) (snd acc) ->
  Forall phrase_wf (fst acc')
  /\ Forall (fun p => re_compile_exn (pattern p) (ignorecase p) = None)
            (snd acc').
Proof.
  revert acc. induction l as [|raw l IH]; intros acc Hl E Ha Hb.
  - cbn in E. injection E as <-. split; assumption.
  - inversion Hl as [|? ? Hraw Hrest]; subst. cbn [for_each] in E.
    destruct (parse_token acc raw) as [[a1 b1]|e] eqn:E1; [|discriminate E].
    cbn [bind] in E. destruct acc as [a b].
    destruct (parse_token_wf a b raw a1 b1 Hraw E1 Ha Hb) as [Ha1 Hb1].
    apply (IH (a1, b1) Hrest E); assumption.
Qed.

(** X6. Whatever the keyword spec, every plain phrase that [parse_keywords]
    returns is non-empty, trimmed, lowercase and comma-free, and every
    pattern it returns is one that [re.compile] accepted with the flag it
    carries; and the exception that leaves the parser is never
    [re.error]. *)
Theorem parse_keywords_wf (keywords : option str) :
  match parse_keywords keywords with
  | Ok (plain, patterns) =>
      Forall phrase_wf plain
      /\ Forall (fun p => re_compile_exn (pattern p) (ignorecase p) = None)
                patterns
  | Raise e => e <> re_error
  end.
Proof.
  unfold parse_keywords.
  destruct keywords as [[|c s]|]; try (split; constructor).
  destruct (for_each parse_token (split_char "," (c :: s)) ([], []))
    as [[plain patterns]|e] eqn:E.
  - apply (for_each_parse_token_wf (split_char "," (c :: s)) ([], [])
             (plain, patterns)); [|exact E|constructor|constructor].
    eapply Forall_impl; [apply split_char_tokens|]. intros tok H. exact H.
  - apply (for_each_parse_token_raises _ _ _ E).
Qed.

End ParserMore.

(** ** Scorer: priority and details *)

Section ScorerMore.

Context {lib : PyLib}.

(** X7. The priority weighs linearly and touches nothing else: changing the
    priority of a row from [p1] to [p2] changes its score by [2 * (p2 - p1)]
    and leaves the matched phrases, the matched patterns, the exact flag and
    the ratio as they are; so the same row with a higher priority scores
    strictly more.  The scorer raises on the one row exactly when it raises
    on the other, with the same exception. *)
Theorem score_qna_priority_shift (u : str) (c : QnaRow) (p1 p2 : Z) :
  match score_qna u (with_priority c (Some p1)),
        score_qna u (with_priority c (Some p2)) with
  | Ok (s1, d1), Ok (s2, d2) =>
      s2 = s1 + 2 * (p2 - p1)
      /\ matched_keywords d2 = matched_keywords d1
      /\ matched_regex d2 = matched_regex d1
      /\ exact d2 = exact d1
      /\ ratio d2 = ratio d1
      /\ priority d1 = p1 /\ priority d2 = p2
      /\ (p1 < p2 -> s1 < s2)
  | Raise e1, Raise e2 => e1 = e2
  | _, _ => False
  end.
Proof.
  rewrite !score_qna_closed.
  cbn [with_priority row_question row_keywords row_priority].
  destruct (parse_keywords (row_keywords c)) as [pk|e]; cbn [bind];
    [|reflexivity].
  cbn [matched_keywords matched_regex exact ratio priority].
  repeat split; lia.
Qed.

(** X8. The details are evidence for the score: every recorded keyword is a
    phrase of the parsed spec that occurs in the message, every recorded
    regex is the source of a compiled pattern of the spec that finds a match
    in the message, and the exact flag is set exactly when the message is the
    normalized question. *)
Theorem score_qna_details_sound (u : str) (c : QnaRow) (s : Z) (d : ScoreDetail) :
  score_qna u c = Ok (s, d) ->
  exists plain patterns,
    parse_keywords (row_keywords c) = Ok (plain, patterns)
    /\ (forall kw, In kw (matched_keywords d) ->
          In kw plain
          /\ phrase_in_text u kw = true
          /\ is_substring u kw)
    /\ (forall r, In r (matched_regex d) ->
          exists pat, In pat patterns
                      /\ pattern pat = r /\ search pat u = true)
    /\ (exact d = true <-> u = normalize_text (row_question c)).
Proof.
  rewrite score_qna_closed.
  destruct (parse_keywords (row_keywords c)) as [[plain patterns]|e];
    cbn [bind fst snd]; [|discriminate].
  intros E. injection E as <- <-. exists plain, patterns.
  cbn [matched_keywords matched_regex exact].
  split; [reflexivity|]. split; [|split].
  - intros kw H. apply filter_In in H as [Hin Hm].
    split; [exact Hin|]. split; [exact Hm|].
    apply phrase_in_text_substring. exact Hm.
  - intros r H. apply in_map_iff in H as (pat & Hp & Hin).
    apply filter_In in Hin as [Hin Hm]. exists pat. auto.
  - apply eqb_str_eq.
Qed.

End ScorerMore.

(** ** Match selector: the debug flag, the shape of the result *)

Section MatchRuleMore.

Context {lib : PyLib}.

Lemma list_to_map_snoc_ne (l : list (string * Value)) k v v' key :
  key <> k ->
  (list_to_map (l ++ [(k, v)]) : gmap string Value) !! key
  = (list_to_map (l ++ [(k, v')]) : gmap string Value) !! key.
Proof.
  intros Hne. induction l as [|[a b] l IH].
  - cbn. rewrite !lookup_insert_ne by congruence. reflexivity.
  - cbn [app list_to_map foldr fst snd]. change (foldr _ _ ?x) with
      (list_to_map x : gmap string Value).
    rewrite !lookup_insert. destruct (decide (a = key)); [reflexivity|exact IH].
Qed.

(** X9. The debug flag never changes the outcome: with and without it the
    call raises in the same cases, and the dicts returned agree on every key
    other than [debug]. *)
Theorem match_rule_debug_independent (db : Db) (slug msg : str) :
  match snd (match_rule true db slug msg), snd (match_rule false db slug msg) with
  | Returned r1, Returned r0 =>
      forall key : string, key <> "debug"%string -> r1 !! key = r0 !! key
  | Raised e1, Raised e0 => e1 = e0
  | _, _ => False
  end.
Proof.
  pose proof (match_rule_cases true db slug msg) as H1.
  pose proof (match_rule_cases false db slug msg) as H0.
  destruct (fetch_bot_by_slug db slug) as [bot|] eqn:Hbot.
  2:{ rewrite H1, H0. cbn [snd]. reflexivity. }
  destruct (fetch_qna db (bot_id bot)) as [|q qs] eqn:Eq.
  { rewrite H1, H0. cbn [snd]. reflexivity. }
  destruct H1 as [_ H1], H0 as [_ H0].
  destruct (first_raise (q :: qs)) as [e|].
  { rewrite H1, H0. reflexivity. }
  destruct H1 as (sel1 & Hs1 & _ & Hm1), H0 as (sel0 & Hs0 & _ & Hm0).
  rewrite (select_best_debug _ _ true false) in Hs1.
  assert (sel1 = sel0) by congruence. subst sel1.
  rewrite Hm1, Hm0.
  destruct (best_row sel0) as [[k row]|]; [|reflexivity].
  destruct (best_details sel0) as [d|]; [|reflexivity].
  destruct (decide_matched d).
  - intros key Hk. unfold matched_dict.
    rewrite lookup_insert_ne by congruence. reflexivity.
  - intros key Hk. unfold unmatched_dict. apply list_to_map_snoc_ne. exact Hk.
Qed.

(** The lines of [debug_lines] are the lines of the rows that come before
    the first row on which the scorer raises. *)
Lemma debug_lines_split u qnas :
  exists done rest,
    qnas = done ++ rest
    /\ Forall2 (fun row line =>
                  exists s d, score_qna u row = Ok (s, d)
                              /\ line = debug_line row s d)
               done (debug_lines u qnas)
    /\ match rest with
       | [] => first_raise qnas = None
       | row :: _ =>
           exists e, score_qna u row = Raise e /\ first_raise qnas = Some e
       end.
Proof.
  induction qnas as [|x qnas (done & rest & E & Hl & Hr)].
  - exists [], []. split; [reflexivity|]. split; [constructor | reflexivity].
  - cbn [debug_lines first_raise].
    destruct (score_qna u x) as [[s d]|e] eqn:Ex.
    + exists (x :: done), rest. split; [rewrite E at 1; reflexivity|].
      split.
      { constructor; [|exact Hl]. exists s, d. split; [exact Ex | reflexivity]. }
      assert (Hx : exists pk, parse_keywords (row_keywords x) = Ok pk).
      { apply (score_qna_scored u x). exists s, d. exact Ex. }
      destruct Hx as [pk ->]. exact Hr.
    + exists [], (x :: qnas). split; [reflexivity|]. split; [constructor|].
      exists e. split; [exact Ex|].
      apply score_qna_raises in Ex. rewrite Ex. reflexivity.
Qed.

(** X10. In debug mode the loop prints one line for each candidate that
    comes before the first candidate on which the scorer raises, in the
    order of the candidates, with the id, the score and the details of each:
    one line per candidate when the scorer raises on none, also when the
    call then raises [TypeError], and no line for the candidate on which the
    scorer raises, whose exception leaves the call.  A dict that is returned
    after scoring binds [debug] to the details of the selected row. *)
Theorem match_rule_debug_on (db : Db) (slug msg : str) (bot : BotRow) :
  fetch_bot_by_slug db slug = Some bot ->
  fetch_qna db (bot_id bot) <> [] ->
  (exists done rest,
     fetch_qna db (bot_id bot) = done ++ rest
     /\ Forall2 (fun row line =>
                   exists s d, score_qna (normalize_text msg) row = Ok (s, d)
                               /\ line = debug_line row s d)
                done (fst (match_rule true db slug msg))
     /\ match rest with
        | [] => first_raise (fetch_qna db (bot_id bot)) = None
        | row :: _ =>
            exists e, score_qna (normalize_text msg) row = Raise e
                      /\ snd (match_rule true db slug msg) = Raised e
        end)
  /\ forall r, snd (match_rule true db slug msg) = Returned r ->
       exists sel k row d,
         snd (select_best true (normalize_text msg)
                (fetch_qna db (bot_id bot))) = Ok sel
         /\ best_row sel = Some (k, row)
         /\ score_qna (normalize_text msg) row = Ok (best_score sel, d)
         /\ r !! "debug"%string = Some (VDetail d).
Proof.
  intros Hbot Hne.
  pose proof (match_rule_cases true db slug msg) as Hc. rewrite Hbot in Hc.
  destruct (fetch_qna db (bot_id bot)) as [|q qs] eqn:Eq; [congruence|].
  destruct Hc as [Hout Hc]. split.
  - rewrite Hout.
    destruct (debug_lines_split (normalize_text msg) (q :: qs))
      as (done & rest & E & Hl & Hr).
    exists done, rest. split; [exact E|]. split; [exact Hl|].
    destruct rest as [|row rest]; [exact Hr|].
    destruct Hr as (e & He & Hf). exists e. split; [exact He|].
    rewrite Hf in Hc. exact Hc.
  - intros r Hr. destruct (first_raise (q :: qs)) as [e|]; [congruence|].
    destruct Hc as (sel & Hs & Hinv & Hm). rewrite Hm in Hr.
    pose proof (selection_inv_details _ _ _ Hinv) as Hd.
    destruct (best_row sel) as [[k row]|] eqn:Hrow; [|discriminate Hr].
    destruct Hd as (d & Hsc & Hd). rewrite Hd in Hr.
    exists sel, k, row, d. split; [exact Hs|]. split; [exact Hrow|].
    split; [exact Hsc|].
    destruct (decide_matched d).
    + assert (E : r = matched_dict true row (Z.max 0 (best_score sel)) d)
        by congruence.
      rewrite E. apply lookup_insert_eq.
    + assert (E : r = unmatched_dict true bot (Z.max 0 (best_score sel)) d)
        by congruence.
      rewrite E. reflexivity.
Qed.

End MatchRuleMore.

Section MatchRuleShape.

Context {lib : PyLib}.

(** The rows that [fetch_qna] supplies for a bot are the rows stored for
    it. *)
Lemma fetch_qna_in db bid row :
  In row (fetch_qna db bid) <-> In (bid, row) (qna db).
Proof.
  unfold fetch_qna. split.
  - intros H. apply (Permutation_in _ (order_rows_perm _)) in H.
    apply in_map_iff in H as ([b r] & E & Hin). cbn in E. subst r.
    apply filter_In in Hin as [Hin Hb]. cbn in Hb. apply Z.eqb_eq in Hb.
    subst b. exact Hin.
  - intros H. apply (Permutation_in _ (Permutation_sym (order_rows_perm _))).
    apply in_map_iff. exists (bid, row). split; [reflexivity|].
    apply filter_In. split; [exact H|]. cbn. apply Z.eqb_refl.
Qed.

Lemma fetch_bot_by_slug_Some db slug bot :
  fetch_bot_by_slug db slug = Some bot ->
  In bot (bots db) /\ bot_slug bot = slug.
Proof.
  unfold fetch_bot_by_slug. intros H. apply find_some in H as [Hin Hs].
  split; [exact Hin|]. apply eqb_str_eq. exact Hs.
Qed.

(** X11. A returned dict always binds the keys that the callers read:
    [matched] to a boolean and [confidence] to a non-negative integer.  When
    [matched] is true, [answer] and [question] are bound to strings and
    [qna_id] to an integer.  Otherwise [question] and [qna_id] are bound to
    [None], and [answer] is bound to a string, or to [None] for a bot whose
    fallback message is NULL. *)
Theorem match_rule_result_shape (DEBUG : bool) (db : Db) (slug msg : str)
    (r : gmap string Value) :
  snd (match_rule DEBUG db slug msg) = Returned r ->
  exists (b : bool) (c : Z),
    r !! "matched"%string = Some (VBool b)
    /\ r !! "confidence"%string = Some (VInt c)
    /\ 0 <= c
    /\ if b
       then exists a q i, r !! "answer"%string = Some (VStr a)
                          /\ r !! "question"%string = Some (VStr q)
                          /\ r !! "qna_id"%string = Some (VInt i)
       else r !! "question"%string = Some VNone
            /\ r !! "qna_id"%string = Some VNone
            /\ ((exists a, r !! "answer"%string = Some (VStr a))
                \/ (r !! "answer"%string = Some VNone
                    /\ exists bot, fetch_bot_by_slug db slug = Some bot
                                   /\ bot_fallback_message bot = None)).
Proof.
  intros Hret.
  assert (Hfb : forall bot (m : gmap string Value),
            fetch_bot_by_slug db slug = Some bot ->
            m !! "answer"%string = Some (text_value (bot_fallback_message bot)) ->
            (exists a, m !! "answer"%string = Some (VStr a))
            \/ (m !! "answer"%string = Some VNone
                /\ exists bot, fetch_bot_by_slug db slug = Some bot
                               /\ bot_fallback_message bot = None)).
  { intros bot m Hb Hm. destruct (bot_fallback_message bot) as [a|] eqn:Ef.
    - left. exists a. exact Hm.
    - right. split; [exact Hm|]. exists bot. split; [exact Hb | exact Ef]. }
  destruct (match_rule_returned_cases DEBUG db slug msg r Hret)
    as [[_ ->]|[(bot & Hb & _ & ->)
               |(bot & sel & k & row & d & Hb & _ & _ & _ & _ & _ & _ & Hr)]].
  - exists false, 0.
    split; [reflexivity|]. split; [reflexivity|]. split; [lia|].
    split; [reflexivity|]. split; [reflexivity|].
    left. exists (py "Bot not found."). reflexivity.
  - exists false, 0.
    split; [reflexivity|]. split; [reflexivity|]. split; [lia|].
    split; [reflexivity|]. split; [reflexivity|].
    apply (Hfb bot _ Hb). reflexivity.
  - cbn zeta in Hr. subst r.
    destruct (decide_matched d).
    + exists true, (Z.max 0 (score_of (normalize_text msg) row)).
      destruct DEBUG;
        (split; [reflexivity|]; split; [reflexivity|]; split; [lia|];
         exists (row_answer row), (row_question row), (row_id row);
         split; [reflexivity|]; split; reflexivity).
    + exists false, (Z.max 0 (score_of (normalize_text msg) row)).
      split; [destruct DEBUG; reflexivity|].
      split; [destruct DEBUG; reflexivity|]. split; [lia|].
      split; [destruct DEBUG; reflexivity|].
      split; [destruct DEBUG; reflexivity|].
      apply (Hfb bot _ Hb). destruct DEBUG; reflexivity.
Qed.

(** X12. A match is always a stored answer of the bot that was asked: when
    the result has [matched] true, its answer, question and id are those of
    one row stored for the bot with the given slug. *)
Theorem match_rule_answer_of_bot (DEBUG : bool) (db : Db) (slug msg : str)
    (r : gmap string Value) :
  snd (match_rule DEBUG db slug msg) = Returned r ->
  r !! "matched"%string = Some (VBool true) ->
  exists bot row,
    In bot (bots db) /\ bot_slug bot = slug
    /\ In (bot_id bot, row) (qna db)
    /\ r !! "answer"%string = Some (VStr (row_answer row))
    /\ r !! "question"%string = Some (VStr (row_question row))
    /\ r !! "qna_id"%string = Some (VInt (row_id row)).
Proof.
  intros Hret Hm.
  destruct (match_rule_returned_cases DEBUG db slug msg r Hret)
    as [[_ ->]|[(bot & _ & _ & ->)
               |(bot & sel & k & row & d & Hbot & _ & _ & _ & Hk & _ & _ & Hr)]].
  - discriminate Hm.
  - discriminate Hm.
  - cbn zeta in Hr. subst r.
    destruct (fetch_bot_by_slug_Some db slug bot Hbot) as [Hin Hs].
    exists bot, row. split; [exact Hin|]. split; [exact Hs|].
    split.
    { apply fetch_qna_in. apply list_elem_of_In, list_elem_of_lookup. eauto. }
    destruct (decide_matched d).
    + destruct DEBUG; repeat split; reflexivity.
    + exfalso. destruct DEBUG; discriminate Hm.
Qed.

(** The outcome of [match_rule] for a known bot, by the candidates. *)
Lemma match_rule_outcome DEBUG db slug msg bot :
  fetch_bot_by_slug db slug = Some bot ->
  match first_raise (fetch_qna db (bot_id bot)) with
  | Some e => snd (match_rule DEBUG db slug msg) = Raised e
  | None =>
      ((fetch_qna db (bot_id bot) = []
        \/ exists row, In row (fetch_qna db (bot_id bot))
                       /\ - 10 ^ 9 < score_of (normalize_text msg) row)
       /\ exists r, snd (match_rule DEBUG db slug msg) = Returned r)
      \/ (fetch_qna db (bot_id bot) <> []
          /\ (forall row, In row (fetch_qna db (bot_id bot)) ->
                          score_of (normalize_text msg) row <= - 10 ^ 9)
          /\ snd (match_rule DEBUG db slug msg) = Raised TypeError)
  end.
Proof.
  intros Hbot.
  pose proof (match_rule_cases DEBUG db slug msg) as Hc. rewrite Hbot in Hc.
  destruct (fetch_qna db (bot_id bot)) as [|q qs] eqn:Eq.
  { cbn [first_raise]. left. split; [left; reflexivity|].
    rewrite Hc. cbn [snd]. eauto. }
  destruct Hc as [_ Hc].
  destruct (first_raise (q :: qs)) as [e|]; [exact Hc|].
  destruct Hc as (sel & Hs & Hinv & Hm).
  pose proof (selection_inv_details _ _ _ Hinv) as Hd.
  destruct (best_row sel) as [[k row]|] eqn:Hrow.
  - left. destruct Hd as (d & Hsc & Hd). rewrite Hd in Hm.
    split; [|rewrite Hm; eauto]. right. exists row.
    destruct (selection_inv_first_max _ _ _ k row Hinv Hrow) as (Hk & Hbs & _).
    split; [apply list_elem_of_In, list_elem_of_lookup; eauto|].
    destruct Hinv as (_ & _ & Hb). rewrite Hrow in Hb.
    destruct Hb as (_ & _ & _ & Hlt & _). lia.
  - right. split; [discriminate|]. split; [|exact Hm].
    intros row Hin. apply list_elem_of_In, list_elem_of_lookup in Hin as [j Hj].
    destruct Hinv as (Hle & _ & Hb). rewrite Hrow in Hb.
    destruct Hb as [Hb _]. specialize (Hle j row Hj). lia.
Qed.

(** X13. The failures of [match_rule].  It raises an exception [e] exactly
    when the bot exists and either [e] is what the parser raises on the
    first candidate, in the order of the candidates, whose keyword spec
    makes it raise (an exception of [re.compile] other than [re.error]), or
    the parser raises on no candidate, [e] is [TypeError], the bot has
    candidates and none of them scores above the initial value [-10^9] of
    the running best.  It returns a dict exactly in the other cases: for an
    unknown bot, and for a bot on whose candidates the parser does not raise
    and that has no candidate or a candidate that scores above [-10^9]. *)
Theorem match_rule_raises_iff (DEBUG : bool) (db : Db) (slug msg : str) :
  (forall e : exn,
     snd (match_rule DEBUG db slug msg) = Raised e <->
     exists bot,
       fetch_bot_by_slug db slug = Some bot
       /\ (first_raise (fetch_qna db (bot_id bot)) = Some e
           \/ (first_raise (fetch_qna db (bot_id bot)) = None
               /\ e = TypeError
               /\ fetch_qna db (bot_id bot) <> []
               /\ forall row, In row (fetch_qna db (bot_id bot)) ->
                              score_of (normalize_text msg) row <= - 10 ^ 9)))
  /\ ((exists r, snd (match_rule DEBUG db slug msg) = Returned r) <->
      fetch_bot_by_slug db slug = None
      \/ exists bot,
           fetch_bot_by_slug db slug = Some bot
           /\ first_raise (fetch_qna db (bot_id bot)) = None
           /\ (fetch_qna db (bot_id bot) = []
               \/ exists row, In row (fetch_qna db (bot_id bot))
                              /\ - 10 ^ 9 < score_of (normalize_text msg) row)).
Proof.
  destruct (fetch_bot_by_slug db slug) as [bot|] eqn:Hbot.
  2:{ pose proof (match_rule_cases DEBUG db slug msg) as Hc.
      rewrite Hbot in Hc. rewrite Hc. cbn [snd]. split.
      - intros e. split; [discriminate|]. intros (b & Hb & _). discriminate Hb.
      - split; [intros _; left; reflexivity | intros _; eauto]. }
  pose proof (match_rule_outcome DEBUG db slug msg bot Hbot) as Ho.
  destruct (first_raise (fetch_qna db (bot_id bot))) as [e'|] eqn:Ef.
  - rewrite Ho. split.
    + intros e. split.
      * intros [= <-]. exists bot. split; [reflexivity|]. left. exact Ef.
      * intros (b & [= <-] & [H|(H & _)]); congruence.
    + split.
      * intros (r & Hr). discriminate Hr.
      * intros [H|(b & [= <-] & H & _)]; congruence.
  - destruct Ho as [[Hq (r & Hr)]|(Hne & Hall & Hr)]; rewrite Hr; split.
    + intros e. split; [discriminate|].
      intros (b & [= <-] & [H|(_ & _ & Hne & Hall)]); [congruence|].
      exfalso. destruct Hq as [Hq|(row & Hin & Hlt)]; [congruence|].
      specialize (Hall row Hin). lia.
    + split; [|intros _; eauto]. intros _. right. exists bot.
      split; [reflexivity|]. split; [exact Ef | exact Hq].
    + intros e. split.
      * intros [= <-]. exists bot. split; [reflexivity|]. right.
        split; [exact Ef|]. split; [reflexivity|]. split; assumption.
      * intros (b & [= <-] & [H|(_ & -> & _)]); [congruence | reflexivity].
    + split.
      * intros (r & H). discriminate H.
      * intros [H|(b & [= <-] & _ & [Hq|(row & Hin & Hlt)])];
          [discriminate H | congruence |].
        specialize (Hall row Hin). lia.
Qed.

Lemma max_list_attained (f : QnaRow -> Z) l row :
  In row l -> (forall r, In r l -> f r <= f row) ->
  fold_right Z.max 0 (map f l) = Z.max 0 (f row).
Proof.
  intros Hin Hmax.
  assert (Hub : forall l', (forall r, In r l' -> f r <= f row) ->
                           fold_right Z.max 0 (map f l') <= Z.max 0 (f row)).
  { induction l' as [|x l' IH]; intros H; cbn; [lia|].
    pose proof (H x (or_introl eq_refl)).
    specialize (IH (fun r Hr => H r (or_intror Hr))). lia. }
  assert (Hlb : forall l', In row l' ->
                           Z.max 0 (f row) <= fold_right Z.max 0 (map f l')).
  { induction l' as [|x l' IH]; intros H; [destruct H|].
    cbn. assert (0 <= fold_right Z.max 0 (map f l')).
    { clear. induction l'; cbn; lia. }
    destruct H as [->|H]; [lia|]. specialize (IH H). lia. }
  specialize (Hub l Hmax). specialize (Hlb l Hin). lia.
Qed.

(** X14. The confidence of every returned dict, in one formula: 0 for an
    unknown bot, and otherwise the greatest of 0 and the scores of the
    candidates of the bot (0 when it has none). *)
Theorem match_rule_confidence (DEBUG : bool) (db : Db) (slug msg : str)
    (r : gmap string Value) :
  snd (match_rule DEBUG db slug msg) = Returned r ->
  r !! "confidence"%string
  = Some (VInt
            match fetch_bot_by_slug db slug with
            | None => 0
            | Some bot =>
                fold_right Z.max 0
                  (map (score_of (normalize_text msg))
                       (fetch_qna db (bot_id bot)))
            end)
  /\ forall bot row,
       fetch_bot_by_slug db slug = Some bot ->
       In row (fetch_qna db (bot_id bot)) ->
       scored (normalize_text msg) row.
Proof.
  intros Hret.
  destruct (match_rule_returned_cases DEBUG db slug msg r Hret)
    as [[Hb ->]|[(bot & Hb & Hq & ->)
                |(bot & sel & k & row & d & Hb & _ & _ & Hinv & Hk & Hsel & _ & Hr)]];
    rewrite Hb.
  - split; [reflexivity|]. intros b row H. discriminate H.
  - rewrite Hq. split; [reflexivity|].
    intros b row [= <-]. rewrite Hq. intros [].
  - destruct (selection_inv_first_max _ _ _ k row Hinv Hsel)
      as (_ & _ & Hmax & _).
    split.
    + rewrite (max_list_attained _ _ row).
      * cbn zeta in Hr. subst r.
        destruct (decide_matched d); destruct DEBUG; reflexivity.
      * apply list_elem_of_In, list_elem_of_lookup. eauto.
      * intros r' Hin.
        apply list_elem_of_In, list_elem_of_lookup in Hin as [j Hj].
        apply (Hmax j r' Hj).
    + intros b row' [= <-] Hin.
      apply (selection_inv_scored _ _ _ row' Hinv Hin).
Qed.

(** X15. [chat_once] gives one of three things: the string "Bot not found."
    for an unknown slug, the fallback message of the bot (a string, or
    [None] when the column is NULL), or the stored answer of one of its
    rows; it fails only where [match_rule] raises, with the same exception,
    and never for a missing key. *)
Theorem chat_once_answers (DEBUG : bool) (db : Db) (slug msg : str) :
  match chat_once DEBUG db slug msg with
  | Said v =>
      match fetch_bot_by_slug db slug with
      | None => v = VStr (py "Bot not found.")
      | Some bot =>
          v = text_value (bot_fallback_message bot)
          \/ exists row, In (bot_id bot, row) (qna db)
                         /\ v = VStr (row_answer row)
      end
  | Failed e => snd (match_rule DEBUG db slug msg) = Raised e
  | MissingKey => False
  end.
Proof.
  unfold chat_once.
  destruct (snd (match_rule DEBUG db slug msg)) as [r|e] eqn:Hret;
    [|reflexivity].
  destruct (match_rule_returned_cases DEBUG db slug msg r Hret)
    as [[Hb ->]|[(bot & Hb & Hq & ->)
                |(bot & sel & k & row & d & Hb & _ & _ & _ & Hk & _ & _ & Hr)]];
    rewrite Hb.
  - reflexivity.
  - left. reflexivity.
  - cbn zeta in Hr. subst r.
    destruct (decide_matched d).
    + assert (E : matched_dict DEBUG row
                    (Z.max 0 (score_of (normalize_text msg) row)) d
                  !! "answer"%string = Some (VStr (row_answer row)))
        by (destruct DEBUG; reflexivity).
      rewrite E. right. exists row. split; [|reflexivity].
      apply fetch_qna_in. apply list_elem_of_In, list_elem_of_lookup. eauto.
    + assert (E : unmatched_dict DEBUG bot
                    (Z.max 0 (score_of (normalize_text msg) row)) d
                  !! "answer"%string
                  = Some (text_value (bot_fallback_message bot)))
        by (destruct DEBUG; reflexivity).
      rewrite E. left. reflexivity.
Qed.

End MatchRuleShape.

(** ** Storage collaborator: bots and Q&A rows *)

Lemma find_app_l {A} (f : A -> bool) l1 l2 x :
  List.find f l1 = Some x -> List.find f (l1 ++ l2) = Some x.
Proof.
  induction l1 as [|a l1 IH]; [discriminate|]. simpl.
  destruct (f a); [auto|exact IH].
Qed.

Lemma find_app_r {A} (f : A -> bool) l1 l2 :
  List.find f l1 = None -> List.find f (l1 ++ l2) = List.find f l2.
Proof.
  induction l1 as [|a l1 IH]; [reflexivity|]. simpl.
  destruct (f a); [discriminate|exact IH].
Qed.

Lemma find_none_existsb {A} (f : A -> bool) l :
  List.find f l = None <-> existsb f l = false.
Proof.
  induction l as [|a l IH]; [split; reflexivity|]. simpl.
  destruct (f a); [split; discriminate|exact IH].
Qed.

Lemma eqb_str_refl s : eqb_str s s = true.
Proof. apply eqb_str_eq. reflexivity. Qed.

Lemma eqb_str_neq a b : a <> b -> eqb_str a b = false.
Proof.
  intros H. destruct (eqb_str a b) eqn:E; [|reflexivity].
  apply eqb_str_eq in E. congruence.
Qed.

(** X16. Adding a bot and looking it up.  When the slug is free, [add_bot]
    returns an id and the bot is then found under its slug, with the given
    fallback message or the default one; when the slug is taken, [add_bot]
    returns nothing and stores nothing.  In both cases every other slug is
    looked up as before. *)
Theorem add_bot_fetch (db : Db) (slug : str) (fallback : option str) :
  let db' := fst (add_bot db slug fallback) in
  match fetch_bot_by_slug db slug with
  | None =>
      exists i,
        snd (add_bot db slug fallback) = Some i
        /\ fetch_bot_by_slug db' slug
           = Some {| bot_id := i; bot_slug := slug;
                     bot_fallback_message :=
                       Some match fallback with
                            | Some m => m
                            | None => DEFAULT_FALLBACK
                            end |}
        /\ qna db' = qna db
  | Some _ => add_bot db slug fallback = (db, None)
  end
  /\ forall other, other <> slug ->
       fetch_bot_by_slug db' other = fetch_bot_by_slug db other.
Proof.
  cbn zeta. unfold add_bot, fetch_bot_by_slug.
  destruct (List.find (fun b => eqb_str (bot_slug b) slug) (bots db))
    as [b|] eqn:Ef.
  - assert (Ee : existsb (fun b => eqb_str (bot_slug b) slug) (bots db) = true).
    { destruct (existsb _ (bots db)) eqn:E; [reflexivity|].
      apply find_none_existsb in E. congruence. }
    rewrite Ee. split; [reflexivity|]. reflexivity.
  - pose proof (proj1 (find_none_existsb _ _) Ef) as Ee. rewrite Ee.
    cbn [fst snd bots qna]. split.
    + eexists. split; [reflexivity|]. split; [|reflexivity].
      rewrite find_app_r by exact Ef. cbn. rewrite eqb_str_refl. reflexivity.
    + intros other Hne.
      destruct (List.find (fun b => eqb_str (bot_slug b) other) (bots db))
        as [b|] eqn:Eo.
      * apply find_app_l. exact Eo.
      * rewrite find_app_r by exact Eo. cbn.
        rewrite eqb_str_neq by congruence. reflexivity.
Qed.

(** X17. [add_bot] keeps the slugs pairwise different, and while they are,
    every stored bot is the one found under its slug. *)
Theorem add_bot_slugs_unique (db : Db) (slug : str) (fallback : option str) :
  slugs_unique db ->
  slugs_unique (fst (add_bot db slug fallback))
  /\ forall bot, In bot (bots db) ->
       fetch_bot_by_slug db (bot_slug bot) = Some bot.
Proof.
  unfold slugs_unique. intros Hnd. split.
  - unfold add_bot.
    destruct (existsb (fun b => eqb_str (bot_slug b) slug) (bots db)) eqn:Ee;
      [exact Hnd|].
    cbn [fst bots]. rewrite map_app. cbn [map bot_slug].
    apply NoDup_app. split; [exact Hnd|]. split; [|apply NoDup_singleton].
    intros s Hin Hs. apply list_elem_of_In in Hin.
    apply list_elem_of_In in Hs. destruct Hs as [<-|[]].
    apply in_map_iff in Hin as (b & Hb & Hin).
    assert (Ht : existsb (fun b => eqb_str (bot_slug b) (bot_slug b)) [b] = true)
      by (cbn; rewrite eqb_str_refl; reflexivity).
    rewrite <- Hb in Ee.
    assert (existsb (fun b0 => eqb_str (bot_slug b0) (bot_slug b)) (bots db) = true).
    { apply existsb_exists. exists b. split; [exact Hin|apply eqb_str_refl]. }
    congruence.
  - unfold fetch_bot_by_slug. induction (bots db) as [|a l IH];
      intros bot Hin; [destruct Hin|].
    cbn [map] in Hnd. apply NoDup_cons in Hnd as [Ha Hl]. cbn [List.find].
    destruct Hin as [->|Hin].
    + rewrite eqb_str_refl. reflexivity.
    + rewrite eqb_str_neq; [apply (IH Hl bot Hin)|].
      intros E. apply Ha. rewrite E. apply list_elem_of_In, in_map. exact Hin.
Qed.

Lemma max_qna_id_ge db b row :
  In (b, row) (qna db) -> row_id row <= max_qna_id db.
Proof.
  unfold max_qna_id. induction (qna db) as [|x l IH]; intros Hin;
    [destruct Hin|].
  cbn [fold_right]. destruct Hin as [->|Hin]; [cbn; lia|].
  specialize (IH Hin). lia.
Qed.

(** X18. Adding a Q&A row and fetching.  The rows fetched for the bot are
    then the new row and the rows fetched before; the rows of every other
    bot are fetched exactly as before, and the bots are untouched.  The id
    of the new row is greater than the id of every stored row and than every
    id given before. *)
Theorem add_qna_fetch (db : Db) (bid : Z) (q a : str) (k : option str)
    (p : option Z) :
  let db' := add_qna db bid q a k p in
  let new := {| row_id := next_qna_id db; row_question := q; row_answer := a;
                row_keywords := k; row_priority := p |} in
  (forall row, In row (fetch_qna db' bid)
               <-> row = new \/ In row (fetch_qna db bid))
  /\ List.length (fetch_qna db' bid) = S (List.length (fetch_qna db bid))
  /\ (forall other, other <> bid -> fetch_qna db' other = fetch_qna db other)
  /\ (forall slug, fetch_bot_by_slug db' slug = fetch_bot_by_slug db slug)
  /\ (forall b row, In (b, row) (qna db) -> row_id row < row_id new)
  /\ qna_seq db < row_id new
  /\ qna_seq db' = row_id new.
Proof.
  cbn zeta. split; [|split; [|split; [|split; [|split; [|split]]]]].
  - intros row. rewrite !fetch_qna_in. unfold add_qna. cbn [qna].
    rewrite in_app_iff. cbn [In]. split.
    + intros [H|[[= <-]|[]]]; auto.
    + intros [->|H]; auto.
  - unfold fetch_qna, add_qna. cbn [qna].
    rewrite !(Permutation_length (order_rows_perm _)).
    rewrite List.filter_app, map_app, length_app. cbn. rewrite Z.eqb_refl. cbn. lia.
  - intros other Hne. unfold fetch_qna, add_qna. cbn [qna].
    rewrite List.filter_app. cbn.
    destruct (bid =? other) eqn:E; [apply Z.eqb_eq in E; congruence|].
    cbn. rewrite app_nil_r. reflexivity.
  - reflexivity.
  - intros b row Hin. cbn [row_id]. unfold next_qna_id.
    pose proof (max_qna_id_ge db b row Hin). lia.
  - cbn [row_id]. unfold next_qna_id. lia.
  - reflexivity.
Qed.

(** X19. [delete_qna] removes the rows with the given id and nothing else:
    afterwards a row is fetched for a bot exactly when it was fetched before
    and has another id; the answer is true exactly when a row had the id;
    deleting again changes nothing. *)
Theorem delete_qna_fetch (db : Db) (qid : Z) :
  let db' := fst (delete_qna db qid) in
  (forall bid row, In row (fetch_qna db' bid)
                   <-> In row (fetch_qna db bid) /\ row_id row <> qid)
  /\ (snd (delete_qna db qid) = true
      <-> exists b row, In (b, row) (qna db) /\ row_id row = qid)
  /\ delete_qna db' qid = (db', false)
  /\ bots db' = bots db.
Proof.
  cbn zeta. split; [|split; [|split]].
  - intros bid row. rewrite !fetch_qna_in. unfold delete_qna. cbn [fst qna].
    rewrite filter_In. cbn [snd]. rewrite negb_true_iff, Z.eqb_neq. tauto.
  - unfold delete_qna. cbn [snd]. rewrite existsb_exists. split.
    + intros ([b row] & Hin & E). cbn in E. apply Z.eqb_eq in E. eauto.
    + intros (b & row & Hin & E). exists (b, row). split; [exact Hin|].
      cbn. apply Z.eqb_eq. exact E.
  - unfold delete_qna. cbn [fst bots qna qna_seq].
    assert (Hf : List.filter (fun r => negb (row_id (snd r) =? qid))
                   (List.filter (fun r => negb (row_id (snd r) =? qid)) (qna db))
                 = List.filter (fun r => negb (row_id (snd r) =? qid)) (qna db)).
    { induction (qna db) as [|x l IH]; [reflexivity|].
      cbn. destruct (row_id (snd x) =? qid) eqn:E; cbn; [exact IH|].
      rewrite E. cbn. rewrite IH. reflexivity. }
    assert (He : existsb (fun r => row_id (snd r) =? qid)
                   (List.filter (fun r => negb (row_id (snd r) =? qid)) (qna db))
                 = false).
    { clear Hf. induction (qna db) as [|x l IH]; [reflexivity|].
      cbn. destruct (row_id (snd x) =? qid) eqn:E; cbn; [exact IH|].
      rewrite E. exact IH. }
    rewrite Hf, He. reflexivity.
  - reflexivity.
Qed.

(** X27. The id of a deleted row is not given again: while the entry of the table
    in [sqlite_sequence] is up to date, [add_qna] and [delete_qna] keep it
    so, a deletion does not change the id that the next row gets, and that
    id is greater than the id of every row stored before the deletion, the
    deleted rows among them. *)
Theorem delete_qna_keeps_next_id (db : Db) (qid : Z) :
  seq_ok db ->
  seq_ok (fst (delete_qna db qid))
  /\ (forall bid q a k p, seq_ok (add_qna db bid q a k p))
  /\ next_qna_id (fst (delete_qna db qid)) = next_qna_id db
  /\ forall b row, In (b, row) (qna db) ->
       row_id row < next_qna_id (fst (delete_qna db qid)).
Proof.
  unfold seq_ok. intros Hok.
  assert (Hle : max_qna_id (fst (delete_qna db qid)) <= max_qna_id db).
  { unfold max_qna_id, delete_qna. cbn [fst qna].
    induction (qna db) as [|x l IH]; [cbn; lia|].
    cbn [List.filter fold_right].
    destruct (negb (row_id (snd x) =? qid)); cbn [fold_right]; lia. }
  assert (H0 : 0 <= max_qna_id (fst (delete_qna db qid))).
  { unfold max_qna_id. induction (qna (fst (delete_qna db qid))); cbn; lia. }
  assert (Hn : next_qna_id (fst (delete_qna db qid)) = next_qna_id db).
  { unfold next_qna_id. cbn [delete_qna fst qna_seq] in *. lia. }
  split; [cbn [delete_qna fst qna_seq] in *; lia|].
  split; [|split; [exact Hn|]].
  - intros bid q a k p. unfold add_qna, max_qna_id. cbn [qna qna_seq].
    rewrite fold_right_app. cbn [fold_right snd row_id].
    assert (Hm : forall (l : list (Z * QnaRow)) m,
               fold_right (fun r m => Z.max (row_id (snd r)) m) m l
               <= Z.max m (fold_right
                             (fun r m => Z.max (row_id (snd r)) m) 0 l)).
    { induction l as [|x l IH]; intros m; cbn; [lia|]. specialize (IH m). lia. }
    specialize (Hm (qna db) (Z.max (next_qna_id db) 0)).
    unfold next_qna_id, max_qna_id in *. lia.
  - intros b row Hin. rewrite Hn. unfold next_qna_id.
    pose proof (max_qna_id_ge db b row Hin). lia.
Qed.

(** X20. The order in which [fetch_qna] supplies the candidates: of two
    rows, the earlier one has the greater or equal priority (a NULL priority
    below every value), and when the priorities are equal the smaller or
    equal id; and the rows supplied are, with their multiplicities, the rows
    stored for the bot. *)
Theorem fetch_qna_order (db : Db) (bid : Z) :
  (forall i j ri rj,
     (i < j)%nat ->
     fetch_qna db bid !! i = Some ri -> fetch_qna db bid !! j = Some rj ->
     rank_ge (priority_rank ri) (priority_rank rj)
     /\ (priority_rank ri = priority_rank rj -> row_id ri <= row_id rj))
  /\ Permutation (fetch_qna db bid)
       (map snd (List.filter (fun r => fst r =? bid) (qna db))).
Proof.
  split; [|apply order_rows_perm].
  assert (Hs : StronglySorted ordered (fetch_qna db bid)).
  { apply Sorted_StronglySorted; [|apply order_rows_sorted].
    intros a b c. apply qna_order_trans. }
  assert (Hord : forall a b, ordered a b ->
            rank_ge (priority_rank a) (priority_rank b)
            /\ (priority_rank a = priority_rank b -> row_id a <= row_id b)).
  { intros a b. unfold ordered, qna_order, rank_ge, priority_rank.
    destruct (row_priority a) as [p|], (row_priority b) as [q|].
    - destruct (q <? p) eqn:E1, (p <? q) eqn:E2; intros H;
        try discriminate H; (split; [lia|intros [= ->]; lia]).
    - intros _. split; [exact I|discriminate].
    - intros H. discriminate H.
    - intros H. split; [exact I|]. intros _. lia. }
  induction Hs as [|a l Hl IH Ha]; intros i j ri rj Hij Hi Hj.
  - discriminate.
  - destruct j as [|j]; [lia|]. cbn in Hj.
    destruct i as [|i].
    + cbn in Hi. injection Hi as <-. apply Hord.
      rewrite List.Forall_forall in Ha. apply Ha.
      apply list_elem_of_In, list_elem_of_lookup. eauto.
    + cbn in Hi. apply (IH i j ri rj); [lia|assumption|assumption].
Qed.

(** ** Storage collaborator: users and statistics *)

(** X21. Creating a user and looking it up.  When the email is free,
    [create_user] returns an id and the user is then found under the email,
    with that id and the creation time; when the email is taken it returns
    nothing and stores nothing.  Every other email is looked up as
    before. *)
Theorem create_user_fetch (users : list UserRow) (email now : str) :
  let users' := fst (create_user users email now) in
  match fetch_user_by_email users email with
  | None =>
      exists i,
        snd (create_user users email now) = Some i
        /\ fetch_user_by_email users' email
           = Some {| user_id := i; user_email := email;
                     user_created_at := now |}
        /\ (forall u, In u users -> user_id u < i)
  | Some _ => create_user users email now = (users, None)
  end
  /\ forall other, other <> email ->
       fetch_user_by_email users' other = fetch_user_by_email users other.
Proof.
  cbn zeta. unfold create_user, fetch_user_by_email.
  destruct (List.find (fun u => eqb_str (user_email u) email) users)
    as [u|] eqn:Ef.
  - assert (Ee : existsb (fun u => eqb_str (user_email u) email) users = true).
    { destruct (existsb _ users) eqn:E; [reflexivity|].
      apply find_none_existsb in E. congruence. }
    rewrite Ee. split; reflexivity.
  - pose proof (proj1 (find_none_existsb _ _) Ef) as Ee. rewrite Ee.
    cbn [fst snd]. split.
    + eexists. split; [reflexivity|]. split.
      * rewrite find_app_r by exact Ef. cbn. rewrite eqb_str_refl. reflexivity.
      * intros u Hin. unfold next_user_id. clear Ef Ee.
        induction users as [|x l IH]; [destruct Hin|].
        cbn [fold_right]. destruct Hin as [->|Hin]; [lia|].
        specialize (IH Hin). lia.
    + intros other Hne.
      destruct (List.find (fun u => eqb_str (user_email u) other) users)
        as [u|] eqn:Eo.
      * apply find_app_l. exact Eo.
      * rewrite find_app_r by exact Eo. cbn.
        rewrite eqb_str_neq by congruence. reflexivity.
Qed.

Lemma stat_key_upsert_same rows bid today s m :
  List.find (stat_key bid today) (upsert_stats rows bid today s m)
  = Some {| stat_bot_id := bid; stat_date := today;
            daily_sessions := fst (stats_of rows bid today) + s;
            message_count := snd (stats_of rows bid today) + m |}.
Proof.
  unfold stats_of. induction rows as [|r rest IH]; cbn.
  - unfold stat_key. cbn. rewrite Z.eqb_refl, eqb_str_refl. reflexivity.
  - destruct (stat_key bid today r) eqn:E; cbn.
    + unfold stat_key in *. cbn. rewrite E. cbn.
      apply andb_true_iff in E as [E1 E2]. apply Z.eqb_eq in E1.
      apply eqb_str_eq in E2. rewrite E1, E2. reflexivity.
    + rewrite E. exact IH.
Qed.

Lemma stat_key_upsert_other rows bid today s m b d :
  (b, d) <> (bid, today) ->
  List.filter (stat_key b d) (upsert_stats rows bid today s m)
  = List.filter (stat_key b d) rows.
Proof.
  intros Hne.
  assert (Hk : forall r, stat_key bid today r = true -> stat_key b d r = false).
  { intros r H. unfold stat_key in *. apply andb_true_iff in H as [H1 H2].
    apply Z.eqb_eq in H1. apply eqb_str_eq in H2.
    destruct (stat_bot_id r =? b) eqn:E1; [|reflexivity].
    destruct (eqb_str (stat_date r) d) eqn:E2; [|reflexivity].
    apply Z.eqb_eq in E1. apply eqb_str_eq in E2. congruence. }
  induction rows as [|r rest IH]; cbn.
  - rewrite (Hk {| stat_bot_id := bid; stat_date := today;
                   daily_sessions := s; message_count := m |}); [reflexivity|].
    unfold stat_key. cbn. rewrite Z.eqb_refl, eqb_str_refl. reflexivity.
  - destruct (stat_key bid today r) eqn:E; cbn.
    + rewrite (Hk r E).
      assert (E' : stat_key b d
                     {| stat_bot_id := stat_bot_id r; stat_date := stat_date r;
                        daily_sessions := daily_sessions r + s;
                        message_count := message_count r + m |} = false)
        by (apply (Hk r) in E; exact E).
      rewrite E'. reflexivity.
    + destruct (stat_key b d r); rewrite IH; reflexivity.
Qed.

Lemma stat_rows_upsert_same rows bid today s m :
  stat_rows (upsert_stats rows bid today s m) bid today
  = Nat.max 1 (stat_rows rows bid today).
Proof.
  unfold stat_rows. induction rows as [|r rest IH]; cbn.
  - unfold stat_key. cbn. rewrite Z.eqb_refl, eqb_str_refl. reflexivity.
  - destruct (stat_key bid today r) eqn:E; cbn.
    + assert (E' : stat_key bid today
                     {| stat_bot_id := stat_bot_id r; stat_date := stat_date r;
                        daily_sessions := daily_sessions r + s;
                        message_count := message_count r + m |} = true)
        by exact E.
      rewrite E'. cbn. lia.
    + rewrite E. exact IH.
Qed.

(** X22. [increment_bot_stats] accumulates per bot and day: afterwards the
    counters of the pair are the former ones (0 when there was no row) plus
    the increments, the counters of every other pair are unchanged, and a
    pair that had at most one row still has exactly one. *)
Theorem increment_bot_stats_adds (rows : list StatRow) (bid : Z) (today : str)
    (sessions messages : Z) :
  let rows' := fst (increment_bot_stats rows bid today sessions messages) in
  stats_of rows' bid today
  = (fst (stats_of rows bid today) + sessions,
     snd (stats_of rows bid today) + messages)
  /\ (forall b d, (b, d) <> (bid, today) ->
        stats_of rows' b d = stats_of rows b d
        /\ stat_rows rows' b d = stat_rows rows b d)
  /\ ((stat_rows rows bid today <= 1)%nat -> stat_rows rows' bid today = 1%nat)
  /\ snd (increment_bot_stats rows bid today sessions messages) = true.
Proof.
  cbn zeta. unfold increment_bot_stats. cbn [fst snd].
  split; [|split; [|split; [|reflexivity]]].
  - unfold stats_of at 1. rewrite stat_key_upsert_same. reflexivity.
  - intros b d Hne.
    pose proof (stat_key_upsert_other rows bid today sessions messages b d Hne)
      as Hf.
    split.
    + unfold stats_of.
      assert (Hfind : forall l, List.find (stat_key b d) l
                                = head (List.filter (stat_key b d) l)).
      { induction l as [|x l IH]; [reflexivity|]. cbn.
        destruct (stat_key b d x); [reflexivity|exact IH]. }
      rewrite !Hfind, Hf. reflexivity.
    + unfold stat_rows. rewrite Hf. reflexivity.
  - intros H. rewrite stat_rows_upsert_same. lia.
Qed.

(** X23. Increments add up: two increments for the same bot and day leave
    the table that one increment by the sums leaves. *)
Theorem increment_bot_stats_twice (rows : list StatRow) (bid : Z) (today : str)
    (s1 m1 s2 m2 : Z) :
  fst (increment_bot_stats
         (fst (increment_bot_stats rows bid today s1 m1)) bid today s2 m2)
  = fst (increment_bot_stats rows bid today (s1 + s2) (m1 + m2)).
Proof.
  unfold increment_bot_stats. cbn [fst].
  induction rows as [|r rest IH]; cbn.
  - unfold stat_key. cbn. rewrite Z.eqb_refl, eqb_str_refl. reflexivity.
  - destruct (stat_key bid today r) eqn:E; cbn.
    + assert (E' : stat_key bid today
                     {| stat_bot_id := stat_bot_id r; stat_date := stat_date r;
                        daily_sessions := daily_sessions r + s1;
                        message_count := message_count r + m1 |} = true)
        by exact E.
      rewrite E'. cbn. rewrite <- !Z.add_assoc. reflexivity.
    + rewrite E. rewrite IH. reflexivity.
Qed.

(** ** Storage collaborator: rows added one after the other *)

Lemma max_id_fold (l : list (Z * QnaRow)) z :
  0 <= z ->
  fold_right (fun r m => Z.max (row_id (snd r)) m) z l
  = Z.max (fold_right (fun r m => Z.max (row_id (snd r)) m) 0 l) z.
Proof.
  intros Hz. induction l as [|x l IH]; cbn; [lia|]. rewrite IH. lia.
Qed.

Lemma max_id_nonneg (l : list (Z * QnaRow)) :
  0 <= fold_right (fun r m => Z.max (row_id (snd r)) m) 0 l.
Proof. induction l; cbn; lia. Qed.

(** Each insertion moves the next id on by one. *)
Lemma next_qna_id_add db bid q a k p :
  next_qna_id (add_qna db bid q a k p) = next_qna_id db + 1.
Proof.
  pose proof (max_id_nonneg (qna db)) as HM.
  unfold add_qna, next_qna_id, max_qna_id in *. cbn [qna qna_seq].
  rewrite fold_right_app. cbn [fold_right snd row_id].
  set (m := fold_right (fun r m => Z.max (row_id (snd r)) m) 0 (qna db)) in *.
  rewrite (max_id_fold (qna db) (Z.max (Z.max (qna_seq db) m + 1) 0)) by lia.
  fold m. lia.
Qed.

(** The calls append one row per pair, with the next ids, and touch nothing
    else. *)
Lemma add_qna_all_qna bid pairs db :
  qna (add_qna_all db bid pairs)
  = qna db ++ rows_from bid (next_qna_id db) pairs
  /\ bots (add_qna_all db bid pairs) = bots db.
Proof.
  unfold add_qna_all.
  revert db. induction pairs as [|[q a] r IH]; intros db.
  - cbn. rewrite app_nil_r. split; reflexivity.
  - cbn [fold_left].
    destruct (IH (add_qna_default db bid q a)) as [E1 E2].
    rewrite E1, E2. unfold add_qna_default. rewrite next_qna_id_add.
    unfold add_qna. cbn [qna bots rows_from]. rewrite <- app_assoc.
    split; reflexivity.
Qed.

Lemma rows_from_ids bid n vp :
  Forall (fun r => n <= row_id r /\ row_priority r = Some 1
                   /\ row_keywords r = None)
         (map snd (rows_from bid n vp)).
Proof.
  revert n. induction vp as [|[q a] vp IH]; intros n; cbn; [constructor|].
  constructor; [cbn; repeat split; lia|].
  eapply Forall_impl; [apply IH|]. cbn. intros r (H1 & H2 & H3).
  repeat split; try assumption. lia.
Qed.

Lemma rows_from_sorted bid n vp :
  StronglySorted ordered (map snd (rows_from bid n vp)).
Proof.
  revert n. induction vp as [|[q a] vp IH]; intros n; cbn; [constructor|].
  constructor; [apply IH|].
  eapply Forall_impl; [apply rows_from_ids|]. cbn.
  intros r (H1 & H2 & _). unfold ordered, qna_order. cbn.
  rewrite H2. cbn. apply Z.leb_le. lia.
Qed.

Lemma order_rows_sorted_id l : StronglySorted ordered l -> order_rows l = l.
Proof.
  induction 1 as [|a l Hl IH Ha]; [reflexivity|].
  change (order_rows (a :: l)) with (insert_row a (order_rows l)).
  rewrite IH. destruct l as [|x l]; [reflexivity|].
  cbn [insert_row]. inversion Ha as [|? ? Hx _]; subst.
  unfold ordered in Hx. rewrite Hx. reflexivity.
Qed.

Lemma rows_from_filter bid n vp :
  List.filter (fun r => fst r =? bid) (rows_from bid n vp) = rows_from bid n vp.
Proof.
  revert n. induction vp as [|[q a] vp IH]; intros n; cbn; [reflexivity|].
  rewrite Z.eqb_refl, IH. reflexivity.
Qed.

Lemma rows_from_filter_other bid other n vp :
  other <> bid ->
  List.filter (fun r => fst r =? other) (rows_from bid n vp) = [].
Proof.
  intros Hne. revert n. induction vp as [|[q a] vp IH]; intros n; cbn;
    [reflexivity|].
  destruct (bid =? other) eqn:E; [apply Z.eqb_eq in E; congruence|]. apply IH.
Qed.

Lemma rows_from_pairs bid n vp :
  map (fun r => (row_question r, row_answer r)) (map snd (rows_from bid n vp))
  = vp.
Proof.
  revert n. induction vp as [|[q a] vp IH]; intros n; cbn; [reflexivity|].
  rewrite IH. reflexivity.
Qed.

(** X28. Rows added one after the other are fetched in the order in which
    they were added.  After [add_qna(bot_id, question, answer)] for each pair of
    a list, in order, for a bot that had no row, the candidates of the bot
    are fetched as the pairs, in the order of the list, each with priority 1
    and no keywords and with ids that were never given before; the
    candidates of every other bot are fetched as before and the bots are
    untouched. *)
Theorem add_qna_all_fetch (db : Db) (bid : Z) (pairs : list (str * str)) :
  (forall row, ~ In (bid, row) (qna db)) ->
  let db' := add_qna_all db bid pairs in
  map (fun r => (row_question r, row_answer r)) (fetch_qna db' bid) = pairs
  /\ Forall (fun r => next_qna_id db <= row_id r
                      /\ row_priority r = Some 1
                      /\ row_keywords r = None)
            (fetch_qna db' bid)
  /\ (forall other, other <> bid -> fetch_qna db' other = fetch_qna db other)
  /\ bots db' = bots db.
Proof.
  intros Hfree. cbn zeta.
  destruct (add_qna_all_qna bid pairs db) as [Eq Eb].
  assert (Hold : List.filter (fun r => fst r =? bid) (qna db) = []).
  { revert Hfree. generalize (qna db) as l.
    induction l as [|[b r] l IH]; intros Hfree; [reflexivity|]. cbn.
    destruct (b =? bid) eqn:E.
    - exfalso. apply Z.eqb_eq in E. subst b. apply (Hfree r). left. reflexivity.
    - apply IH. intros row Hin. apply (Hfree row). right. exact Hin. }
  assert (Hfetch : fetch_qna (add_qna_all db bid pairs) bid
                   = map snd (rows_from bid (next_qna_id db) pairs)).
  { unfold fetch_qna. rewrite Eq, List.filter_app, rows_from_filter, Hold.
    cbn [app]. apply order_rows_sorted_id. apply rows_from_sorted. }
  split; [rewrite Hfetch; apply rows_from_pairs|].
  split; [rewrite Hfetch; apply rows_from_ids|].
  split; [|exact Eb].
  intros other Hne. unfold fetch_qna.
  rewrite Eq, List.filter_app, rows_from_filter_other by exact Hne.
  rewrite app_nil_r. reflexivity.
Qed.

(** X26. The id that [add_bot] returns identifies the new bot: it is greater
    than the id of every bot stored before, the new bot is the one found
    under it, and every other id is looked up as before. *)
Theorem add_bot_fetch_by_id (db : Db) (slug : str) (fallback : option str)
    (i : Z) :
  snd (add_bot db slug fallback) = Some i ->
  let db' := fst (add_bot db slug fallback) in
  fetch_bot_by_id db' i
  = Some {| bot_id := i; bot_slug := slug;
            bot_fallback_message :=
              Some match fallback with
                   | Some m => m
                   | None => DEFAULT_FALLBACK
                   end |}
  /\ (forall b, In b (bots db) -> bot_id b < i)
  /\ (forall j, j <> i -> fetch_bot_by_id db' j = fetch_bot_by_id db j).
Proof.
  unfold add_bot.
  destruct (existsb (fun b => eqb_str (bot_slug b) slug) (bots db));
    [discriminate|].
  cbn [fst snd]. intros [= <-]. cbn zeta.
  assert (Hlt : forall b, In b (bots db) -> bot_id b < next_bot_id db).
  { unfold next_bot_id. induction (bots db) as [|x l IH]; intros b Hin;
      [destruct Hin|].
    cbn [fold_right]. destruct Hin as [->|Hin]; [lia|].
    specialize (IH b Hin). lia. }
  unfold fetch_bot_by_id. cbn [bots]. split; [|split; [exact Hlt|]].
  - rewrite find_app_r.
    + cbn. rewrite Z.eqb_refl. reflexivity.
    + apply find_none_existsb. destruct (existsb _ (bots db)) eqn:E;
        [|reflexivity].
      apply existsb_exists in E as (b & Hin & Hb). apply Z.eqb_eq in Hb.
      specialize (Hlt b Hin). lia.
  - intros j Hj.
    destruct (List.find (fun b => bot_id b =? j) (bots db)) as [b|] eqn:Ef.
    + apply find_app_l. exact Ef.
    + rewrite find_app_r by exact Ef. cbn.
      destruct (next_bot_id db =? j) eqn:E; [|reflexivity].
      apply Z.eqb_eq in E. congruence.
Qed.

(** ** The further properties at sample inputs *)

Lemma parse_keywords_app_witness :
  @parse_keywords RefLib.ref_lib
    (Some (join_comma ([py "hours"; py " Open "] ++ [py "re:^hi$"])))
  = Ok ([py "hours"; py "open"],
        [{| pattern := py "^hi$"; ignorecase := true |}]).
Proof.
  rewrite (@parse_keywords_app RefLib.ref_lib
             [py "hours"; py " Open "] [py "re:^hi$"]).
  - vm_compute. reflexivity.
  - repeat constructor; unfold no_comma; simpl; intuition discriminate.
Defined.

Lemma score_qna_priority_shift_witness :
  @score_of RefLib.ref_lib (py "wifi") (with_priority (wifi_row 2 None) (Some 1))
  < @score_of RefLib.ref_lib (py "wifi")
      (with_priority (wifi_row 2 None) (Some 10)).
Proof.
  pose proof (@score_qna_priority_shift RefLib.ref_lib (py "wifi")
                (wifi_row 2 None) 1 10) as H.
  assert (E1 : exists s d,
             @score_qna RefLib.ref_lib (py "wifi")
               (with_priority (wifi_row 2 None) (Some 1)) = Ok (s, d))
    by (eexists; eexists; vm_compute; reflexivity).
  assert (E2 : exists s d,
             @score_qna RefLib.ref_lib (py "wifi")
               (with_priority (wifi_row 2 None) (Some 10)) = Ok (s, d))
    by (eexists; eexists; vm_compute; reflexivity).
  destruct E1 as (s1 & d1 & E1), E2 as (s2 & d2 & E2).
  unfold score_of. rewrite E1, E2 in H |- *.
  apply H. lia.
Defined.

Lemma score_qna_details_sound_witness :
  is_substring (normalize_text (py "What time do you open?")) (py "open").
Proof.
  destruct (@score_qna_details_sound RefLib.ref_lib
              (normalize_text (py "What time do you open?"))
              (hours_row (Some 10)) 63
              {| matched_keywords := [py "open"; py "time"]; matched_regex := [];
                 exact := false; ratio := 0x1.3cf3cf3cf3cf4p-1%float;
                 priority := 10 |})
    as (plain & patterns & _ & H & _).
  - vm_compute. reflexivity.
  - apply (H (py "open")). left. reflexivity.
Defined.

Lemma match_rule_debug_independent_witness :
  result_of (snd (@match_rule RefLib.ref_lib true cafe_two
                    (py "cozy-cafe") (py "wifi password please")))
    !! "answer"%string
  = result_of (snd (@match_rule RefLib.ref_lib false cafe_two
                      (py "cozy-cafe") (py "wifi password please")))
      !! "answer"%string.
Proof.
  pose proof (@match_rule_debug_independent RefLib.ref_lib cafe_two
                (py "cozy-cafe") (py "wifi password please")) as H.
  assert (E1 : forall o, o = snd (@match_rule RefLib.ref_lib true cafe_two
                                    (py "cozy-cafe") (py "wifi password please")) ->
                         o = Returned (result_of o))
    by (intros o ->; vm_compute; reflexivity).
  assert (E0 : forall o, o = snd (@match_rule RefLib.ref_lib false cafe_two
                                    (py "cozy-cafe") (py "wifi password please")) ->
                         o = Returned (result_of o))
    by (intros o ->; vm_compute; reflexivity).
  rewrite (E1 _ eq_refl), (E0 _ eq_refl) in H.
  apply H. discriminate.
Defined.

Lemma match_rule_debug_on_witness :
  exists done rest,
    fetch_qna cafe_two (bot_id cafe_bot) = done ++ rest
    /\ Forall2 (fun row line =>
                  exists s d,
                    @score_qna RefLib.ref_lib
                      (normalize_text (py "wifi password please")) row
                    = Ok (s, d)
                    /\ line = debug_line row s d)
               done
               (fst (@match_rule RefLib.ref_lib true cafe_two
                       (py "cozy-cafe") (py "wifi password please")))
    /\ match rest with
       | [] => @first_raise RefLib.ref_lib (fetch_qna cafe_two (bot_id cafe_bot))
               = None
       | row :: _ =>
           exists e,
             @score_qna RefLib.ref_lib
               (normalize_text (py "wifi password please")) row = Raise e
             /\ snd (@match_rule RefLib.ref_lib true cafe_two
                       (py "cozy-cafe") (py "wifi password please"))
                = Raised e
       end.
Proof.
  apply (proj1 (@match_rule_debug_on RefLib.ref_lib cafe_two
                  (py "cozy-cafe") (py "wifi password please") cafe_bot
                  eq_refl ltac:(vm_compute; discriminate))).
Defined.

Lemma match_rule_result_shape_witness :
  let o := snd (@match_rule RefLib.ref_lib false cafe_two
                  (py "cozy-cafe") (py "wifi password please")) in
  exists (b : bool) (c : Z),
    result_of o !! "matched"%string = Some (VBool b)
    /\ result_of o !! "confidence"%string = Some (VInt c)
    /\ 0 <= c.
Proof.
  intros o.
  destruct (@match_rule_result_shape RefLib.ref_lib false cafe_two
              (py "cozy-cafe") (py "wifi password please") (result_of o))
    as (b & c & H1 & H2 & H3 & _).
  - vm_compute. reflexivity.
  - exists b, c. split; [exact H1|]. split; [exact H2 | exact H3].
Defined.

Lemma match_rule_answer_of_bot_witness :
  let o := snd (@match_rule RefLib.ref_lib false cafe_two
                  (py "cozy-cafe") (py "wifi password please")) in
  exists bot row,
    In bot (bots cafe_two) /\ bot_slug bot = py "cozy-cafe"
    /\ In (bot_id bot, row) (qna cafe_two)
    /\ result_of o !! "answer"%string = Some (VStr (row_answer row))
    /\ result_of o !! "question"%string = Some (VStr (row_question row))
    /\ result_of o !! "qna_id"%string = Some (VInt (row_id row)).
Proof.
  intros o.
  apply (@match_rule_answer_of_bot RefLib.ref_lib false cafe_two
           (py "cozy-cafe") (py "wifi password please") (result_of o)).
  - vm_compute. reflexivity.
  - vm_compute. reflexivity.
Defined.

Lemma match_rule_raises_iff_witness :
  let db := cafe_db [with_keywords (hours_row (Some 10))
                       (Some (py "hours,re:a{99999999999}"))] in
  exists bot,
    fetch_bot_by_slug db (py "cozy-cafe") = Some bot
    /\ (@first_raise RefLib.ref_lib (fetch_qna db (bot_id bot))
        = Some OverflowError
        \/ (@first_raise RefLib.ref_lib (fetch_qna db (bot_id bot)) = None
            /\ OverflowError = TypeError
            /\ fetch_qna db (bot_id bot) <> []
            /\ forall row,
                 In row (fetch_qna db (bot_id bot)) ->
                 @score_of RefLib.ref_lib (normalize_text (py "hours")) row
                 <= - 10 ^ 9)).
Proof.
  intros db.
  apply (proj1 (proj1 (@match_rule_raises_iff RefLib.ref_lib false db
                         (py "cozy-cafe") (py "hours")) OverflowError)).
  vm_compute. reflexivity.
Defined.

Lemma match_rule_confidence_witness :
  let o := snd (@match_rule RefLib.ref_lib false cafe_two
                  (py "cozy-cafe") (py "wifi password please")) in
  result_of o !! "confidence"%string
  = Some (VInt
            match fetch_bot_by_slug cafe_two (py "cozy-cafe") with
            | None => 0
            | Some bot =>
                fold_right Z.max 0
                  (map (@score_of RefLib.ref_lib
                          (normalize_text (py "wifi password please")))
                       (fetch_qna cafe_two (bot_id bot)))
            end).
Proof.
  intros o.
  apply (proj1 (@match_rule_confidence RefLib.ref_lib false cafe_two
                  (py "cozy-cafe") (py "wifi password please") (result_of o)
                  ltac:(vm_compute; reflexivity))).
Defined.

Lemma add_bot_fetch_witness :
  fetch_bot_by_slug (fst (add_bot cafe_two (py "tech-helper") None))
    (py "cozy-cafe")
  = fetch_bot_by_slug cafe_two (py "cozy-cafe").
Proof.
  apply (proj2 (add_bot_fetch cafe_two (py "tech-helper") None)).
  discriminate.
Defined.

Lemma add_bot_slugs_unique_witness :
  slugs_unique (fst (add_bot cafe_two (py "tech-helper") None)).
Proof.
  apply (proj1 (add_bot_slugs_unique cafe_two (py "tech-helper") None
                  ltac:(unfold slugs_unique; cbn; apply NoDup_singleton))).
Defined.

Lemma add_qna_fetch_witness :
  fetch_qna (add_qna cafe_two 2 (py "Hi?") (py "Hello.") None (Some 1)) 1
  = fetch_qna cafe_two 1.
Proof.
  destruct (add_qna_fetch cafe_two 2 (py "Hi?") (py "Hello.") None (Some 1))
    as (_ & _ & H & _).
  apply H. lia.
Defined.

Lemma delete_qna_fetch_witness :
  In (wifi_row 2 (Some 9)) (fetch_qna (fst (delete_qna cafe_two 1)) 1).
Proof.
  apply (proj1 (delete_qna_fetch cafe_two 1) 1 (wifi_row 2 (Some 9))).
  split.
  - vm_compute. right. left. reflexivity.
  - vm_compute. discriminate.
Defined.

Lemma delete_qna_keeps_next_id_witness :
  next_qna_id (fst (delete_qna cafe_two 2)) = next_qna_id cafe_two.
Proof.
  destruct (delete_qna_keeps_next_id cafe_two 2) as (_ & _ & H & _).
  - unfold seq_ok. vm_compute. discriminate.
  - exact H.
Defined.

(** After the row with the greatest id is deleted, the next row gets the id
    after it, not the id of the deleted row. *)
Example add_qna_after_delete :
  map row_id (fetch_qna cafe_two 1) = [1; 2]
  /\ map row_id
       (fetch_qna (add_qna (fst (delete_qna cafe_two 2)) 1
                     (py "Hi?") (py "Hello.") None (Some 1)) 1)
     = [1; 3].
Proof. vm_compute. split; reflexivity. Qed.

Lemma fetch_qna_order_witness :
  rank_ge (priority_rank (hours_row (Some 10)))
          (priority_rank (wifi_row 2 (Some 9))).
Proof.
  destruct (proj1 (fetch_qna_order cafe_two 1) 0%nat 1%nat
              (hours_row (Some 10)) (wifi_row 2 (Some 9))) as [H _].
  - lia.
  - reflexivity.
  - reflexivity.
  - exact H.
Defined.

Lemma add_qna_all_fetch_witness :
  map (fun r => (row_question r, row_answer r))
      (fetch_qna (add_qna_all cafe_two 2
                    [(py "How do I reset my password?", py "Use the login page.");
                     (py "What browsers do you support?", py "All of them.")])
                 2)
  = [(py "How do I reset my password?", py "Use the login page.");
     (py "What browsers do you support?", py "All of them.")].
Proof.
  apply (add_qna_all_fetch cafe_two 2).
  intros row Hin. vm_compute in Hin.
  destruct Hin as [[= H _]|[[= H _]|[]]]; discriminate H.
Defined.

Lemma create_user_fetch_witness :
  fetch_user_by_email
    (fst (create_user [] (py "a@example.com") (py "2024-01-01T00:00:00")))
    (py "b@example.com")
  = fetch_user_by_email [] (py "b@example.com").
Proof.
  apply (proj2 (create_user_fetch [] (py "a@example.com")
                  (py "2024-01-01T00:00:00"))).
  discriminate.
Defined.

Lemma increment_bot_stats_adds_witness :
  stat_rows (fst (increment_bot_stats
                    (fst (increment_bot_stats [] 1 (py "2024-01-01") 1 3))
                    1 (py "2024-01-01") 0 2))
            1 (py "2024-01-01") = 1%nat.
Proof.
  destruct (increment_bot_stats_adds
              (fst (increment_bot_stats [] 1 (py "2024-01-01") 1 3))
              1 (py "2024-01-01") 0 2) as (_ & _ & H & _).
  apply H. vm_compute. lia.
Defined.

Lemma add_bot_fetch_by_id_witness :
  fetch_bot_by_id (fst (add_bot cafe_two (py "tech-helper") None)) 2
  = Some {| bot_id := 2; bot_slug := py "tech-helper";
            bot_fallback_message := Some DEFAULT_FALLBACK |}.
Proof.
  apply (proj1 (add_bot_fetch_by_id cafe_two (py "tech-helper") None 2 eq_refl)).
Defined.
